(** * Map viewport and path-following engine of EnhancedNetworkMap.tsx

    A shallow embedding of the geometry helpers, the viewport controller,
    the inertia loop and the train animator of
    [src/components/EnhancedNetworkMap.tsx], with the properties the
    specification states about them.

    Conventions of the embedding.
    - A JavaScript [number] is a mathematical real ([R]): the arithmetic is
      exact, and NaN, the infinities and IEEE rounding are outside the model.
      The only infinity the code relies on, the initial [bestDist = Infinity]
      of [projectPointOntoPolyline], is an [option R] whose [None] is
      [Infinity].
    - The functions whose results the specification compares exactly or
      within a tolerance ([getPointAlongPath], [projectPointOntoPolyline],
      [zoomAt] and the zoom buttons) are embedded twice more. In [Double]
      they are on binary64 numbers with every operation rounded as a
      JavaScript engine rounds it: what is evaluated there is what the
      program computes. In [Rounded] they are on reals with every operation
      followed by a rounding function [fl], of which the properties assume
      no more than what rounding to the nearest binary64 number does where
      nothing overflows: what is proved there holds of the program on finite
      numbers. What holds of the functions over [R] alone holds of the
      program up to rounding.
    - [trainRoutes] is the table of the routes stored under the ids of the
      trains, each an array of station ids. A train id that names a property
      a plain object inherits (such as [constructor]) and has no route of its
      own is outside the model.
    - An expression that raises a [TypeError] in JavaScript (a property read
      on [undefined], as in [points[i].x] with [i] out of range) is
      [Throws]; everything else [Returns] a value.
    - React state is passed explicitly; a state updater is a function on the
      state it updates, applied in the order React applies the queue.
    - [Math.random] and [getRandomSpeed] are inputs of the animator tick. *)

From Stdlib Require Import Reals Lra Psatz.
From stdpp Require Import gmap strings list fin_maps.
From Stdlib Require PrimFloat.

Open Scope R_scope.

(** ** JavaScript numbers and [Math] *)

#[global] Instance Rle_decision : RelDecision Rle := Rle_dec.
#[global] Instance Rlt_decision : RelDecision Rlt := Rlt_dec.
#[global] Instance Req_decision : EqDecision R := Req_dec_T.

Definition Math_max (a b : R) : R := Rmax a b.
Definition Math_min (a b : R) : R := Rmin a b.
Definition Math_hypot (x y : R) : R := sqrt (x * x + y * y).
(** [Math.round x] is [floor (x + 0.5)]. *)
Definition Math_round (x : R) : R := IZR (Int_part (x + / 2)).

(** ** Outcomes: a value, or a thrown [TypeError] *)

Inductive outcome (A : Type) : Type :=
| Returns (a : A)
| Throws.
Arguments Returns {A} a.
Arguments Throws {A}.

#[global] Instance outcome_bind : MBind outcome := λ A B k m,
  match m with
  | Returns a => k a
  | Throws => Throws
  end.

(** ** Points *)

Record Point : Type := mkPoint { x : R; y : R }.

#[global] Instance Point_inhabited : Inhabited Point := populate (mkPoint 0 0).

Record PathPoint : Type := mkPathPoint { position : Point; tangent : Point }.

(** [arr[i]] read for one of its properties: throws when [i] is out of range. *)
Definition item {A : Type} (arr : list A) (i : nat) : outcome A :=
  match arr !! i with
  | Some a => Returns a
  | None => Throws
  end.

Module Geometry.

(** First loop of [getPointAlongPath]: [for (i = 0; i < points.length - 1; i++)],
    with [count] iterations left, pushing every segment length and summing. *)
Fixpoint measure (points : list Point) (i count : nat)
    (segmentLengths : list R) (total : R) : outcome (list R * R) :=
  match count with
  | O => Returns (segmentLengths, total)
  | S count' =>
      p1 ← item points (i + 1);
      p0 ← item points i;
      let dx := x p1 - x p0 in
      let dy := y p1 - y p0 in
      let len := Math_hypot dx dy in
      measure points (S i) count' (segmentLengths ++ [len]) (total + len)
  end.

(** Second loop: [rest] is [segmentLengths] from index [i] on; [None] when
    the loop runs to its end without returning. *)
Fixpoint scan (points : list Point) (target : R) (i : nat) (acc : R)
    (rest : list R) : outcome (option PathPoint) :=
  match rest with
  | [] => Returns None
  | len :: rest' =>
      let nextAcc := acc + len in
      if decide (target <= nextAcc) then
        let localT := if decide (len = 0) then 0 else (target - acc) / len in
        p0 ← item points i;
        p1 ← item points (i + 1);
        let px := x p0 + (x p1 - x p0) * localT in
        let py := y p0 + (y p1 - y p0) * localT in
        let tx := x p1 - x p0 in
        let ty := y p1 - y p0 in
        Returns (Some (mkPathPoint (mkPoint px py) (mkPoint tx ty)))
      else scan points target (S i) nextAcc rest'
  end.

Definition getPointAlongPath (points : list Point) (progress : R) : outcome PathPoint :=
  match points with
  | [] => Returns (mkPathPoint (mkPoint 0 0) (mkPoint 1 0))
  | [p] => Returns (mkPathPoint p (mkPoint 1 0))
  | _ =>
      '(segmentLengths, total) ← measure points 0 (length points - 1) [] 0;
      if decide (total = 0) then
        p ← item points 0; Returns (mkPathPoint p (mkPoint 1 0))
      else
        let target := Math_max 0 (Math_min 1 progress) * total in
        found ← scan points target 0 0 segmentLengths;
        match found with
        | Some r => Returns r
        | None =>
            last ← item points (length points - 1);
            prev ← item points (length points - 2);
            Returns (mkPathPoint last (mkPoint (x last - x prev) (y last - y prev)))
        end
  end.

(** One iteration of the loop of [projectPointOntoPolyline]; [bestDist] is
    [None] while it is still [Infinity]. *)
Definition closer (d : R) (bestDist : option R) : bool :=
  match bestDist with
  | None => true
  | Some b => bool_decide (d < b)
  end.

(** [t], the clamped scalar projection of [point] on the segment. *)
Definition projectionParameter (point p0 p1 : Point) : R :=
  let vx := x p1 - x p0 in
  let vy := y p1 - y p0 in
  let wx := x point - x p0 in
  let wy := y point - y p0 in
  let c1 := vx * wx + vy * wy in
  let c2 := vx * vx + vy * vy in
  if decide (c2 = 0) then 0 else Math_max 0 (Math_min 1 (c1 / c2)).

(** [proj] *)
Definition candidate (point p0 p1 : Point) : Point :=
  let vx := x p1 - x p0 in
  let vy := y p1 - y p0 in
  let t := projectionParameter point p0 p1 in
  mkPoint (x p0 + t * vx) (y p0 + t * vy).

Fixpoint project (point : Point) (polyline : list Point) (i count : nat)
    (bestDist : option R) (bestPoint : Point) : outcome Point :=
  match count with
  | O => Returns bestPoint
  | S count' =>
      p0 ← item polyline i;
      p1 ← item polyline (i + 1);
      let proj := candidate point p0 p1 in
      let d := Math_hypot (x point - x proj) (y point - y proj) in
      if closer d bestDist
      then project point polyline (S i) count' (Some d) proj
      else project point polyline (S i) count' bestDist bestPoint
  end.

Definition projectPointOntoPolyline (point : Point) (polyline : list Point) : outcome Point :=
  match polyline with
  | [] => Returns point
  | [p] => Returns p
  | p :: _ => project point polyline 0 (length polyline - 1) None p
  end.

(** *** Reference notions the properties are stated with *)

Definition segLen (p0 p1 : Point) : R := Math_hypot (x p1 - x p0) (y p1 - y p0).

Fixpoint segment_lengths (points : list Point) : list R :=
  match points with
  | p0 :: (p1 :: _) as tl => segLen p0 p1 :: segment_lengths tl
  | _ => []
  end.

Fixpoint sumR (l : list R) : R :=
  match l with
  | [] => 0
  | a :: l' => a + sumR l'
  end.

(** Piecewise-linear length of the whole path, and of its first [k] segments. *)
Definition pathLength (points : list Point) : R := sumR (segment_lengths points).
Definition cumulative (points : list Point) (k : nat) : R :=
  sumR (take k (segment_lengths points)).

Definition clamp01 (progress : R) : R := Math_max 0 (Math_min 1 progress).

(** The point of parameter [t] on the segment from [p0] to [p1]. *)
Definition lerp (p0 p1 : Point) (t : R) : Point :=
  mkPoint (x p0 + (x p1 - x p0) * t) (y p0 + (y p1 - y p0) * t).

Definition dist (p q : Point) : R := Math_hypot (x p - x q) (y p - y q).

(** The interpolation parameter within segment [k], from [p0] to [p1], for
    the arc length [target]. *)
Definition localT (points : list Point) (target : R) (k : nat) (p0 p1 : Point) : R :=
  if decide (segLen p0 p1 = 0) then 0 else (target - cumulative points k) / segLen p0 p1.

(** The candidate of segment [j] of a polyline, and what it is for segment
    [k] to be the first of the [n] first segments whose candidate is nearest
    to [point]. *)
Definition candidateAt (point : Point) (polyline : list Point) (j : nat) : Point :=
  candidate point (polyline !!! j) (polyline !!! (j + 1)%nat).

Definition firstNearest (point : Point) (polyline : list Point) (n k : nat) : Prop :=
  (k < n)%nat ∧
  (∀ j, (j < n)%nat →
     dist point (candidateAt point polyline k) <= dist point (candidateAt point polyline j)) ∧
  (∀ j, (j < k)%nat →
     dist point (candidateAt point polyline k) < dist point (candidateAt point polyline j)).

(** The loop keeps the first nearest candidate of the segments scanned so far. *)
Definition scanned (point : Point) (polyline : list Point) (i : nat)
    (bestDist : option R) (bestPoint : Point) : Prop :=
  match bestDist with
  | None => i = 0%nat
  | Some d =>
      ∃ k, firstNearest point polyline i k ∧ bestPoint = candidateAt point polyline k ∧
           d = dist point bestPoint
  end.

(** [proj], on segment [k], is nearest to [point] on the polyline: it lies on
    segment [k]; no point of any segment, and so no vertex, is nearer; and it
    is the candidate of the first segment whose candidate is that near. *)
Definition nearestOnPolyline (point : Point) (polyline : list Point) (k : nat)
    (proj : Point) : Prop :=
  (k + 1 < length polyline)%nat ∧
  proj = candidateAt point polyline k ∧
  (∃ t, 0 <= t <= 1 ∧ proj = lerp (polyline !!! k) (polyline !!! (k + 1)%nat) t) ∧
  (∀ j t, (j + 1 < length polyline)%nat → 0 <= t <= 1 →
     dist point proj <= dist point (lerp (polyline !!! j) (polyline !!! (j + 1)%nat) t)) ∧
  (∀ v, v ∈ polyline → dist point proj <= dist point v) ∧
  (∀ j, (j < k)%nat → dist point proj < dist point (candidateAt point polyline j)).

(** Scenario B of the specification. *)
Definition scenarioPath : list Point := [mkPoint 0 0; mkPoint 10 0; mkPoint 10 10].

End Geometry.

(** ** The data the map works on *)

Module Train.
Inductive kind : Type := passenger | express | freight.
Inductive punctuality : Type := on_time | delayed | early.

(** [interface Train] of [data/mockData.ts]. A station id read from a route
    is [undefined] when the index is out of range, so the two station
    fields are [option string], [None] being [undefined]. *)
Record t : Type := mk {
  id : string;
  number : string;
  name : string;
  type : kind;
  priority : R;
  status : punctuality;
  currentStation : option string;
  nextStation : option string;
  speed : R;
  maxSpeed : R;
  delay : R;
  route : list string;
  departureTime : string;
  arrivalTime : string;
  position : Point
}.

(** [{ ...t, position: p }] *)
Definition with_position (p : Point) (tr : t) : t :=
  mk (id tr) (number tr) (name tr) (type tr) (priority tr) (status tr)
     (currentStation tr) (nextStation tr) (speed tr) (maxSpeed tr) (delay tr)
     (route tr) (departureTime tr) (arrivalTime tr) p.

(** [{ ...t, speed: s, position: p }] *)
Definition with_speed_position (s : R) (p : Point) (tr : t) : t :=
  mk (id tr) (number tr) (name tr) (type tr) (priority tr) (status tr)
     (currentStation tr) (nextStation tr) s (maxSpeed tr) (delay tr)
     (route tr) (departureTime tr) (arrivalTime tr) p.

(** [{ ...t, currentStation: c, nextStation: n }] *)
Definition with_stations (c n : option string) (tr : t) : t :=
  mk (id tr) (number tr) (name tr) (type tr) (priority tr) (status tr)
     c n (speed tr) (maxSpeed tr) (delay tr)
     (route tr) (departureTime tr) (arrivalTime tr) (position tr).

(** [id.startsWith('M')]: a manually placed train. *)
Definition isManual (trainId : string) : bool := String.prefix "M" trainId.
End Train.

Module Station.
Inductive kind : Type := junction | terminal | halt.
Record t : Type := mk {
  id : string;
  name : string;
  code : string;
  platforms : R;
  position : Point;
  type : kind;
  hasLoop : bool
}.
End Station.

Inductive TrackType : Type := main | branch | electrified.

Module RailwayLine.
(** [interface RailwayLine]; [coordinates] are already pixel coordinates
    (the result of [getLinesWithPixelCoordinates]). *)
Record t : Type := mk {
  id : string;
  name : string;
  type : TrackType;
  stations : list string;
  coordinates : list Point;
  electrified : bool
}.
End RailwayLine.

Module TrackSegment.
Record t : Type := mk {
  id : string;
  start : Point;
  end_ : Point;
  type : TrackType;
  stations : list string;
  name : string
}.
End TrackSegment.

Definition trackSegments : list TrackSegment.t :=
  [ TrackSegment.mk "MSH-ADI" (mkPoint 350 250) (mkPoint 400 300) main
      ["ST002"; "ST001"] "Mehsana-Ahmedabad";
    TrackSegment.mk "ADI-BRC" (mkPoint 400 300) (mkPoint 450 350) electrified
      ["ST001"; "ST003"] "Ahmedabad-Vadodara" ]%string.

(** [arr.includes(s)] on an array of strings; [undefined] is never included. *)
Definition includes (arr : list string) (s : option string) : bool :=
  match s with
  | Some s => bool_decide (s ∈ arr)
  | None => false
  end.

(** [arr.find(pred)] *)
Definition find {A : Type} (pred : A → bool) (arr : list A) : option A :=
  List.find pred arr.

Module Registry.

Definition connects (stations : list string) (stationAId stationBId : option string) : bool :=
  includes stations stationAId && includes stations stationBId.

(** The simplified two-point segment of [trackSegments], if one connects the pair. *)
Definition fallbackPath (stationAId stationBId : option string) : option (list Point) :=
  match find (λ seg, connects (TrackSegment.stations seg) stationAId stationBId) trackSegments with
  | Some fallback => Some [TrackSegment.start fallback; TrackSegment.end_ fallback]
  | None => None
  end.

(** [getLinePointsBetweenStations]; [None] is [null]. *)
Definition getLinePointsBetweenStations (realLines : list RailwayLine.t)
    (stationAId stationBId : option string) : option (list Point) :=
  let realLine :=
    find (λ line, connects (RailwayLine.stations line) stationAId stationBId) realLines in
  match realLine with
  | Some line =>
      if bool_decide (2 ≤ length (RailwayLine.coordinates line))%nat
      then Some (map (λ p, mkPoint (x p) (y p)) (RailwayLine.coordinates line))
      else fallbackPath stationAId stationBId
  | None => fallbackPath stationAId stationBId
  end.

End Registry.

(** ** The train animation effect (the [setInterval] callback) *)

Module Animator.

(** [Math.floor] *)
Definition Math_floor (r : R) : R := IZR (Int_part r).

(** [getRandomSpeed] of [data/mockData.ts]; [random] is its [Math.random()]. *)
Definition getRandomSpeed (trainType : Train.kind) (random : R) : R :=
  match trainType with
  | Train.express => Math_floor (random * 40) + 100
  | Train.passenger => Math_floor (random * 30) + 70
  | Train.freight => Math_floor (random * 25) + 50
  end.

(** [arr.indexOf(s)], [-1] when absent. *)
Definition indexOf (arr : list string) (s : option string) : Z :=
  match s with
  | Some s =>
      match list_find (λ a, a = s) arr with
      | Some (i, _) => Z.of_nat i
      | None => (-1)%Z
      end
  | None => (-1)%Z
  end.

(** [k % arr.length] for [k >= 0]; [None] is the [NaN] of an empty array. *)
Definition modLength (k : Z) (arr : list string) : option nat :=
  if decide (length arr = 0%nat) then None
  else Some (Z.to_nat (k mod Z.of_nat (length arr))).

(** [arr[i]], [undefined] when [i] is [NaN] or out of range. *)
Definition at_ (arr : list string) (i : option nat) : option string :=
  match i with
  | Some i => arr !! i
  | None => None
  end.

(** What the updater passed to [setTrainProgress] captures. *)
Record ProgressUpdater : Type := mkUpdater {
  trainId : string;
  progressIncrement : R;
  nextStationId : option string;
  (** [trainRoute[(nextStationIndex + 1) % trainRoute.length]] *)
  followingStationId : option string
}.

(** The nested [setAnimatedTrains] of the rollover. *)
Definition advanceStations (u : ProgressUpdater) (prevTrains : list Train.t) : list Train.t :=
  map (λ t, if decide (Train.id t = trainId u)
            then Train.with_stations (nextStationId u) (followingStationId u) t
            else t) prevTrains.

(** The updater of [setTrainProgress], together with the train update it queues. *)
Definition applyProgress (u : ProgressUpdater) (s : list Train.t * gmap string R)
    : list Train.t * gmap string R :=
  let currentProgress := default 0 (s.2 !! trainId u) in
  let newProgress := currentProgress + progressIncrement u in
  if decide (1 <= newProgress)
  then (advanceStations u s.1, <[trainId u := 0]> s.2)
  else (s.1, <[trainId u := newProgress]> s.2).

(** The branch taken when no path is resolved. *)
Definition holdPosition (stations : list Station.t) (newSpeed : R) (train : Train.t) : Train.t :=
  let currentStation :=
    find (λ s, bool_decide (Some (Station.id s) = Train.currentStation train)) stations in
  Train.with_speed_position (Math_round newSpeed)
    (match currentStation with
     | Some s => Station.position s
     | None => Train.position train
     end) train.

Section tick.
Context (stations : list Station.t) (realLines : list RailwayLine.t)
        (trainRoutes : gmap string (list string)).
(** [rnd index] are the two [Math.random()] draws made for the train at [index]. *)
Context (rnd : nat → R * R).

Definition newSpeedOf (index : nat) (train : Train.t) : R :=
  let baseSpeed := getRandomSpeed (Train.type train) (rnd index).1 in
  let speedVariation := ((rnd index).2 - 0.5) * 20 in
  Math_max 30 (Math_min (Train.maxSpeed train) (baseSpeed + speedVariation)).

Definition trainRouteOf (train : Train.t) : list string :=
  default (Train.route train) (trainRoutes !! Train.id train).

Definition nextStationIndexOf (train : Train.t) : option nat :=
  let trainRoute := trainRouteOf train in
  let currentStationIndex := indexOf trainRoute (Train.currentStation train) in
  modLength (currentStationIndex + 1) trainRoute.

Definition pathPointsOf (train : Train.t) : option (list Point) :=
  let nextStationId := at_ (trainRouteOf train) (nextStationIndexOf train) in
  Registry.getLinePointsBetweenStations realLines (Train.currentStation train) nextStationId.

Definition progressIncrementOf (index : nat) (train : Train.t) : R :=
  let speedFactor := newSpeedOf index train / 100 in
  let delayFactor := if decide (0 < Train.delay train) then 0.7 else 1.0 in
  speedFactor * delayFactor * 0.015.

(** The body of [prevTrains.map((train, index) => ...)]: the new train and
    the progress updater it queues, if any. *)
Definition animateTrain (trainProgress : gmap string R) (index : nat) (train : Train.t)
    : outcome (Train.t * option ProgressUpdater) :=
  if Train.isManual (Train.id train) then Returns (train, None)
  else
    let newSpeed := newSpeedOf index train in
    let trainRoute := trainRouteOf train in
    let nextStationIndex := nextStationIndexOf train in
    let nextStationId := at_ trainRoute nextStationIndex in
    let held := Returns (holdPosition stations newSpeed train, None) in
    match pathPointsOf train with
    | Some pathPoints =>
        if bool_decide (2 ≤ length pathPoints)%nat then
          let updater :=
            mkUpdater (Train.id train) (progressIncrementOf index train) nextStationId
              (at_ trainRoute
                 (match nextStationIndex with
                  | Some n => modLength (Z.of_nat n + 1) trainRoute
                  | None => None
                  end)) in
          let baseProgress := default 0 (trainProgress !! Train.id train) in
          let spacingOffset := INR (index mod 3) * 0.1 in
          let finalProgress := Math_min 0.95 (baseProgress + spacingOffset) in
          r ← Geometry.getPointAlongPath pathPoints finalProgress;
          Returns (Train.with_speed_position (Math_round newSpeed) (position r) train,
                   Some updater)
        else held
    | None => held
    end.

Fixpoint animateAll (trainProgress : gmap string R) (index : nat) (trains : list Train.t)
    : outcome (list Train.t * list ProgressUpdater) :=
  match trains with
  | [] => Returns ([], [])
  | train :: rest =>
      '(train', u) ← animateTrain trainProgress index train;
      '(rest', us) ← animateAll trainProgress (S index) rest;
      Returns (train' :: rest', option_list u ++ us)
  end.

(** One firing of the interval: the outer [setAnimatedTrains] updater, then
    the queued progress updaters, each with the rollover it queues. *)
Definition tick (s : list Train.t * gmap string R) : outcome (list Train.t * gmap string R) :=
  '(trains, updaters) ← animateAll s.2 0 s.1;
  Returns (fold_left (λ s u, applyProgress u s) updaters (trains, s.2)).
End tick.

End Animator.

(** ** The viewport: zoom and pan *)

Module Viewport.

Record t : Type := mk { zoom : R; pan : Point }.

(** [useState(1)] and [useState({ x: 0, y: 0 })] *)
Definition initial : t := mk 1 (mkPoint 0 0).

(** The transform the map layer is drawn with: [displayed = orig * zoom + pan]. *)
Definition worldToScreen (v : t) (p : Point) : Point :=
  mkPoint (x p * zoom v + x (pan v)) (y p * zoom v + y (pan v)).

(** Its inverse, as [getMapCoordinates] computes it from a point of the container. *)
Definition screenToWorld (v : t) (s : Point) : Point :=
  mkPoint ((x s - x (pan v)) / zoom v) ((y s - y (pan v)) / zoom v).

(** [zoomAt]: the [setZoom] updater and the [setPan] updater it queues. *)
Definition zoomAt (pointInContainer : Point) (scaleFactor : R) (v : t) : t :=
  let prevZoom := zoom v in
  let prevPan := pan v in
  let newZoom := Math_max 0.3 (Math_min 3 (prevZoom * scaleFactor)) in
  let worldX := (x pointInContainer - x prevPan) / prevZoom in
  let worldY := (y pointInContainer - y prevPan) / prevZoom in
  let newPanX := x pointInContainer - worldX * newZoom in
  let newPanY := y pointInContainer - worldY * newZoom in
  mk newZoom (mkPoint newPanX newPanY).

(** [handleResetZoom] *)
Definition reset (v : t) : t := mk 1 (mkPoint 0 0).

End Viewport.

(** ** Gestures, inertia and the component state *)

Module DOMRect.
(** [container.getBoundingClientRect()] *)
Record t : Type := mk { left : R; top : R; width : R; height : R }.
End DOMRect.

Record Velocity : Type := mkVelocity { vx : R; vy : R }.

(** [lastMoveRef.current]: [{ x, y, t }] *)
Record Sample : Type := mkSample { sampleX : R; sampleY : R; sampleT : R }.

Record PinchState : Type := mkPinch {
  isPinching : bool;
  startDistance : R;
  lastDistance : R;
  lastCenter : option Point
}.

(** One touch point of [e.touches]. *)
Record Touch : Type := mkTouch { touchX : R; touchY : R }.

(** A mouse event, with what the handlers read when it is handled:
    [overTrain] is [target.closest('[data-train-id]')] being non-null, [now] is
    [performance.now()], [dateNow] and [serial] are the renderings of
    [Date.now()] and of the random train number. *)
Record MouseEvent : Type := mkMouse {
  clientX : R;
  clientY : R;
  overTrain : bool;
  now : R;
  dateNow : string;
  serial : string
}.

(** The component state the handlers read and write, and the browser's list
    of animation frame callbacks: each is a [step] closure, given by its
    handle and the [(vx, vy)] it captured. *)
Record State : Type := mkState {
  view : Viewport.t;
  isDragging : bool;
  dragStart : Point;
  lastMoveRef : option Sample;
  velocityRef : Velocity;
  inertiaAnimRef : option positive;
  pinchStateRef : PinchState;
  placeMode : bool;
  manualTrains : list Train.t;
  draggingTrainId : option string;
  animatedTrains : list Train.t;
  trainProgress : gmap string R;
  frameCallbacks : list (positive * Velocity);
  nextHandle : positive
}.

Definition initialState (trains : list Train.t) (progress : gmap string R) : State :=
  mkState Viewport.initial false (mkPoint 0 0) None (mkVelocity 0 0) None
    (mkPinch false 0 0 None) false [] None trains progress [] 1%positive.

(** [{ ...s, field: value }] for every field of the state. *)
Definition set_view (v : Viewport.t) (s : State) : State :=
  mkState v (isDragging s) (dragStart s) (lastMoveRef s) (velocityRef s) (inertiaAnimRef s)
    (pinchStateRef s) (placeMode s) (manualTrains s) (draggingTrainId s) (animatedTrains s)
    (trainProgress s) (frameCallbacks s) (nextHandle s).
Definition set_pan (p : Point) (s : State) : State :=
  set_view (Viewport.mk (Viewport.zoom (view s)) p) s.
Definition set_zoom (z : R) (s : State) : State :=
  set_view (Viewport.mk z (Viewport.pan (view s))) s.
Definition set_isDragging (b : bool) (s : State) : State :=
  mkState (view s) b (dragStart s) (lastMoveRef s) (velocityRef s) (inertiaAnimRef s)
    (pinchStateRef s) (placeMode s) (manualTrains s) (draggingTrainId s) (animatedTrains s)
    (trainProgress s) (frameCallbacks s) (nextHandle s).
Definition set_dragStart (p : Point) (s : State) : State :=
  mkState (view s) (isDragging s) p (lastMoveRef s) (velocityRef s) (inertiaAnimRef s)
    (pinchStateRef s) (placeMode s) (manualTrains s) (draggingTrainId s) (animatedTrains s)
    (trainProgress s) (frameCallbacks s) (nextHandle s).
Definition set_lastMoveRef (m : option Sample) (s : State) : State :=
  mkState (view s) (isDragging s) (dragStart s) m (velocityRef s) (inertiaAnimRef s)
    (pinchStateRef s) (placeMode s) (manualTrains s) (draggingTrainId s) (animatedTrains s)
    (trainProgress s) (frameCallbacks s) (nextHandle s).
Definition set_velocityRef (v : Velocity) (s : State) : State :=
  mkState (view s) (isDragging s) (dragStart s) (lastMoveRef s) v
    (inertiaAnimRef s) (pinchStateRef s) (placeMode s) (manualTrains s) (draggingTrainId s)
    (animatedTrains s) (trainProgress s) (frameCallbacks s) (nextHandle s).
Definition set_inertiaAnimRef (h : option positive) (s : State) : State :=
  mkState (view s) (isDragging s) (dragStart s) (lastMoveRef s)
    (velocityRef s) h (pinchStateRef s) (placeMode s) (manualTrains s) (draggingTrainId s)
    (animatedTrains s) (trainProgress s) (frameCallbacks s) (nextHandle s).
Definition set_pinchStateRef (p : PinchState) (s : State) : State :=
  mkState (view s) (isDragging s) (dragStart s) (lastMoveRef s)
    (velocityRef s) (inertiaAnimRef s) p (placeMode s) (manualTrains s)
    (draggingTrainId s) (animatedTrains s) (trainProgress s) (frameCallbacks s) (nextHandle s).
Definition set_placeMode (b : bool) (s : State) : State :=
  mkState (view s) (isDragging s) (dragStart s) (lastMoveRef s)
    (velocityRef s) (inertiaAnimRef s) (pinchStateRef s) b (manualTrains s)
    (draggingTrainId s) (animatedTrains s) (trainProgress s) (frameCallbacks s) (nextHandle s).
Definition set_manualTrains (l : list Train.t) (s : State) : State :=
  mkState (view s) (isDragging s) (dragStart s) (lastMoveRef s)
    (velocityRef s) (inertiaAnimRef s) (pinchStateRef s) (placeMode s) l
    (draggingTrainId s) (animatedTrains s) (trainProgress s) (frameCallbacks s) (nextHandle s).
Definition set_draggingTrainId (d : option string) (s : State) : State :=
  mkState (view s) (isDragging s) (dragStart s) (lastMoveRef s)
    (velocityRef s) (inertiaAnimRef s) (pinchStateRef s) (placeMode s)
    (manualTrains s) d (animatedTrains s) (trainProgress s) (frameCallbacks s) (nextHandle s).
Definition set_animatedTrains (l : list Train.t) (s : State) : State :=
  mkState (view s) (isDragging s) (dragStart s) (lastMoveRef s)
    (velocityRef s) (inertiaAnimRef s) (pinchStateRef s) (placeMode s)
    (manualTrains s) (draggingTrainId s) l (trainProgress s) (frameCallbacks s)
    (nextHandle s).
Definition set_trainProgress (m : gmap string R) (s : State) : State :=
  mkState (view s) (isDragging s) (dragStart s) (lastMoveRef s)
    (velocityRef s) (inertiaAnimRef s) (pinchStateRef s) (placeMode s)
    (manualTrains s) (draggingTrainId s) (animatedTrains s) m (frameCallbacks s)
    (nextHandle s).
Definition set_frames (l : list (positive * Velocity)) (n : positive) (s : State) : State :=
  mkState (view s) (isDragging s) (dragStart s) (lastMoveRef s)
    (velocityRef s) (inertiaAnimRef s) (pinchStateRef s) (placeMode s)
    (manualTrains s) (draggingTrainId s) (animatedTrains s) (trainProgress s)
    l n.

Notation "s |> f" := (f s) (at level 45, left associativity, only parsing).

(** [if (v)] on a string that may be [null]. *)
Definition truthy (v : option string) : bool :=
  match v with
  | Some s => negb (bool_decide (s = ""%string))
  | None => false
  end.

Inductive Event : Type :=
| ZoomInClick
| ZoomOutClick
| ResetZoomClick
| PlaceModeClick
| MouseDown (e : MouseEvent)
| MarkerMouseDown (train : Train.t) (e : MouseEvent)
| MouseMove (e : MouseEvent)
| MouseUp
| MouseLeave
| Wheel (e : MouseEvent) (deltaY : R)
| DoubleClick (e : MouseEvent)
| TouchStart (touches : list Touch) (now : R)
| TouchMove (touches : list Touch) (now : R)
| TouchEnd
| AnimationFrame
| IntervalTick (rnd : nat → R * R).

Module Handlers.
Section handlers.
(** [mapContainerRef.current], the props and the state the effects set up once. *)
Context (mapContainerRef : option DOMRect.t).
Context (stations : list Station.t) (realLines : list RailwayLine.t).
Context (trainRoutes : gmap string (list string)) (isRunning : bool).

Definition getContainerPoint (clientX clientY : R) : Point :=
  match mapContainerRef with
  | None => mkPoint 0 0
  | Some rect => mkPoint (clientX - DOMRect.left rect) (clientY - DOMRect.top rect)
  end.

Definition getMapCoordinates (s : State) (clientX clientY : R) : Point :=
  match mapContainerRef with
  | None => mkPoint 0 0
  | Some rect =>
      let screenX := clientX - DOMRect.left rect in
      let screenY := clientY - DOMRect.top rect in
      Viewport.screenToWorld (view s) (mkPoint screenX screenY)
  end.

Definition zoomAt (pointInContainer : Point) (scaleFactor : R) (s : State) : State :=
  set_view (Viewport.zoomAt pointInContainer scaleFactor (view s)) s.

Definition handleZoomIn (s : State) : State :=
  match mapContainerRef with
  | None => set_zoom (Math_min (Viewport.zoom (view s) * 1.2) 3) s
  | Some rect => zoomAt (mkPoint (DOMRect.width rect / 2) (DOMRect.height rect / 2)) 1.2 s
  end.

Definition handleZoomOut (s : State) : State :=
  match mapContainerRef with
  | None => set_zoom (Math_max (Viewport.zoom (view s) / 1.2) 0.3) s
  | Some rect =>
      zoomAt (mkPoint (DOMRect.width rect / 2) (DOMRect.height rect / 2)) (1 / 1.2) s
  end.

Definition handleResetZoom (s : State) : State :=
  set_view (Viewport.reset (view s)) s.

(** The browser side of the animation frame callbacks. *)
Definition requestAnimationFrame (captured : Velocity) (s : State) : positive * State :=
  (nextHandle s,
   set_frames (frameCallbacks s ++ [(nextHandle s, captured)]) (Pos.succ (nextHandle s)) s).

Definition cancelAnimationFrame (handle : positive) (s : State) : State :=
  set_frames (filter (λ c, c.1 ≠ handle) (frameCallbacks s)) (nextHandle s) s.

(** [if (inertiaAnimRef.current) { cancelAnimationFrame(...); inertiaAnimRef.current = null }] *)
Definition cancelInertia (s : State) : State :=
  match inertiaAnimRef s with
  | Some handle => s |> cancelAnimationFrame handle |> set_inertiaAnimRef None
  | None => s
  end.

(** The start of a pan, shared by [handleMouseDown] and [handleTouchStart]. *)
Definition startPan (clientX clientY now : R) (s : State) : State :=
  s |> set_isDragging true
    |> set_dragStart (mkPoint (clientX - x (Viewport.pan (view s)))
                              (clientY - y (Viewport.pan (view s))))
    |> set_lastMoveRef (Some (mkSample clientX clientY now))
    |> set_velocityRef (mkVelocity 0 0)
    |> cancelInertia.

Definition handleMouseDown (e : MouseEvent) (s : State) : State :=
  if placeMode s && negb (overTrain e) then
    let coords := getMapCoordinates s (clientX e) (clientY e) in
    let newTrain :=
      Train.mk ("M" +:+ dateNow e) ("M" +:+ serial e) "Manual Train" Train.express 2
        Train.on_time (Some "ST001"%string) (Some "ST002"%string) 0 120 0 []
        "00:00" "00:00" coords in
    s |> set_manualTrains (manualTrains s ++ [newTrain])
      |> set_draggingTrainId (Some (Train.id newTrain))
  else startPan (clientX e) (clientY e) (now e) s.

(** [onMouseDown] of a train marker; unless it stops the propagation the
    event bubbles to the container. *)
Definition markerMouseDown (train : Train.t) (e : MouseEvent) (s : State) : State :=
  if placeMode s && Train.isManual (Train.id train)
  then set_draggingTrainId (Some (Train.id train)) s
  else handleMouseDown e s.

Definition moveTrain (trainId : string) (p : Point) (trains : list Train.t) : list Train.t :=
  map (λ t, if decide (Train.id t = trainId) then Train.with_position p t else t) trains.

(** Dragging the grabbed train to the cursor. *)
Definition dragTrain (trainId : string) (coords : Point) (s : State) : outcome State :=
  if Train.isManual trainId then
    Returns (set_manualTrains (moveTrain trainId coords (manualTrains s)) s)
  else
    match find (λ t, bool_decide (Train.id t = trainId)) (animatedTrains s) with
    | Some draggedTrain =>
        let free := set_animatedTrains (moveTrain trainId coords (animatedTrains s)) s in
        match Registry.getLinePointsBetweenStations realLines
                (Train.currentStation draggedTrain) (Train.nextStation draggedTrain) with
        | Some pathPoints =>
            if bool_decide (2 ≤ length pathPoints)%nat then
              projected ← Geometry.projectPointOntoPolyline coords pathPoints;
              Returns (set_animatedTrains (moveTrain trainId projected (animatedTrains s)) s)
            else Returns free
        | None => Returns free
        end
    | None => Returns s
    end.

(** The velocity estimate from the last two samples. *)
Definition trackVelocity (clientX clientY now : R) (s : State) : State :=
  (match lastMoveRef s with
   | Some last =>
       let dt := Math_max 16 (now - sampleT last) in
       set_velocityRef (mkVelocity ((clientX - sampleX last) / dt)
                                   ((clientY - sampleY last) / dt)) s
   | None => s
   end) |> set_lastMoveRef (Some (mkSample clientX clientY now)).

Definition panTo (clientX clientY : R) (s : State) : State :=
  set_pan (mkPoint (clientX - x (dragStart s)) (clientY - y (dragStart s))) s.

Definition handleMouseMove (e : MouseEvent) (s : State) : outcome State :=
  if truthy (draggingTrainId s) then
    dragTrain (default ""%string (draggingTrainId s))
      (getMapCoordinates s (clientX e) (clientY e)) s
  else if isDragging s then
    Returns (s |> panTo (clientX e) (clientY e)
               |> trackVelocity (clientX e) (clientY e) (now e))
  else Returns s.

(** The [step] closure of the inertia animation; [captured] is the
    [{ vx, vy }] destructured from [velocityRef.current] at release. *)
Definition step (captured : Velocity) (s : State) : State :=
  let decay := 0.95 in
  let s := s |> set_pan (mkPoint (x (Viewport.pan (view s)) + vx captured * 16)
                                 (y (Viewport.pan (view s)) + vy captured * 16))
             |> set_velocityRef (mkVelocity (vx captured * decay) (vy captured * decay)) in
  if decide (0.01 < Math_hypot (vx (velocityRef s)) (vy (velocityRef s))) then
    let '(handle, s) := requestAnimationFrame captured s in
    set_inertiaAnimRef (Some handle) s
  else set_inertiaAnimRef None s.

(** "start inertia if there is velocity", as both release handlers do. *)
Definition startInertia (s : State) : State :=
  let captured := velocityRef s in
  if decide (0.01 < Math_hypot (vx captured) (vy captured)) then
    let '(handle, s) := requestAnimationFrame captured s in
    set_inertiaAnimRef (Some handle) s
  else s.

Definition handleMouseUp (s : State) : State :=
  s |> set_isDragging false |> set_draggingTrainId None |> startInertia.

Definition handleWheel (e : MouseEvent) (deltaY : R) (s : State) : State :=
  let point := getContainerPoint (clientX e) (clientY e) in
  let delta := if decide (0 < deltaY) then 0.9 else 1.1 in
  zoomAt point delta s.

Definition handleDoubleClick (e : MouseEvent) (s : State) : State :=
  zoomAt (getContainerPoint (clientX e) (clientY e)) 1.25 s.

Definition handleTouchStart (touches : list Touch) (now : R) (s : State) : State :=
  match touches with
  | [t] => startPan (touchX t) (touchY t) now s
  | [a; b] =>
      let dx := touchX b - touchX a in
      let dy := touchY b - touchY a in
      let startDistance := Math_hypot dx dy in
      set_pinchStateRef
        (mkPinch true startDistance startDistance
           (Some (getContainerPoint ((touchX a + touchX b) / 2) ((touchY a + touchY b) / 2)))) s
  | _ => s
  end.

Definition handleTouchMove (touches : list Touch) (now : R) (s : State) : outcome State :=
  match touches with
  | [a; b] =>
      if isPinching (pinchStateRef s) then
        let dx := touchX b - touchX a in
        let dy := touchY b - touchY a in
        let dist := Math_hypot dx dy in
        let center :=
          getContainerPoint ((touchX a + touchX b) / 2) ((touchY a + touchY b) / 2) in
        let factor := dist / Math_max 1 (lastDistance (pinchStateRef s)) in
        Returns (s |> zoomAt center factor
                   |> set_pinchStateRef
                        (mkPinch true (startDistance (pinchStateRef s)) dist (Some center)))
      else Returns s
  | [t] =>
      if isDragging s then
        s ← (if truthy (draggingTrainId s)
             then dragTrain (default ""%string (draggingTrainId s))
                    (getMapCoordinates s (touchX t) (touchY t)) s
             else Returns (panTo (touchX t) (touchY t) s));
        Returns (trackVelocity (touchX t) (touchY t) now s)
      else Returns s
  | _ => Returns s
  end.

Definition handleTouchEnd (s : State) : State :=
  if isPinching (pinchStateRef s) then
    set_pinchStateRef
      (mkPinch false (startDistance (pinchStateRef s)) (lastDistance (pinchStateRef s))
         (lastCenter (pinchStateRef s))) s
  else if isDragging s then s |> set_isDragging false |> startInertia
  else s.

(** The browser runs the callbacks that were requested before the frame;
    what they request runs in the next one. *)
Definition animationFrame (s : State) : State :=
  fold_left (λ s c, step c.2 s) (frameCallbacks s) (set_frames [] (nextHandle s) s).

Definition intervalTick (rnd : nat → R * R) (s : State) : outcome State :=
  if isRunning then
    r ← Animator.tick stations realLines trainRoutes rnd (animatedTrains s, trainProgress s);
    Returns (s |> set_animatedTrains r.1 |> set_trainProgress r.2)
  else Returns s.

Definition handle (ev : Event) (s : State) : outcome State :=
  match ev with
  | ZoomInClick => Returns (handleZoomIn s)
  | ZoomOutClick => Returns (handleZoomOut s)
  | ResetZoomClick => Returns (handleResetZoom s)
  | PlaceModeClick => Returns (set_placeMode (negb (placeMode s)) s)
  | MouseDown e => Returns (handleMouseDown e s)
  | MarkerMouseDown train e => Returns (markerMouseDown train e s)
  | MouseMove e => handleMouseMove e s
  | MouseUp | MouseLeave => Returns (handleMouseUp s)
  | Wheel e deltaY => Returns (handleWheel e deltaY s)
  | DoubleClick e => Returns (handleDoubleClick e s)
  | TouchStart touches now => Returns (handleTouchStart touches now s)
  | TouchMove touches now => handleTouchMove touches now s
  | TouchEnd => Returns (handleTouchEnd s)
  | AnimationFrame => Returns (animationFrame s)
  | IntervalTick rnd => intervalTick rnd s
  end.

(** A handler that throws leaves the state as it was. *)
Definition after (ev : Event) (s : State) : State :=
  match handle ev s with
  | Returns s' => s'
  | Throws => s
  end.

Definition run (events : list Event) (s : State) : State :=
  fold_left (λ s ev, after ev s) events s.
End handlers.
End Handlers.

(** ** Notions and inputs the properties are stated with *)

(** What the progress updater a train queued, if any, makes of the train
    and of the stored progress of its id. *)
Definition settledTrain (u : option Animator.ProgressUpdater) (progress : gmap string R)
    (t : Train.t) : Train.t :=
  match u with
  | Some u =>
      if decide (1 <= default 0 (progress !! Animator.trainId u) + Animator.progressIncrement u)
      then Train.with_stations (Animator.nextStationId u) (Animator.followingStationId u) t
      else t
  | None => t
  end.

Definition settledProgress (u : option Animator.ProgressUpdater) (progress : gmap string R)
    (trainId : string) : option R :=
  match u with
  | Some u =>
      let newProgress :=
        default 0 (progress !! Animator.trainId u) + Animator.progressIncrement u in
      Some (if decide (1 <= newProgress) then 0 else newProgress)
  | None => progress !! trainId
  end.

(** An inertia animation is running on the closure that captured [v0]: its
    next [step] is the one pending callback, under the handle that
    [inertiaAnimRef] holds. *)
Definition coasting (v0 : Velocity) (s : State) : Prop :=
  ∃ handle, frameCallbacks s = [(handle, v0)] ∧ inertiaAnimRef s = Some handle.

(** A mouse event at a place and time, away from any train marker. *)
Definition mouseAt (clientX clientY now : R) : MouseEvent :=
  mkMouse clientX clientY false now "1700000000000" "100".

(** A drag of 16 pixels in 16 ms, released: a velocity of 1 pixel per ms. *)
Definition flick : list Event :=
  [MouseDown (mouseAt 0 0 0); MouseMove (mouseAt 16 0 16); MouseUp].

(** The same pan made with one finger. *)
Definition swipe : list Event :=
  [TouchStart [mkTouch 0 0] 0; TouchMove [mkTouch 16 0] 16; TouchEnd].

(** A map of 800 by 600 pixels at the origin of the page, with no train. *)
Definition emptyMap : State := initialState [] ∅.
Definition container : option DOMRect.t := Some (DOMRect.mk 0 0 800 600).

(** The empty map after a flick or a swipe, in place mode or not: panned by
    16 pixels, with the inertia animation requested under handle 1. *)
Definition coastingMap (placing : bool) : State :=
  mkState (Viewport.mk 1 (mkPoint 16 0)) false (mkPoint 0 0) (Some (mkSample 16 0 16))
    (mkVelocity 1 0) (Some 1%positive) (mkPinch false 0 0 None) placing [] None [] ∅
    [(1%positive, mkVelocity 1 0)] 2%positive.

(** Two trains and the stations of [data/mockData.ts]: the express from
    Ahmedabad to Vadodara, and the express of Mehsana, drawn a little off its
    station, on the circular route the component builds for it, whose next
    station, Vadodara, no line and no track segment connects to Mehsana. *)
Definition vadodaraFast : Train.t :=
  Train.mk "T002" "12902" "Ahmedabad-Vadodara Fast" Train.express 2 Train.on_time
    (Some "ST001"%string) (Some "ST003"%string) 110 130 0 ["ST001"; "ST003"]%string
    "08:30" "10:00" (mkPoint 400 300).


Definition mockStations : list Station.t :=
  [ Station.mk "ST001" "Ahmedabad Junction" "ADI" 8 (mkPoint 400 300) Station.junction true;
    Station.mk "ST002" "Mehsana" "MSH" 2 (mkPoint 350 250) Station.halt false;
    Station.mk "ST003" "Vadodara Junction" "BRC" 6 (mkPoint 450 350) Station.junction true ]%string.

(** The draws that make [getRandomSpeed] return its lowest value and the
    speed variation zero. *)
Definition steady : nat → R * R := λ _, (0, 0.5).

(** The manual train that a mouse down at (50,50) in place mode creates on
    the map at rest, and the map after that train was placed and the map was
    then swiped: the train is there and the inertia animation is requested. *)
Definition manualTrain : Train.t :=
  Train.mk "M1700000000000" "M100" "Manual Train" Train.express 2 Train.on_time
    (Some "ST001"%string) (Some "ST002"%string) 0 120 0 [] "00:00" "00:00" (mkPoint 50 50).

Definition placeTrain : list Event :=
  [PlaceModeClick; MouseDown (mouseAt 50 50 100); MouseUp].

Definition placedMap : State :=
  mkState (Viewport.mk 1 (mkPoint 16 0)) false (mkPoint 0 0) (Some (mkSample 16 0 16))
    (mkVelocity 1 0) (Some 1%positive) (mkPinch false 0 0 None) true [manualTrain] None [] ∅
    [(1%positive, mkVelocity 1 0)] 2%positive.

Definition runEmpty (events : list Event) (s : State) : State :=
  Handlers.run container [] [] ∅ false events s.

(** ** The other functions of the map and of the services it calls *)

Module RailwayMapService.
(** [services/railwayMapService.ts] *)
Record Bounds : Type := mkBounds { north : R; south : R; east : R; west : R }.
Record MapSize : Type := mkMapSize { width : R; height : R }.
Record LatLng : Type := mkLatLng { lat : R; lng : R }.

Definition convertLatLngToPixel (lat lng : R) (bounds : Bounds) (mapSize : MapSize) : Point :=
  let x := (lng - west bounds) / (east bounds - west bounds) * width mapSize in
  let y := (north bounds - lat) / (north bounds - south bounds) * height mapSize in
  mkPoint x y.

(** A line of the network data, its coordinates still latitudes and longitudes. *)
Record Line : Type := mkLine {
  id : string;
  name : string;
  type : TrackType;
  stations : list string;
  coordinates : list LatLng;
  electrified : bool
}.

(** [getLinesWithPixelCoordinates] on the lines of the network data. *)
Definition getLinesWithPixelCoordinates (lines : list Line) (bounds : Bounds)
    (mapSize : MapSize) : list RailwayLine.t :=
  map (λ line,
         RailwayLine.mk (id line) (name line) (type line) (stations line)
           (map (λ coord, convertLatLngToPixel (lat coord) (lng coord) bounds mapSize)
              (coordinates line))
           (electrified line)) lines.
End RailwayMapService.

(** [findTrackSegment]: the segment the marker of a train is offset from. *)
Definition findTrackSegment (realLines : list RailwayLine.t) (train : Train.t)
    (stations : list Station.t) : outcome (option TrackSegment.t) :=
  let currentStation :=
    find (λ s, bool_decide (Some (Station.id s) = Train.currentStation train)) stations in
  let nextStation :=
    find (λ s, bool_decide (Some (Station.id s) = Train.nextStation train)) stations in
  match currentStation, nextStation with
  | Some currentStation, Some nextStation =>
      let joins (l : list string) :=
        Registry.connects l (Some (Station.id currentStation)) (Some (Station.id nextStation)) in
      let fallback :=
        Returns (find (λ segment, joins (TrackSegment.stations segment)) trackSegments) in
      match find (λ line, joins (RailwayLine.stations line)) realLines with
      | Some realLine =>
          if bool_decide (2 ≤ length (RailwayLine.coordinates realLine))%nat then
            start ← item (RailwayLine.coordinates realLine) 0;
            end_ ← item (RailwayLine.coordinates realLine)
                     (length (RailwayLine.coordinates realLine) - 1);
            Returns (Some (TrackSegment.mk (RailwayLine.id realLine)
                             (mkPoint (x start) (y start)) (mkPoint (x end_) (y end_))
                             (RailwayLine.type realLine) (RailwayLine.stations realLine)
                             (RailwayLine.name realLine)))
          else fallback
      | None => fallback
      end
  | _, _ => Returns None
  end.


(** The trains that are drawn: [[...manualTrains, ...animatedTrains.filter(t => !t.id.startsWith('M'))]]. *)
Definition drawnTrains (s : State) : list Train.t :=
  manualTrains s ++ filter (λ t, Train.isManual (Train.id t) = false) (animatedTrains s).

(** The zoom level indicator: [Math.round(zoom * 100)]. *)
Definition zoomPercent (s : State) : R := Math_round (Viewport.zoom (view s) * 100).

(** The route the component builds for a train from the ids of the stations:
    [[...stationIds.slice(startIndex), ...stationIds.slice(0, startIndex), stationIds[startIndex]]],
    [startIndex] being [-1] when the current station of the train is not a
    station; an entry is [None] where the array holds [undefined]. *)
Definition initialRoute (stationIds : list string) (currentStation : option string)
    : list (option string) :=
  let startIndex := Animator.indexOf stationIds currentStation in
  if decide (startIndex < 0)%Z then
    (* slice(-1), slice(0, -1), stationIds[-1] *)
    (Some <$> drop (length stationIds - 1) stationIds)
    ++ (Some <$> take (length stationIds - 1) stationIds) ++ [None]
  else
    (Some <$> drop (Z.to_nat startIndex) stationIds)
    ++ (Some <$> take (Z.to_nat startIndex) stationIds)
    ++ [stationIds !! Z.to_nat startIndex].

(** The grabbed train, if any, is a manual one. *)
Definition grabsManual (s : State) : Prop :=
  ∀ trainId, draggingTrainId s = Some trainId → Train.isManual trainId = true.

(** ** The same functions in IEEE 754 double precision

    The functions of the map whose results depend on rounding, computed as a
    JavaScript engine computes them: on binary64 numbers, every operation
    rounded to nearest, with NaN, the infinities and the two zeros. The
    operations are in the order the source writes them. *)

Module Double.
Import PrimFloat.
#[local] Open Scope float_scope.
#[local] Set Warnings "-inexact-float".

(** [Math.max] and [Math.min]: NaN when an argument is NaN, and [+0] above [-0]. *)
Definition Math_max (a b : float) : float :=
  if is_nan a || is_nan b then nan
  else if a <? b then b
  else if b <? a then a
  else if get_sign a then b else a.

Definition Math_min (a b : float) : float :=
  if is_nan a || is_nan b then nan
  else if a <? b then a
  else if b <? a then b
  else if get_sign a then a else b.

(** The summation loop of [Math.hypot]: the squares of the values scaled by
    the largest, summed with a running compensation. *)
Fixpoint hypotSum (absValues : list float) (max sum compensation : float) : float :=
  match absValues with
  | [] => sum
  | absValue :: rest =>
      let n := absValue / max in
      let summand := n * n - compensation in
      let preliminary := sum + summand in
      hypotSum rest max preliminary (preliminary - sum - summand)
  end.

(** [Math.hypot] of two numbers. ECMAScript leaves its precision to the
    engine; this is the algorithm of V8, the engine of Chrome and Node. *)
Definition Math_hypot (a b : float) : float :=
  let max := if 0 <? abs a then abs a else 0 in
  let max := if max <? abs b then abs b else max in
  if max =? infinity then infinity
  else if is_nan a || is_nan b then nan
  else if max =? 0 then 0
  else sqrt (hypotSum [abs a; abs b] max 0 0) * max.

Record Point : Type := mkPoint { x : float; y : float }.
Record PathPoint : Type := mkPathPoint { position : Point; tangent : Point }.

Fixpoint measure (points : list Point) (i count : nat)
    (segmentLengths : list float) (total : float) : outcome (list float * float) :=
  match count with
  | O => Returns (segmentLengths, total)
  | S count' =>
      p1 ← item points (i + 1);
      p0 ← item points i;
      let dx := x p1 - x p0 in
      let dy := y p1 - y p0 in
      let len := Math_hypot dx dy in
      measure points (S i) count' (segmentLengths ++ [len]) (total + len)
  end.

Fixpoint scan (points : list Point) (target : float) (i : nat) (acc : float)
    (rest : list float) : outcome (option PathPoint) :=
  match rest with
  | [] => Returns None
  | len :: rest' =>
      let nextAcc := acc + len in
      if target <=? nextAcc then
        let localT := if len =? 0 then 0 else (target - acc) / len in
        p0 ← item points i;
        p1 ← item points (i + 1);
        let px := x p0 + (x p1 - x p0) * localT in
        let py := y p0 + (y p1 - y p0) * localT in
        let tx := x p1 - x p0 in
        let ty := y p1 - y p0 in
        Returns (Some (mkPathPoint (mkPoint px py) (mkPoint tx ty)))
      else scan points target (S i) nextAcc rest'
  end.

Definition getPointAlongPath (points : list Point) (progress : float) : outcome PathPoint :=
  match points with
  | [] => Returns (mkPathPoint (mkPoint 0 0) (mkPoint 1 0))
  | [p] => Returns (mkPathPoint p (mkPoint 1 0))
  | _ =>
      '(segmentLengths, total) ← measure points 0 (length points - 1) [] 0;
      if total =? 0 then
        p ← item points 0; Returns (mkPathPoint p (mkPoint 1 0))
      else
        let target := Math_max 0 (Math_min 1 progress) * total in
        found ← scan points target 0 0 segmentLengths;
        match found with
        | Some r => Returns r
        | None =>
            last ← item points (length points - 1);
            prev ← item points (length points - 2);
            Returns (mkPathPoint last (mkPoint (x last - x prev) (y last - y prev)))
        end
  end.

(** [proj] of one iteration of the loop of [projectPointOntoPolyline]. *)
Definition candidate (point p0 p1 : Point) : Point :=
  let vx := x p1 - x p0 in
  let vy := y p1 - y p0 in
  let wx := x point - x p0 in
  let wy := y point - y p0 in
  let c1 := vx * wx + vy * wy in
  let c2 := vx * vx + vy * vy in
  let t := if c2 =? 0 then 0 else Math_max 0 (Math_min 1 (c1 / c2)) in
  mkPoint (x p0 + t * vx) (y p0 + t * vy).

Fixpoint project (point : Point) (polyline : list Point) (i count : nat)
    (bestDist : float) (bestPoint : Point) : outcome Point :=
  match count with
  | O => Returns bestPoint
  | S count' =>
      p0 ← item polyline i;
      p1 ← item polyline (i + 1);
      let proj := candidate point p0 p1 in
      let d := Math_hypot (x point - x proj) (y point - y proj) in
      if d <? bestDist
      then project point polyline (S i) count' d proj
      else project point polyline (S i) count' bestDist bestPoint
  end.

Definition projectPointOntoPolyline (point : Point) (polyline : list Point) : outcome Point :=
  match polyline with
  | [] => Returns point
  | [p] => Returns p
  | p :: _ => project point polyline 0 (length polyline - 1) infinity p
  end.

Definition dist (p q : Point) : float := Math_hypot (x p - x q) (y p - y q).

(** The viewport. *)
Record Viewport : Type := mkViewport { zoom : float; pan : Point }.

Definition worldToScreen (v : Viewport) (p : Point) : Point :=
  mkPoint (x p * zoom v + x (pan v)) (y p * zoom v + y (pan v)).

Definition screenToWorld (v : Viewport) (s : Point) : Point :=
  mkPoint ((x s - x (pan v)) / zoom v) ((y s - y (pan v)) / zoom v).

Definition zoomAt (pointInContainer : Point) (scaleFactor : float) (v : Viewport) : Viewport :=
  let prevZoom := zoom v in
  let prevPan := pan v in
  let newZoom := Math_max 0.3 (Math_min 3 (prevZoom * scaleFactor)) in
  let worldX := (x pointInContainer - x prevPan) / prevZoom in
  let worldY := (y pointInContainer - y prevPan) / prevZoom in
  let newPanX := x pointInContainer - worldX * newZoom in
  let newPanY := y pointInContainer - worldY * newZoom in
  mkViewport newZoom (mkPoint newPanX newPanY).

(** The zoom buttons; [rect] is the width and the height of the container. *)
Definition handleZoomIn (rect : option (float * float)) (v : Viewport) : Viewport :=
  match rect with
  | None => mkViewport (Math_min (zoom v * 1.2) 3) (pan v)
  | Some (width, height) => zoomAt (mkPoint (width / 2) (height / 2)) 1.2 v
  end.

Definition handleZoomOut (rect : option (float * float)) (v : Viewport) : Viewport :=
  match rect with
  | None => mkViewport (Math_max (zoom v / 1.2) 0.3) (pan v)
  | Some (width, height) => zoomAt (mkPoint (width / 2) (height / 2)) (1 / 1.2) v
  end.

(** [Math.abs(a - b) <= tolerance] *)
Definition within (tolerance a b : float) : bool := abs (a - b) <=? tolerance.

End Double.


(** ** Rounded arithmetic

    [zoomAt], the two conversions and [getPointAlongPath] with every
    operation rounded by [fl], the function that takes a real number to the
    binary64 number nearest to it, and [Math.hypot] as a function [hypot]
    of its own; and the error bound of that rounding: the standard model
    of floating-point arithmetic, valid where no operation overflows. *)

Module Rounded.
Section rounded.
Context (fl : R → R).

Definition worldToScreen (v : Viewport.t) (p : Point) : Point :=
  mkPoint (fl (fl (x p * Viewport.zoom v) + x (Viewport.pan v)))
          (fl (fl (y p * Viewport.zoom v) + y (Viewport.pan v))).

Definition screenToWorld (v : Viewport.t) (s : Point) : Point :=
  mkPoint (fl (fl (x s - x (Viewport.pan v)) / Viewport.zoom v))
          (fl (fl (y s - y (Viewport.pan v)) / Viewport.zoom v)).

Definition zoomAt (pointInContainer : Point) (scaleFactor : R) (v : Viewport.t) : Viewport.t :=
  let prevZoom := Viewport.zoom v in
  let prevPan := Viewport.pan v in
  let newZoom := Math_max (fl 0.3) (Math_min 3 (fl (prevZoom * scaleFactor))) in
  let worldX := fl (fl (x pointInContainer - x prevPan) / prevZoom) in
  let worldY := fl (fl (y pointInContainer - y prevPan) / prevZoom) in
  let newPanX := fl (x pointInContainer - fl (worldX * newZoom)) in
  let newPanY := fl (y pointInContainer - fl (worldY * newZoom)) in
  Viewport.mk newZoom (mkPoint newPanX newPanY).
End rounded.

Section path.
Context (fl : R → R) (hypot : R → R → R).

Fixpoint measure (points : list Point) (i count : nat)
    (segmentLengths : list R) (total : R) : outcome (list R * R) :=
  match count with
  | O => Returns (segmentLengths, total)
  | S count' =>
      p1 ← item points (i + 1);
      p0 ← item points i;
      let dx := fl (x p1 - x p0) in
      let dy := fl (y p1 - y p0) in
      let len := hypot dx dy in
      measure points (S i) count' (segmentLengths ++ [len]) (fl (total + len))
  end.

Fixpoint scan (points : list Point) (target : R) (i : nat) (acc : R)
    (rest : list R) : outcome (option PathPoint) :=
  match rest with
  | [] => Returns None
  | len :: rest' =>
      let nextAcc := fl (acc + len) in
      if decide (target <= nextAcc) then
        let localT := if decide (len = 0) then 0 else fl (fl (target - acc) / len) in
        p0 ← item points i;
        p1 ← item points (i + 1);
        let px := fl (x p0 + fl (fl (x p1 - x p0) * localT)) in
        let py := fl (y p0 + fl (fl (y p1 - y p0) * localT)) in
        let tx := fl (x p1 - x p0) in
        let ty := fl (y p1 - y p0) in
        Returns (Some (mkPathPoint (mkPoint px py) (mkPoint tx ty)))
      else scan points target (S i) nextAcc rest'
  end.

Definition getPointAlongPath (points : list Point) (progress : R) : outcome PathPoint :=
  match points with
  | [] => Returns (mkPathPoint (mkPoint 0 0) (mkPoint 1 0))
  | [p] => Returns (mkPathPoint p (mkPoint 1 0))
  | _ =>
      '(segmentLengths, total) ← measure points 0 (length points - 1) [] 0;
      if decide (total = 0) then
        p ← item points 0; Returns (mkPathPoint p (mkPoint 1 0))
      else
        let target := fl (Math_max 0 (Math_min 1 progress) * total) in
        found ← scan points target 0 0 segmentLengths;
        match found with
        | Some r => Returns r
        | None =>
            last ← item points (length points - 1);
            prev ← item points (length points - 2);
            Returns (mkPathPoint last (mkPoint (fl (x last - x prev)) (fl (y last - y prev))))
        end
  end.

(** [t] and [proj] of one iteration of the loop of [projectPointOntoPolyline],
    and the distance [d] it compares. *)
Definition projectionParameter (point p0 p1 : Point) : R :=
  let vx := fl (x p1 - x p0) in
  let vy := fl (y p1 - y p0) in
  let wx := fl (x point - x p0) in
  let wy := fl (y point - y p0) in
  let c1 := fl (fl (vx * wx) + fl (vy * wy)) in
  let c2 := fl (fl (vx * vx) + fl (vy * vy)) in
  if decide (c2 = 0) then 0 else Math_max 0 (Math_min 1 (fl (c1 / c2))).

Definition candidate (point p0 p1 : Point) : Point :=
  let vx := fl (x p1 - x p0) in
  let vy := fl (y p1 - y p0) in
  let t := projectionParameter point p0 p1 in
  mkPoint (fl (x p0 + fl (t * vx))) (fl (y p0 + fl (t * vy))).

Definition distance (point proj : Point) : R :=
  hypot (fl (x point - x proj)) (fl (y point - y proj)).

Fixpoint project (point : Point) (polyline : list Point) (i count : nat)
    (bestDist : option R) (bestPoint : Point) : outcome Point :=
  match count with
  | O => Returns bestPoint
  | S count' =>
      p0 ← item polyline i;
      p1 ← item polyline (i + 1);
      let proj := candidate point p0 p1 in
      let d := distance point proj in
      if Geometry.closer d bestDist
      then project point polyline (S i) count' (Some d) proj
      else project point polyline (S i) count' bestDist bestPoint
  end.

Definition projectPointOntoPolyline (point : Point) (polyline : list Point) : outcome Point :=
  match polyline with
  | [] => Returns point
  | [p] => Returns p
  | p :: _ => project point polyline 0 (length polyline - 1) None p
  end.

(** The candidate of segment [j], and what it is for segment [k] to be the
    first of the [n] first segments whose candidate has the smallest
    distance, as computed, to [point]. *)
Definition candidateAt (point : Point) (polyline : list Point) (j : nat) : Point :=
  candidate point (polyline !!! j) (polyline !!! (j + 1)%nat).

Definition firstSmallest (point : Point) (polyline : list Point) (n k : nat) : Prop :=
  (k < n)%nat ∧
  (∀ j, (j < n)%nat →
     distance point (candidateAt point polyline k)
     <= distance point (candidateAt point polyline j)) ∧
  (∀ j, (j < k)%nat →
     distance point (candidateAt point polyline k)
     < distance point (candidateAt point polyline j)).

Definition scanned (point : Point) (polyline : list Point) (i : nat)
    (bestDist : option R) (bestPoint : Point) : Prop :=
  match bestDist with
  | None => i = 0%nat
  | Some d =>
      ∃ k, firstSmallest point polyline i k ∧ bestPoint = candidateAt point polyline k ∧
           d = distance point bestPoint
  end.
End path.

(** The unit roundoff of binary64, and a bound on what an underflow adds. *)
Definition u : R := / 2 ^ 53.
Definition eta : R := 1e-300.

Definition standardModel (fl : R → R) : Prop :=
  ∀ r, Rabs r <= 1e300 → Rabs (fl r - r) <= u * Rabs r + eta.

(** Rounding keeps 0 and the sign, and [Math.hypot] is not negative. *)
Definition keepsSign (fl : R → R) : Prop := fl 0 = 0 ∧ ∀ r, 0 <= r → 0 <= fl r.
Definition nonNegative (hypot : R → R → R) : Prop := ∀ a b, 0 <= hypot a b.

(** A point whose coordinates are binary64 numbers. *)
Definition representable (fl : R → R) (p : Point) : Prop := fl (x p) = x p ∧ fl (y p) = y p.
End Rounded.

(** * Properties *)

(** ** Arithmetic of [Math.hypot], [Math.max] and [Math.min] *)

Lemma hypot_nonneg (a b : R) : 0 <= Math_hypot a b.
Proof. apply sqrt_pos. Qed.

Lemma hypot_sqr (a b : R) : Math_hypot a b * Math_hypot a b = a * a + b * b.
Proof. apply sqrt_sqrt. nra. Qed.

Lemma hypot_zero (a b : R) : Math_hypot a b = 0 → a = 0 ∧ b = 0.
Proof.
  intros H. pose proof (hypot_sqr a b) as Hs. rewrite H in Hs.
  split; nra.
Qed.

Lemma hypot_axis (a : R) : 0 <= a → Math_hypot a 0 = a.
Proof.
  intros Ha. unfold Math_hypot.
  replace (a * a + 0 * 0) with (a * a) by lra. by apply sqrt_square.
Qed.

Lemma hypot_axis' (a : R) : 0 <= a → Math_hypot 0 a = a.
Proof.
  intros Ha. unfold Math_hypot.
  replace (0 * 0 + a * a) with (a * a) by lra. by apply sqrt_square.
Qed.

Lemma hypot_le (a b c d : R) :
  a * a + b * b <= c * c + d * d → Math_hypot a b <= Math_hypot c d.
Proof. intros H. by apply sqrt_le_1_alt. Qed.


Lemma max_min_bounds (lo hi v : R) :
  lo <= hi → lo <= Math_max lo (Math_min hi v) <= hi.
Proof.
  intros H. unfold Math_max, Math_min, Rmax, Rmin.
  repeat destruct (Rle_dec _ _); lra.
Qed.

Lemma max_min_inside (lo hi v : R) :
  lo <= v <= hi → Math_max lo (Math_min hi v) = v.
Proof.
  intros H. unfold Math_max, Math_min, Rmax, Rmin.
  repeat destruct (Rle_dec _ _); lra.
Qed.

(** ** [getPointAlongPath] *)

Section along_path.
Import Geometry.

Lemma item_lookup {A : Type} (arr : list A) (i : nat) (a : A) :
  arr !! i = Some a → item arr i = Returns a.
Proof. unfold item. by intros ->. Qed.

Lemma segLen_nonneg (p0 p1 : Point) : 0 <= segLen p0 p1.
Proof. apply hypot_nonneg. Qed.

Lemma sumR_app (l1 l2 : list R) : sumR (l1 ++ l2) = sumR l1 + sumR l2.
Proof. induction l1 as [|a l1 IH]; simpl; [lra | rewrite IH; lra]. Qed.

Lemma sumR_take_drop (n : nat) (l : list R) : sumR l = sumR (take n l) + sumR (drop n l).
Proof. rewrite <- sumR_app. by rewrite take_drop. Qed.

Lemma segment_lengths_nonneg (points : list Point) :
  Forall (λ len, 0 <= len) (segment_lengths points).
Proof.
  induction points as [|p0 [|p1 tl] IH]; simpl; try constructor.
  - apply segLen_nonneg.
  - exact IH.
Qed.

Lemma sumR_nonneg (l : list R) : Forall (λ len, 0 <= len) l → 0 <= sumR l.
Proof. induction 1; simpl; lra. Qed.

Lemma segment_lengths_length (points : list Point) :
  length (segment_lengths points) = (length points - 1)%nat.
Proof.
  induction points as [|p0 [|p1 tl] IH]; simpl in *; try done.
  rewrite IH. lia.
Qed.

Lemma segment_lengths_drop (i : nat) (points : list Point) :
  segment_lengths (drop i points) = drop i (segment_lengths points).
Proof.
  revert points. induction i as [|i IH]; intros points; [done|].
  destruct points as [|p0 [|p1 tl]]; simpl; rewrite ?drop_nil; done.
Qed.

Lemma segment_lengths_lookup (points : list Point) (i : nat) (p0 p1 : Point) :
  points !! i = Some p0 → points !! (i + 1)%nat = Some p1 →
  segment_lengths points !! i = Some (segLen p0 p1).
Proof.
  revert points. induction i as [|i IH]; intros [|q0 [|q1 tl]] H0 H1; simpl in *; try done.
  - by simplify_eq.
  - apply (IH (q1 :: tl)); done.
Qed.

Lemma cumulative_0 (points : list Point) : cumulative points 0 = 0.
Proof. done. Qed.

Lemma cumulative_S (points : list Point) (i : nat) (len : R) :
  segment_lengths points !! i = Some len →
  cumulative points (S i) = cumulative points i + len.
Proof.
  intros H. unfold cumulative. rewrite (take_S_r _ _ _ H), sumR_app. simpl. lra.
Qed.

Lemma cumulative_all (points : list Point) :
  cumulative points (length points - 1) = pathLength points.
Proof.
  unfold cumulative, pathLength. rewrite <- segment_lengths_length. by rewrite firstn_all.
Qed.

Lemma cumulative_le_total (points : list Point) (k : nat) :
  cumulative points k <= pathLength points.
Proof.
  unfold cumulative, pathLength. rewrite (sumR_take_drop k (segment_lengths points)).
  assert (0 <= sumR (drop k (segment_lengths points))); [|lra].
  apply sumR_nonneg, Forall_drop, segment_lengths_nonneg.
Qed.

(** The first loop computes the segment lengths and their sum and never
    reads out of range. *)
Lemma measure_spec (points : list Point) (count i : nat) (segs : list R) (total : R) :
  (i + count + 1 = length points)%nat →
  ∃ total', total' = total + sumR (segment_lengths (drop i points)) ∧
    measure points i count segs total
    = Returns (segs ++ segment_lengths (drop i points), total').
Proof.
  revert i segs total. induction count as [|count IH]; intros i segs total Hlen.
  - destruct (lookup_lt_is_Some_2 points i) as [p Hp]; [lia|].
    rewrite (drop_S _ _ _ Hp), drop_ge by lia. simpl.
    exists total. split; [lra|]. by rewrite app_nil_r.
  - destruct (lookup_lt_is_Some_2 points i) as [p0 Hp0]; [lia|].
    destruct (lookup_lt_is_Some_2 points (i + 1)) as [p1 Hp1]; [lia|].
    simpl. rewrite (item_lookup _ _ _ Hp1), (item_lookup _ _ _ Hp0). simpl.
    destruct (IH (S i) (segs ++ [Math_hypot (x p1 - x p0) (y p1 - y p0)])
                (total + Math_hypot (x p1 - x p0) (y p1 - y p0))) as (t' & Ht' & ->); [lia|].
    rewrite (drop_S _ _ _ Hp0).
    replace (S i) with (i + 1)%nat in * by lia.
    destruct (drop (i + 1) points) as [|q tl] eqn:Hd.
    { apply (f_equal length) in Hd. rewrite length_drop in Hd. simpl in Hd. lia. }
    assert (q = p1) as ->.
    { assert (drop (i + 1) points !! 0%nat = Some p1) as Hq.
      { rewrite lookup_drop. by rewrite Nat.add_0_r. }
      rewrite Hd in Hq. simpl in Hq. by simplify_eq. }
    exists t'. split.
    + rewrite Ht'. simpl. unfold segLen. lra.
    + simpl. by rewrite <- app_assoc.
Qed.

Lemma scan_found (points : list Point) (target : R) (rest : list R) (i : nat) (acc : R) :
  rest = drop i (segment_lengths points) → acc = cumulative points i → rest ≠ [] →
  target <= acc + sumR rest →
  ∃ k p0 p1, (i ≤ k)%nat ∧ points !! k = Some p0 ∧ points !! (k + 1)%nat = Some p1 ∧
    (∀ j, (i ≤ j < k)%nat → cumulative points (S j) < target) ∧
    target <= cumulative points (S k) ∧
    scan points target i acc rest
    = Returns (Some (mkPathPoint (lerp p0 p1 (localT points target k p0 p1))
                                 (mkPoint (x p1 - x p0) (y p1 - y p0)))).
Proof.
  revert i acc. induction rest as [|len rest IH]; intros i acc Hrest Hacc Hne Htarget; [done|].
  assert (segment_lengths points !! i = Some len) as Hlen.
  { rewrite <- (Nat.add_0_r i), <- lookup_drop, <- Hrest. done. }
  assert (rest = drop (S i) (segment_lengths points)) as Hrest'.
  { rewrite (drop_S _ _ _ Hlen) in Hrest. by simplify_eq. }
  pose proof (lookup_lt_Some _ _ _ Hlen) as Hi. rewrite segment_lengths_length in Hi.
  destruct (lookup_lt_is_Some_2 points i) as [p0 Hp0]; [lia|].
  destruct (lookup_lt_is_Some_2 points (i + 1)) as [p1 Hp1]; [lia|].
  pose proof (segment_lengths_lookup _ _ _ _ Hp0 Hp1) as Hseg.
  assert (len = segLen p0 p1) as -> by congruence.
  pose proof (cumulative_S _ _ _ Hlen) as Hcum.
  simpl. case_decide as Hle.
  - exists i, p0, p1. split_and!; try done.
    + intros j Hj. lia.
    + rewrite Hcum. lra.
    + rewrite (item_lookup _ _ _ Hp0), (item_lookup _ _ _ Hp1). simpl.
      unfold lerp, localT. rewrite Hacc. done.
  - simpl in Htarget.
    destruct (IH (S i) (acc + segLen p0 p1)) as (k & q0 & q1 & Hk & Hq0 & Hq1 & Hmin & Hhit & Hscan);
      try done.
    + rewrite Hcum. lra.
    + intros ->. simpl in Htarget. lra.
    + lra.
    + exists k, q0, q1. split_and!; try done; [lia|].
      intros j Hj. destruct (decide (j = i)) as [->|Hji].
      * rewrite Hcum. lra.
      * apply Hmin. lia.
Qed.

(** With two points or more the function is the second loop run on the
    segment lengths, guarded by the test of a zero total. *)
Lemma getPointAlongPath_unfold (a b : Point) (tl : list Point) (progress : R) :
  getPointAlongPath (a :: b :: tl) progress
  = if decide (pathLength (a :: b :: tl) = 0) then Returns (mkPathPoint a (mkPoint 1 0))
    else
      found ← scan (a :: b :: tl) (clamp01 progress * pathLength (a :: b :: tl)) 0 0
                (segment_lengths (a :: b :: tl));
      match found with
      | Some r => Returns r
      | None =>
          last ← item (a :: b :: tl) (length (a :: b :: tl) - 1);
          prev ← item (a :: b :: tl) (length (a :: b :: tl) - 2);
          Returns (mkPathPoint last (mkPoint (x last - x prev) (y last - y prev)))
      end.
Proof.
  destruct (measure_spec (a :: b :: tl) (length (a :: b :: tl) - 1) 0 [] 0)
    as (total & Htotal & Hmeasure); [simpl; lia|].
  rewrite drop_0, Rplus_0_l in Htotal. rewrite drop_0, app_nil_l in Hmeasure.
  unfold getPointAlongPath. rewrite Hmeasure, Htotal.
  unfold mbind, outcome_bind, pathLength, clamp01. cbv beta iota.
  case_decide; done.
Qed.

(** On a path of positive length the function returns the interpolated
    point of the first segment whose cumulative end reaches the target. *)
Lemma getPointAlongPath_positive (points : list Point) (progress : R) :
  0 < pathLength points →
  let target := clamp01 progress * pathLength points in
  ∃ k p0 p1, points !! k = Some p0 ∧ points !! (k + 1)%nat = Some p1 ∧
    (∀ j, (j < k)%nat → cumulative points (S j) < target) ∧
    target <= cumulative points (S k) ∧
    getPointAlongPath points progress
    = Returns (mkPathPoint (lerp p0 p1 (localT points target k p0 p1))
                           (mkPoint (x p1 - x p0) (y p1 - y p0))).
Proof.
  intros Hpos target.
  destruct points as [|a [|b tl]]; [unfold pathLength in Hpos; simpl in Hpos; lra..|].
  assert (0 <= clamp01 progress <= 1) as Hclamp by (apply max_min_bounds; lra).
  destruct (scan_found (a :: b :: tl) target (segment_lengths (a :: b :: tl)) 0 0)
    as (k & p0 & p1 & _ & Hp0 & Hp1 & Hmin & Hhit & Hscan); try done.
  { rewrite Rplus_0_l. fold (pathLength (a :: b :: tl)). unfold target. nra. }
  exists k, p0, p1. split_and!; try done.
  { intros j Hj. apply Hmin. lia. }
  rewrite getPointAlongPath_unfold. case_decide as Hz; [lra|].
  fold target. rewrite Hscan. done.
Qed.
End along_path.

Lemma point_eq (x1 y1 x2 y2 : R) : x1 = x2 → y1 = y2 → mkPoint x1 y1 = mkPoint x2 y2.
Proof. by intros -> ->. Qed.

Import Geometry.

Lemma localT_bounds (points : list Point) (target : R) (k : nat) (p0 p1 : Point) :
  points !! k = Some p0 → points !! (k + 1)%nat = Some p1 →
  cumulative points k <= target → target <= cumulative points (S k) →
  0 <= localT points target k p0 p1 <= 1.
Proof.
  intros Hp0 Hp1 Hlo Hhi.
  rewrite (cumulative_S _ _ _ (segment_lengths_lookup _ _ _ _ Hp0 Hp1)) in Hhi.
  unfold localT. case_decide as Hz; [lra|].
  pose proof (segLen_nonneg p0 p1) as Hn.
  assert (0 < segLen p0 p1) as Hlen by lra.
  split.
  - apply Rmult_le_pos; [lra|]. left. by apply Rinv_0_lt_compat.
  - apply (Rmult_le_reg_r (segLen p0 p1)); [done|].
    unfold Rdiv. rewrite Rmult_assoc, Rinv_l by done. lra.
Qed.

Lemma scenario_first_segment : segLen (mkPoint 0 0) (mkPoint 10 0) = 10.
Proof.
  unfold segLen. simpl. replace (10 - 0) with 10 by lra. replace (0 - 0) with 0 by lra.
  apply hypot_axis. lra.
Qed.

Lemma scenario_second_segment : segLen (mkPoint 10 0) (mkPoint 10 10) = 10.
Proof.
  unfold segLen. simpl. replace (10 - 10) with 0 by lra. replace (10 - 0) with 10 by lra.
  apply hypot_axis'. lra.
Qed.

Lemma scenario_length : pathLength scenarioPath = 20.
Proof.
  unfold pathLength, scenarioPath. simpl.
  rewrite scenario_first_segment, scenario_second_segment. lra.
Qed.



Lemma cumulative_nonneg (points : list Point) (k : nat) : 0 <= cumulative points k.
Proof. apply sumR_nonneg, Forall_take, segment_lengths_nonneg. Qed.

(** A run of segments of total length zero stays on its first point. *)
Lemma zero_length_last (l : list Point) (p : Point) :
  sumR (segment_lengths (p :: l)) = 0 → last (p :: l) = Some p.
Proof.
  revert p. induction l as [|q tl IH]; intros p Hsum; [done|].
  change (segLen p q + sumR (segment_lengths (q :: tl)) = 0) in Hsum.
  pose proof (segLen_nonneg p q) as Hpq.
  pose proof (sumR_nonneg _ (segment_lengths_nonneg (q :: tl))) as Hrest.
  assert (segLen p q = 0) as Hz by lra.
  apply hypot_zero in Hz as [Hx Hy].
  assert (q = p) as -> by (destruct p, q; simpl in *; apply point_eq; lra).
  rewrite last_cons_cons. apply IH. lra.
Qed.

Lemma lerp_0 (p0 p1 : Point) : lerp p0 p1 0 = p0.
Proof. destruct p0. unfold lerp. simpl. apply point_eq; lra. Qed.

Lemma lerp_1 (p0 p1 : Point) : lerp p0 p1 1 = p1.
Proof. destruct p1. unfold lerp. simpl. apply point_eq; lra. Qed.

(** *** The start of the path in rounded arithmetic *)

Lemma rounded_measure_returns (fl : R → R) (hypot : R → R → R) (points : list Point)
    (count i : nat) (segmentLengths : list R) (total : R) :
  Rounded.nonNegative hypot → (i + count < length points)%nat →
  ∃ lengths total',
    Rounded.measure fl hypot points i count segmentLengths total
    = Returns (segmentLengths ++ lengths, total') ∧
    length lengths = count ∧ Forall (λ len, 0 <= len) lengths.
Proof.
  intros Hhypot. revert i segmentLengths total.
  induction count as [|count IH]; intros i segmentLengths total Hlen.
  - exists [], total. by rewrite app_nil_r.
  - cbn [Rounded.measure]. unfold item.
    destruct (lookup_lt_is_Some_2 points (i + 1)) as [p1 ->]; [lia|].
    destruct (lookup_lt_is_Some_2 points i) as [p0 ->]; [lia|].
    cbn. destruct (IH (S i) (segmentLengths ++ [hypot (fl (x p1 - x p0)) (fl (y p1 - y p0))])
                     (fl (total + hypot (fl (x p1 - x p0)) (fl (y p1 - y p0)))))
      as (lengths & total' & -> & Hcount & Hnonneg); [lia|].
    eexists (_ :: lengths), total'. rewrite <- app_assoc. split_and!; [done|by cbn; f_equal|].
    by constructor.
Qed.

(** At progress 0 the first point is returned as it is, whatever the
    rounding of the operations. *)
Lemma rounded_start (fl : R → R) (hypot : R → R → R) (first : Point) (points : list Point) :
  Rounded.keepsSign fl → Rounded.nonNegative hypot → Rounded.representable fl first →
  ∃ r, Rounded.getPointAlongPath fl hypot (first :: points) 0 = Returns r ∧ position r = first.
Proof.
  intros [Hzero Hsign] Hhypot [Hx Hy].
  destruct points as [|second points]; [by eexists|].
  unfold Rounded.getPointAlongPath.
  destruct (rounded_measure_returns fl hypot (first :: second :: points)
              (length (first :: second :: points) - 1) 0 [] 0 Hhypot)
    as (lengths & total & -> & Hcount & Hnonneg); [cbn; lia|].
  cbn [app mbind outcome_bind]. unfold mbind, outcome_bind.
  destruct lengths as [|len lengths]; [done|].
  apply Forall_cons in Hnonneg as [Hlen _].
  case_decide; [by eexists|].
  assert (Math_max 0 (Math_min 1 0) = 0) as -> by (apply max_min_inside; lra).
  rewrite Rmult_0_l, Hzero. cbn [Rounded.scan].
  rewrite decide_True by (apply Hsign; lra).
  cbn [item lookup list_lookup]. unfold item. cbn.
  eexists. split; [reflexivity|]. cbn [position].
  assert ((if decide (len = 0) then 0 else fl (fl (0 - 0) / len)) = 0) as ->.
  { case_decide; [done|]. rewrite Rminus_diag, Hzero. unfold Rdiv. by rewrite Rmult_0_l. }
  rewrite !Rmult_0_r, Hzero, !Rplus_0_r, Hx, Hy. by destruct first.
Qed.

Section endpoints.
Import PrimFloat.
#[local] Set Warnings "-inexact-float".

(** C7, amended. At progress 0 [getPointAlongPath] returns exactly the
    first point of the path, whatever the rounding of the operations. At
    progress 1, on a path whose piecewise-linear length is strictly
    positive, it returns exactly the last point of the path in exact
    arithmetic. On the path of scenario B, (0,0), (10,0), (10,10), both
    ends are exact in doubles. *)
Theorem getPointAlongPath_endpoints :
  (∀ points : list Point,
     0 < pathLength points →
     (∃ r, getPointAlongPath points 0 = Returns r ∧ head points = Some (position r)) ∧
     (∃ r, getPointAlongPath points 1 = Returns r ∧ last points = Some (position r))) ∧
  (let path := [Double.mkPoint 0 0; Double.mkPoint 10 0; Double.mkPoint 10 10] in
   (∃ r, Double.getPointAlongPath path 0 = Returns r ∧ head path = Some (Double.position r)) ∧
   (∃ r, Double.getPointAlongPath path 1 = Returns r ∧ last path = Some (Double.position r))) ∧
  (∀ (fl : R → R) (hypot : R → R → R) (first : Point) (points : list Point),
     Rounded.keepsSign fl → Rounded.nonNegative hypot → Rounded.representable fl first →
     ∃ r, Rounded.getPointAlongPath fl hypot (first :: points) 0 = Returns r ∧
          position r = first).
Proof.
  split; [|split; [split; eexists; by vm_compute|exact rounded_start]].
  intros points Hpos. split.
  - destruct (getPointAlongPath_positive points 0 Hpos)
      as (k & p0 & p1 & Hp0 & Hp1 & Hmin & Hhit & ->).
    assert (clamp01 0 = 0) as Hc by (apply max_min_inside; lra).
    rewrite Hc in *.
    destruct k as [|k].
    + eexists. split; [done|]. simpl. rewrite head_lookup, Hp0. f_equal.
      unfold localT. rewrite cumulative_0.
      case_decide; [by rewrite lerp_0|].
      replace ((0 * pathLength points - 0) / segLen p0 p1) with 0
        by (unfold Rdiv; ring).
      by rewrite lerp_0.
    + specialize (Hmin 0%nat ltac:(lia)).
      pose proof (cumulative_nonneg points 1). lra.
  - destruct (getPointAlongPath_positive points 1 Hpos)
      as (k & p0 & p1 & Hp0 & Hp1 & Hmin & Hhit & ->).
    assert (clamp01 1 = 1) as Hc by (apply max_min_inside; lra).
    rewrite Hc, Rmult_1_l in *.
    pose proof (cumulative_le_total points (S k)) as Hle.
    pose proof (cumulative_S _ _ _ (segment_lengths_lookup _ _ _ _ Hp0 Hp1)) as Hcum.
    assert (cumulative points k < pathLength points) as Hbefore.
    { destruct k as [|k]; [by rewrite cumulative_0|]. apply Hmin. lia. }
    eexists. split; [done|]. simpl.
    assert (localT points (pathLength points) k p0 p1 = 1) as ->.
    { unfold localT. case_decide; [lra|]. apply Rdiv_diag_eq; [done|lra]. }
    rewrite lerp_1.
    replace (k + 1)%nat with (S k) in Hp1 by lia.
    rewrite <- (take_drop (S k) points), (drop_S _ _ _ Hp1), last_app_cons.
    apply zero_length_last. rewrite <- (drop_S _ _ _ Hp1), segment_lengths_drop.
    pose proof (sumR_take_drop (S k) (segment_lengths points)) as Hsplit.
    fold (pathLength points) (cumulative points (S k)) in Hsplit. lra.
Qed.

(** As the specification states it, the property fails in doubles. The path
    (3,1), (0,4), (3,3) has a positive length, and at progress 1 the
    position returned is (3.000000000000001, 3), not the last point (3,3):
    the parameter on the last segment is not 1. *)
Lemma getPointAlongPath_endpoints_counterexample :
  let path := [Double.mkPoint 3 1; Double.mkPoint 0 4; Double.mkPoint 3 3] in
  ∃ lengths total r,
    Double.measure path 0 2 [] 0 = Returns (lengths, total) ∧ (0 <? total)%float = true ∧
    Double.getPointAlongPath path 1 = Returns r ∧
    Double.position r = Double.mkPoint 3.000000000000001 3 ∧
    last path = Some (Double.mkPoint 3 3) ∧
    (Double.x (Double.position r) =? 3)%float = false.
Proof. eexists _, _, _. by vm_compute. Qed.
End endpoints.

(** A path of positive length: the one of scenario B, in exact arithmetic
    and in the rounded arithmetic that rounds nothing. *)
Lemma getPointAlongPath_endpoints_witness :
  0 < pathLength scenarioPath ∧
  ((∃ r, getPointAlongPath scenarioPath 0 = Returns r ∧ head scenarioPath = Some (position r)) ∧
   (∃ r, getPointAlongPath scenarioPath 1 = Returns r ∧ last scenarioPath = Some (position r))) ∧
  (∃ r, Rounded.getPointAlongPath (λ r, r) Math_hypot scenarioPath 0 = Returns r ∧
        position r = mkPoint 0 0).
Proof.
  assert (0 < pathLength scenarioPath) as H by (rewrite scenario_length; lra).
  split; [exact H|]. split; [exact (proj1 getPointAlongPath_endpoints scenarioPath H)|].
  refine (proj2 (proj2 getPointAlongPath_endpoints) (λ r, r) Math_hypot (mkPoint 0 0)
            [mkPoint 10 0; mkPoint 10 10] _ hypot_nonneg _).
  - split; [done|by intros].
  - by split.
Defined.

(** ** [projectPointOntoPolyline] *)

Lemma projectionParameter_bounds (point p0 p1 : Point) :
  0 <= projectionParameter point p0 p1 <= 1.
Proof.
  unfold projectionParameter. case_decide; [lra|]. apply max_min_bounds. lra.
Qed.

Lemma candidate_lerp (point p0 p1 : Point) :
  candidate point p0 p1 = lerp p0 p1 (projectionParameter point p0 p1).
Proof. unfold candidate, lerp. cbv zeta. apply point_eq; ring. Qed.

(** The clamped projection is the point of the segment nearest to [point]. *)
Lemma candidate_closest (point p0 p1 : Point) (t : R) :
  0 <= t <= 1 → dist point (candidate point p0 p1) <= dist point (lerp p0 p1 t).
Proof.
  intros Ht. unfold dist. apply hypot_le.
  unfold candidate, lerp, projectionParameter. simpl.
  destruct point as [qx qy], p0 as [ax ay], p1 as [bx By]. simpl.
  set (vx := bx - ax). set (vy := By - ay). set (wx := qx - ax). set (wy := qy - ay).
  set (c1 := vx * wx + vy * wy). set (c2 := vx * vx + vy * vy).
  assert (0 <= c2) as Hc2 by (unfold c2; nra).
  case_decide as Hz.
  - assert (vx = 0 ∧ vy = 0) as [Hvx Hvy] by (unfold c2 in Hz; split; nra).
    rewrite Hvx, Hvy. nra.
  - assert (0 < c2) as Hpos by lra.
    set (s := c1 / c2).
    assert (c1 = s * c2) as Hs by (unfold s; field; lra).
    assert (∀ u, (qx - (ax + u * vx)) * (qx - (ax + u * vx))
                 + (qy - (ay + u * vy)) * (qy - (ay + u * vy))
                 = wx * wx + wy * wy + c2 * (u * u - 2 * u * s)) as Hexp.
    { intros u. unfold wx, wy. fold c2.
      replace (c2 * (u * u - 2 * u * s)) with (u * u * c2 - 2 * u * (s * c2)) by ring.
      rewrite <- Hs. unfold c1, c2, wx, wy. ring. }
    replace (ax + vx * t) with (ax + t * vx) by ring.
    replace (ay + vy * t) with (ay + t * vy) by ring.
    rewrite !Hexp.
    assert (Math_max 0 (Math_min 1 s) * Math_max 0 (Math_min 1 s)
            - 2 * Math_max 0 (Math_min 1 s) * s <= t * t - 2 * t * s) as Hmin.
    { assert ((Math_max 0 (Math_min 1 s) = 0 ∧ s <= 0)
              ∨ (Math_max 0 (Math_min 1 s) = s ∧ 0 <= s <= 1)
              ∨ (Math_max 0 (Math_min 1 s) = 1 ∧ 1 <= s)) as [[-> ?]|[[-> ?]|[-> ?]]].
      { unfold Math_max, Math_min, Rmax, Rmin. repeat destruct (Rle_dec _ _); lra. }
      - assert (0 <= t * - s) by (apply Rmult_le_pos; lra). nra.
      - pose proof (Rle_0_sqr (t - s)) as Hsq. unfold Rsqr in Hsq. nra.
      - assert (0 <= (1 - t) * (2 * s - 1 - t)) by (apply Rmult_le_pos; lra). nra. }
    apply Rplus_le_compat_l, Rmult_le_compat_l; lra.
Qed.

Lemma dist_nonneg (p q : Point) : 0 <= dist p q.
Proof. apply hypot_nonneg. Qed.

Lemma scanned_step (point : Point) (polyline : list Point) (i : nat)
    (bestDist : option R) (bestPoint : Point) :
  let proj := candidateAt point polyline i in
  let d := dist point proj in
  scanned point polyline i bestDist bestPoint →
  if closer d bestDist
  then scanned point polyline (S i) (Some d) proj
  else scanned point polyline (S i) bestDist bestPoint.
Proof.
  intros proj d Hinv. destruct bestDist as [b|]; simpl.
  - destruct Hinv as (k & (Hk & Hle & Hlt) & -> & ->).
    fold (candidateAt point polyline k).
    case_bool_decide as Hcmp.
    + exists i. split; [|done]. split_and!; [lia| |].
      * intros j Hj. destruct (decide (j = i)) as [->|]; [lra|].
        specialize (Hle j ltac:(lia)). fold proj. fold d. lra.
      * intros j Hj. specialize (Hle j ltac:(lia)). fold proj. fold d. lra.
    + exists k. split; [|done]. split_and!; [lia| |done].
      intros j Hj. destruct (decide (j = i)) as [->|]; [fold proj; fold d; lra|].
      apply Hle. lia.
  - simpl in Hinv. subst i. exists 0%nat. split; [|done]. split_and!; [lia| |].
    + intros j Hj. replace j with 0%nat by lia. lra.
    + intros j Hj. lia.
Qed.

(** The loop reads only segments of the polyline and ends on the first
    nearest candidate of all the segments. *)
Lemma project_spec (point : Point) (polyline : list Point) (count i : nat)
    (bestDist : option R) (bestPoint : Point) :
  (i + count + 1 = length polyline)%nat → (0 < i + count)%nat →
  scanned point polyline i bestDist bestPoint →
  ∃ k, firstNearest point polyline (i + count) k ∧
       project point polyline i count bestDist bestPoint
       = Returns (candidateAt point polyline k).
Proof.
  revert i bestDist bestPoint.
  induction count as [|count IH]; intros i bestDist bestPoint Hlen Hpos Hinv.
  - destruct bestDist as [d|]; simpl in Hinv; [|lia].
    destruct Hinv as (k & Hk & -> & _). exists k. by rewrite Nat.add_0_r.
  - destruct (lookup_lt_is_Some_2 polyline i) as [p0 Hp0]; [lia|].
    destruct (lookup_lt_is_Some_2 polyline (i + 1)) as [p1 Hp1]; [lia|].
    pose proof (scanned_step point polyline i bestDist bestPoint Hinv) as Hstep.
    assert (candidateAt point polyline i = candidate point p0 p1) as Hcand.
    { unfold candidateAt.
      by rewrite (list_lookup_total_correct _ _ _ Hp0), (list_lookup_total_correct _ _ _ Hp1). }
    rewrite Hcand in Hstep.
    cbn [project]. rewrite (item_lookup _ _ _ Hp0), (item_lookup _ _ _ Hp1).
    unfold mbind, outcome_bind. cbv zeta in Hstep |- *.
    fold (dist point (candidate point p0 p1)).
    replace (i + S count)%nat with (S i + count)%nat by lia.
    revert Hstep. destruct (closer _ bestDist); intros Hstep; apply IH; try done; lia.
Qed.



(** The result is the first nearest candidate, and no point of the polyline
    is nearer. *)
Lemma projectPointOntoPolyline_spec (point : Point) (polyline : list Point) :
  (2 ≤ length polyline)%nat →
  ∃ k proj,
    projectPointOntoPolyline point polyline = Returns proj ∧
    nearestOnPolyline point polyline k proj.
Proof.
  intros Hlen.
  destruct (project_spec point polyline (length polyline - 1) 0 None
              (polyline !!! 0%nat)) as (k & (Hk & Hle & Hlt) & Hproject);
    [lia | lia | done |].
  assert (∀ j t, (j + 1 < length polyline)%nat → 0 <= t <= 1 →
            dist point (candidateAt point polyline k)
            <= dist point (lerp (polyline !!! j) (polyline !!! (j + 1)%nat) t)) as Hmin.
  { intros j t Hj Ht. etrans; [apply (Hle j); lia|]. by apply candidate_closest. }
  exists k, (candidateAt point polyline k). unfold nearestOnPolyline. split_and!; try done.
  - destruct polyline as [|a [|b tl]]; simpl in Hlen; try lia. exact Hproject.
  - simpl in Hk. lia.
  - eexists. split; [apply projectionParameter_bounds|]. apply candidate_lerp.
  - intros v [i Hi]%list_elem_of_lookup.
    pose proof (lookup_lt_Some _ _ _ Hi) as Hilen.
    destruct (decide (i + 1 < length polyline)%nat) as [Hnext|Hlast].
    + replace v with (lerp (polyline !!! i) (polyline !!! (i + 1)%nat) 0)
        by (rewrite lerp_0; by apply list_lookup_total_correct).
      apply Hmin; [done|lra].
    + destruct i as [|i]; [lia|].
      replace v with (lerp (polyline !!! i) (polyline !!! (i + 1)%nat) 1).
      { apply Hmin; [lia|lra]. }
      rewrite lerp_1. replace (i + 1)%nat with (S i) by lia.
      by apply list_lookup_total_correct.
Qed.

(** *** The loop of the projection in rounded arithmetic *)

Section rounded_projection.
Context (fl : R → R) (hypot : R → R → R).

Abbreviation rcandidateAt := (Rounded.candidateAt fl).
Abbreviation rdistance := (Rounded.distance fl hypot).
Abbreviation rscanned := (Rounded.scanned fl hypot).



End rounded_projection.

Section nearest_point.
Import PrimFloat.
#[local] Set Warnings "-inexact-float".


End nearest_point.


(** ** The viewport *)

Lemma zoomAt_zoom_bounds (a : Point) (f : R) (v : Viewport.t) :
  0.3 <= Viewport.zoom (Viewport.zoomAt a f v) <= 3.
Proof. simpl. apply max_min_bounds. lra. Qed.

(** *** The three arithmetics *)

(** The functions over the reals are the rounded ones with nothing
    rounded and the exact [Math.hypot]. *)
Lemma rounded_exact :
  Rounded.getPointAlongPath (λ r, r) Math_hypot = getPointAlongPath ∧
  Rounded.projectPointOntoPolyline (λ r, r) Math_hypot = projectPointOntoPolyline ∧
  Rounded.zoomAt (λ r, r) = Viewport.zoomAt ∧
  Rounded.worldToScreen (λ r, r) = Viewport.worldToScreen ∧
  Rounded.screenToWorld (λ r, r) = Viewport.screenToWorld.
Proof. by split_and!. Qed.

(** *** The anchor in rounded arithmetic *)

Lemma Rabs_bounds (a b : R) : Rabs a <= b → - b <= a <= b.
Proof. unfold Rabs. destruct (Rcase_abs a); lra. Qed.

Lemma fl_near (fl : R → R) (r bound : R) :
  Rounded.standardModel fl → Rabs r <= bound → bound <= 1e10 →
  Rabs (fl r - r) <= 1.2e-16 * bound + 1e-300 ∧ Rabs (fl r) <= bound + 1.
Proof.
  intros Hfl Hr Hbound.
  pose proof (Rabs_pos r) as Hpos.
  pose proof (Hfl r ltac:(lra)) as Herr. unfold Rounded.u, Rounded.eta in Herr.
  assert (/ 2 ^ 53 * Rabs r <= 1.2e-16 * bound) as Hu.
  { assert (/ 2 ^ 53 <= 1.2e-16) by lra. nra. }
  split; [lra|].
  replace (fl r) with (r + (fl r - r)) by ring.
  eapply Rle_trans; [apply Rabs_triang|]. lra.
Qed.

(** One coordinate: the anchor [a], the pan [p], the zoom [z] and the new
    zoom [z']. *)
Lemma anchor_coordinate (fl : R → R) (a p z z' : R) :
  Rounded.standardModel fl →
  0.3 <= z <= 3 → 0 <= z' <= 3.1 → Rabs a <= 1e8 → Rabs p <= 1e8 →
  let world := fl (fl (a - p) / z) in
  let newPan := fl (a - fl (world * z')) in
  Rabs (fl (fl (world * z') + newPan) - a) <= 0.000001.
Proof.
  intros Hfl Hz Hz' Ha Hp world newPan.
  apply Rabs_bounds in Ha, Hp.
  destruct (fl_near fl (a - p) 2e8 Hfl) as [_ Hd]; [apply Rabs_le; lra|lra|].
  apply Rabs_bounds in Hd.
  assert (Rabs (fl (a - p) / z) <= 7e8) as Hq.
  { apply Rabs_le.
    assert (fl (a - p) / z * z = fl (a - p)) as Hmul by (field; lra).
    split; nra. }
  destruct (fl_near fl _ 7e8 Hfl Hq) as [_ Hw]; [lra|]. fold world in Hw.
  apply Rabs_bounds in Hw.
  assert (Rabs (world * z') <= 2.2e9) as Hr3 by (apply Rabs_le; split; nra).
  destruct (fl_near fl _ 2.2e9 Hfl Hr3) as [_ Hm]; [lra|].
  set (m := fl (world * z')) in *. apply Rabs_bounds in Hm.
  destruct (fl_near fl (a - m) 2.4e9 Hfl) as [Hpan _]; [apply Rabs_le; lra|lra|].
  fold newPan in Hpan. apply Rabs_bounds in Hpan.
  destruct (fl_near fl (m + newPan) (1e8 + 1) Hfl) as [Hback _]; [apply Rabs_le; lra|lra|].
  apply Rabs_bounds in Hback.
  apply Rabs_le. lra.
Qed.

Lemma rounded_anchor (fl : R → R) (v : Viewport.t) (a : Point) (f : R) :
  Rounded.standardModel fl →
  0.3 <= Viewport.zoom v <= 3 →
  Rabs (x a) <= 1e8 → Rabs (y a) <= 1e8 →
  Rabs (x (Viewport.pan v)) <= 1e8 → Rabs (y (Viewport.pan v)) <= 1e8 →
  let back :=
    Rounded.worldToScreen fl (Rounded.zoomAt fl a f v) (Rounded.screenToWorld fl v a) in
  Rabs (x back - x a) <= 0.000001 ∧ Rabs (y back - y a) <= 0.000001.
Proof.
  intros Hfl Hz Hax Hay Hpx Hpy.
  destruct (fl_near fl 0.3 0.3 Hfl) as [Hlow _]; [apply Rabs_le; lra|lra|].
  apply Rabs_bounds in Hlow.
  set (newZoom := Math_max (fl 0.3) (Math_min 3 (fl (Viewport.zoom v * f)))).
  assert (0 <= newZoom <= 3.1) as Hnew.
  { unfold newZoom, Math_max, Math_min, Rmax, Rmin. repeat destruct (Rle_dec _ _); lra. }
  unfold Rounded.worldToScreen, Rounded.zoomAt, Rounded.screenToWorld.
  cbn [x y Viewport.zoom Viewport.pan]. fold newZoom.
  split; by apply anchor_coordinate.
Qed.

Section anchored_zoom.
Import PrimFloat.
#[local] Set Warnings "-inexact-float".

(** C1, amended. For a viewport whose zoom is within [0.3, 3], an anchor
    [a] and a factor [f] with [zoom * f] within [0.3, 3], [zoomAt a f] sets
    the pan so that the world point that was under [a] before the update is
    drawn at [a] again: exactly, and with the zoom set to [zoom * f], in
    exact arithmetic; within 1e-6 in rounded arithmetic when the
    coordinates of the anchor and of the pan are at most 1e8 in absolute
    value. Scenario A is exact in doubles: from zoom 1 and pan (0,0),
    zooming at (100,100) by 1.2 gives zoom 1.2 and maps the anchor back to
    (100,100). *)
Theorem zoomAt_preserves_anchor :
  (∀ (v : Viewport.t) (a : Point) (f : R),
     0.3 <= Viewport.zoom v <= 3 → 0.3 <= Viewport.zoom v * f <= 3 →
     let back :=
       Viewport.worldToScreen (Viewport.zoomAt a f v) (Viewport.screenToWorld v a) in
     Viewport.zoom (Viewport.zoomAt a f v) = Viewport.zoom v * f ∧
     back = a ∧
     Rabs (x back - x a) <= 0.000001 ∧ Rabs (y back - y a) <= 0.000001) ∧
  Viewport.zoom (Viewport.zoomAt (mkPoint 100 100) 1.2 Viewport.initial) = 1.2 ∧
  Viewport.worldToScreen (Viewport.zoomAt (mkPoint 100 100) 1.2 Viewport.initial)
    (Viewport.screenToWorld Viewport.initial (mkPoint 100 100)) = mkPoint 100 100 ∧
  (let v := Double.mkViewport 1 (Double.mkPoint 0 0) in
   let a := Double.mkPoint 100 100 in
   Double.zoom (Double.zoomAt a 1.2 v) = 1.2%float ∧
   Double.worldToScreen (Double.zoomAt a 1.2 v) (Double.screenToWorld v a) = a) ∧
  (∀ (fl : R → R) (v : Viewport.t) (a : Point) (f : R),
     Rounded.standardModel fl →
     0.3 <= Viewport.zoom v <= 3 → 0.3 <= Viewport.zoom v * f <= 3 →
     Rabs (x a) <= 1e8 → Rabs (y a) <= 1e8 →
     Rabs (x (Viewport.pan v)) <= 1e8 → Rabs (y (Viewport.pan v)) <= 1e8 →
     let back :=
       Rounded.worldToScreen fl (Rounded.zoomAt fl a f v) (Rounded.screenToWorld fl v a) in
     Rabs (x back - x a) <= 0.000001 ∧ Rabs (y back - y a) <= 0.000001).
Proof.
  assert (∀ (v : Viewport.t) (a : Point) (f : R),
     0.3 <= Viewport.zoom v <= 3 → 0.3 <= Viewport.zoom v * f <= 3 →
     Viewport.zoom (Viewport.zoomAt a f v) = Viewport.zoom v * f ∧
     Viewport.worldToScreen (Viewport.zoomAt a f v) (Viewport.screenToWorld v a) = a)
    as Hgeneral.
  { intros [z [px py]] [ax ay] f Hz Hzf.
    unfold Viewport.worldToScreen, Viewport.screenToWorld, Viewport.zoomAt. simpl in *.
    rewrite (max_min_inside 0.3 3 (z * f)) by lra.
    split; [done|]. apply point_eq; field; lra. }
  split_and!.
  - intros v a f Hz Hzf back.
    destruct (Hgeneral v a f Hz Hzf) as [Hzoom Hback]. fold back in Hback.
    split_and!; try done; rewrite Hback, Rminus_diag, Rabs_R0; lra.
  - destruct (Hgeneral Viewport.initial (mkPoint 100 100) 1.2) as [-> _]; simpl; lra.
  - apply Hgeneral; simpl; lra.
  - by vm_compute.
  - intros fl v a f Hfl Hz _. by apply rounded_anchor.
Qed.

(** As the specification states it, the property fails in doubles. At zoom 1
    and pan (1e11, 0), zooming at (100.1, 100.1) by 1.2 keeps the zoom and
    the product within the bounds, and the world point that was under the
    anchor is drawn at x = 100.10000610351562: 6.1e-6 away from the anchor,
    not within 1e-6. *)
Lemma zoomAt_preserves_anchor_counterexample :
  let v := Double.mkViewport 1 (Double.mkPoint 1e11 0) in
  let a := Double.mkPoint 100.1 100.1 in
  let back := Double.worldToScreen (Double.zoomAt a 1.2 v) (Double.screenToWorld v a) in
  (0.3 <=? Double.zoom v)%float = true ∧ (Double.zoom v <=? 3)%float = true ∧
  (0.3 <=? Double.zoom v * 1.2)%float = true ∧ (Double.zoom v * 1.2 <=? 3)%float = true ∧
  back = Double.mkPoint 100.10000610351562 100.1 ∧
  Double.within 1e-6 (Double.x back) (Double.x a) = false.
Proof. by vm_compute. Qed.
End anchored_zoom.

Lemma exact_standardModel : Rounded.standardModel (λ r, r).
Proof.
  intros r _. rewrite Rminus_diag, Rabs_R0. unfold Rounded.u, Rounded.eta.
  pose proof (Rabs_pos r). assert (0 < / 2 ^ 53) by lra. nra.
Qed.

(** Scenario A: zoom 1, pan (0,0), anchor (100,100), factor 1.2, in exact
    arithmetic and in the rounded arithmetic that rounds nothing. *)
Lemma zoomAt_preserves_anchor_witness :
  Viewport.worldToScreen (Viewport.zoomAt (mkPoint 100 100) 1.2 Viewport.initial)
    (Viewport.screenToWorld Viewport.initial (mkPoint 100 100)) = mkPoint 100 100 ∧
  Rabs (x (Rounded.worldToScreen (λ r, r)
             (Rounded.zoomAt (λ r, r) (mkPoint 100 100) 1.2 Viewport.initial)
             (Rounded.screenToWorld (λ r, r) Viewport.initial (mkPoint 100 100))) - 100)
  <= 0.000001.
Proof.
  split.
  - refine (proj1 (proj2 (proj1 zoomAt_preserves_anchor Viewport.initial (mkPoint 100 100) 1.2
                            _ _))); simpl; lra.
  - refine (proj1 (proj2 (proj2 (proj2 (proj2 zoomAt_preserves_anchor))) (λ r, r)
                     Viewport.initial (mkPoint 100 100) 1.2 exact_standardModel _ _ _ _ _ _));
      cbn [Viewport.zoom Viewport.pan Viewport.initial x y];
      try (rewrite Rabs_right by lra); lra.
Defined.

(** *** The zoom bound *)

Section zoom_bound.
Context (mapContainerRef : option DOMRect.t).
Context (stations : list Station.t) (realLines : list RailwayLine.t).
Context (trainRoutes : gmap string (list string)) (isRunning : bool).

Abbreviation zoomOf s := (Viewport.zoom (view s)).
Abbreviation handle := (Handlers.handle mapContainerRef stations realLines trainRoutes isRunning).
Abbreviation after := (Handlers.after mapContainerRef stations realLines trainRoutes isRunning).
Abbreviation run := (Handlers.run mapContainerRef stations realLines trainRoutes isRunning).

Lemma zoomOf_requestAnimationFrame (captured : Velocity) (s : State) :
  zoomOf (Handlers.requestAnimationFrame captured s).2 = zoomOf s.
Proof. done. Qed.

Lemma zoomOf_cancelInertia (s : State) : zoomOf (Handlers.cancelInertia s) = zoomOf s.
Proof. unfold Handlers.cancelInertia. by destruct (inertiaAnimRef s). Qed.

Lemma zoomOf_startPan (cx cy t : R) (s : State) : zoomOf (Handlers.startPan cx cy t s) = zoomOf s.
Proof. unfold Handlers.startPan. by rewrite zoomOf_cancelInertia. Qed.

Lemma zoomOf_startInertia (s : State) : zoomOf (Handlers.startInertia s) = zoomOf s.
Proof. unfold Handlers.startInertia. by case_decide. Qed.

Lemma zoomOf_step (captured : Velocity) (s : State) : zoomOf (Handlers.step captured s) = zoomOf s.
Proof. unfold Handlers.step. by case_decide. Qed.

Lemma zoomOf_frames (callbacks : list (positive * Velocity)) (s : State) :
  zoomOf (fold_left (λ s c, Handlers.step c.2 s) callbacks s) = zoomOf s.
Proof.
  revert s. induction callbacks as [|c callbacks IH]; intros s; [done|].
  simpl. by rewrite IH, zoomOf_step.
Qed.

Lemma zoomOf_dragTrain (trainId : string) (coords : Point) (s s' : State) :
  Handlers.dragTrain realLines trainId coords s = Returns s' → zoomOf s' = zoomOf s.
Proof.
  unfold Handlers.dragTrain. intros H.
  repeat case_match; simplify_eq; try done.
  destruct (Geometry.projectPointOntoPolyline _ _); simpl in H; by simplify_eq.
Qed.

Lemma zoomOf_trackVelocity (cx cy t : R) (s : State) :
  zoomOf (Handlers.trackVelocity cx cy t s) = zoomOf s.
Proof. unfold Handlers.trackVelocity. by destruct (lastMoveRef s). Qed.

Lemma zoomOf_zoomAt (p : Point) (f : R) (s : State) :
  0.3 <= zoomOf (Handlers.zoomAt p f s) <= 3.
Proof. apply zoomAt_zoom_bounds. Qed.

(** Every handler keeps the zoom within its bounds. *)
Lemma zoom_bound_after (ev : Event) (s : State) :
  0.3 <= zoomOf s <= 3 → 0.3 <= zoomOf (after ev s) <= 3.
Proof.
  intros Hs. unfold Handlers.after.
  destruct (handle ev s) as [s'|] eqn:Hev; [|done].
  destruct ev; simpl in Hev.
  - simplify_eq. unfold Handlers.handleZoomIn.
    destruct mapContainerRef; [apply zoomOf_zoomAt|]. simpl.
    unfold Math_min, Rmin. destruct (Rle_dec _ _); lra.
  - simplify_eq. unfold Handlers.handleZoomOut.
    destruct mapContainerRef; [apply zoomOf_zoomAt|]. simpl.
    unfold Math_max, Rmax. destruct (Rle_dec _ _); lra.
  - simplify_eq. simpl. lra.
  - by simplify_eq.
  - simplify_eq. unfold Handlers.handleMouseDown.
    case_match; [done|]. by rewrite zoomOf_startPan.
  - simplify_eq. unfold Handlers.markerMouseDown, Handlers.handleMouseDown.
    repeat case_match; try done; by rewrite zoomOf_startPan.
  - unfold Handlers.handleMouseMove in Hev. repeat case_match; simplify_eq; try done.
    + by rewrite (zoomOf_dragTrain _ _ _ _ Hev).
    + by rewrite zoomOf_trackVelocity.
  - simplify_eq. unfold Handlers.handleMouseUp. by rewrite zoomOf_startInertia.
  - simplify_eq. unfold Handlers.handleMouseUp. by rewrite zoomOf_startInertia.
  - simplify_eq. apply zoomOf_zoomAt.
  - simplify_eq. apply zoomOf_zoomAt.
  - simplify_eq. unfold Handlers.handleTouchStart.
    repeat case_match; try done. by rewrite zoomOf_startPan.
  - unfold Handlers.handleTouchMove in Hev. repeat case_match; simplify_eq; try done.
    + destruct (Handlers.dragTrain _ _ _ _) as [s1|] eqn:Hdrag; simpl in Hev; simplify_eq.
      by rewrite zoomOf_trackVelocity, (zoomOf_dragTrain _ _ _ _ Hdrag).
    + simpl in Hev. simplify_eq. by rewrite zoomOf_trackVelocity.
    + exact (zoomOf_zoomAt _ _ s).
  - simplify_eq. unfold Handlers.handleTouchEnd.
    repeat case_match; try done. by rewrite zoomOf_startInertia.
  - simplify_eq. unfold Handlers.animationFrame. by rewrite zoomOf_frames.
  - unfold Handlers.intervalTick in Hev. destruct isRunning; [|by simplify_eq].
    destruct (Animator.tick _ _ _ _ _); simpl in Hev; by simplify_eq.
Qed.

Lemma zoom_bound_run (events : list Event) (s : State) :
  0.3 <= zoomOf s <= 3 → 0.3 <= zoomOf (run events s) <= 3.
Proof.
  revert s. induction events as [|ev events IH]; intros s Hs; [done|].
  simpl. apply IH. by apply zoom_bound_after.
Qed.
End zoom_bound.

(** C3. From the initial state, whose zoom is 1, after every finite sequence
    of events (zoom buttons with or without a container, reset, wheel, double
    click, pinch, and every other handler, animation frame and interval tick)
    the zoom is within [0.3, 3]; so it is after every sequence of [zoomAt]
    calls. *)
Theorem zoom_stays_within_bounds :
  (∀ (mapContainerRef : option DOMRect.t) (stations : list Station.t)
     (realLines : list RailwayLine.t) (trainRoutes : gmap string (list string))
     (isRunning : bool) (trains : list Train.t) (progress : gmap string R)
     (events : list Event),
     let s := Handlers.run mapContainerRef stations realLines trainRoutes isRunning events
                (initialState trains progress) in
     0.3 <= Viewport.zoom (view s) <= 3) ∧
  (∀ (calls : list (Point * R)),
     let v := fold_left (λ v c, Viewport.zoomAt c.1 c.2 v) calls Viewport.initial in
     0.3 <= Viewport.zoom v <= 3).
Proof.
  split.
  - intros. apply zoom_bound_run. simpl. lra.
  - intros calls.
    assert (∀ v, 0.3 <= Viewport.zoom v <= 3 →
                 0.3 <= Viewport.zoom (fold_left (λ v c, Viewport.zoomAt c.1 c.2 v) calls v) <= 3)
      as H.
    { induction calls as [|c calls IH]; intros v Hv; [done|].
      simpl. apply IH, zoomAt_zoom_bounds. }
    apply H. simpl. lra.
Qed.

(** ** The inertia animation *)

(** Releasing with a velocity above the threshold starts the animation on a
    closure that captures that velocity. *)
Lemma startInertia_coasting (s : State) :
  frameCallbacks s = [] → 0.01 < Math_hypot (vx (velocityRef s)) (vy (velocityRef s)) →
  let s' := Handlers.startInertia s in
  coasting (velocityRef s) s' ∧ velocityRef s' = velocityRef s ∧ view s' = view s.
Proof.
  intros Hempty Hfast. unfold Handlers.startInertia. case_decide; [|done].
  split_and!; try done. exists (nextHandle s). simpl. by rewrite Hempty.
Qed.

(** One frame of a running animation whose captured velocity, once decayed,
    is still above the threshold: the pan moves by the captured velocity, the
    stored velocity is the captured one times 0.95, and the same closure is
    requested again. *)
Lemma animationFrame_coasting (v0 : Velocity) (s : State) :
  0.01 < Math_hypot (vx v0 * 0.95) (vy v0 * 0.95) → coasting v0 s →
  let s' := Handlers.animationFrame s in
  coasting v0 s' ∧
  velocityRef s' = mkVelocity (vx v0 * 0.95) (vy v0 * 0.95) ∧
  Viewport.pan (view s')
  = mkPoint (x (Viewport.pan (view s)) + vx v0 * 16) (y (Viewport.pan (view s)) + vy v0 * 16) ∧
  Viewport.zoom (view s') = Viewport.zoom (view s).
Proof.
  intros Hfast (handle & Hcallbacks & Href).
  unfold Handlers.animationFrame. rewrite Hcallbacks. simpl.
  unfold Handlers.step. simpl. case_decide; [|done].
  split_and!; try done. by exists (nextHandle s).
Qed.

(** So it runs for ever, with the stored velocity stuck at 0.95 times the
    captured one and the pan moving by the same amount on every frame. *)
Lemma animationFrames_coasting (v0 : Velocity) (n : nat) (s : State) :
  0.01 < Math_hypot (vx v0 * 0.95) (vy v0 * 0.95) → coasting v0 s →
  let s' := Nat.iter (S n) Handlers.animationFrame s in
  coasting v0 s' ∧
  velocityRef s' = mkVelocity (vx v0 * 0.95) (vy v0 * 0.95) ∧
  x (Viewport.pan (view s')) = x (Viewport.pan (view s)) + INR (S n) * (vx v0 * 16) ∧
  y (Viewport.pan (view s')) = y (Viewport.pan (view s)) + INR (S n) * (vy v0 * 16).
Proof.
  intros Hfast Hcoasting. induction n as [|n IH].
  - destruct (animationFrame_coasting v0 s Hfast Hcoasting) as (H1 & H2 & H3 & _).
    simpl. rewrite H3. simpl. split_and!; try done; lra.
  - cbv zeta in IH. set (sn := Nat.iter (S n) Handlers.animationFrame s) in *.
    destruct IH as (H1 & H2 & H3 & H4).
    destruct (animationFrame_coasting v0 sn Hfast H1) as (G1 & G2 & G3 & _).
    change (Nat.iter (S (S n)) Handlers.animationFrame s)
      with (Handlers.animationFrame sn).
    cbv zeta. rewrite G3. cbn [x y]. rewrite H3, H4.
    split_and!; try done; rewrite (S_INR (S n)); lra.
Qed.

(** *** The traces of the inertia properties, evaluated *)

Ltac eval_state :=
  cbv -[Rplus Rminus Rmult Rdiv Rinv Ropp IZR Z.pow_pos Rle Rlt Math_max Math_min Math_hypot
        Rle_dec Rlt_dec Req_dec_T].

Lemma max_16_16 : Math_max 16 (16 - 0) = 16.
Proof. unfold Math_max, Rmax. destruct (Rle_dec _ _); lra. Qed.

Ltac flick_numbers :=
  rewrite ?max_16_16;
  replace ((16 - 0) / 16) with 1 by lra;
  replace ((0 - 0) / 16) with 0 by lra;
  replace (16 - (0 - 0)) with 16 by lra;
  replace (0 - (0 - 0)) with 0 by lra;
  replace (0 - 0) with 0 by lra;
  rewrite ?(hypot_axis 1) by lra.

Lemma flick_state : runEmpty flick emptyMap = coastingMap false.
Proof.
  eval_state. flick_numbers. destruct (Rlt_dec _ _); [done|lra].
Qed.

(** Scenario D of the specification: a pinch from a distance of 100 to a
    distance of 150 at zoom 1 sets the zoom to 1.5. *)
Lemma pinch_scenario :
  Viewport.zoom
    (view (runEmpty [TouchStart [mkTouch 0 0; mkTouch 100 0] 0;
                     TouchMove [mkTouch 0 0; mkTouch 150 0] 16] emptyMap)) = 1.5.
Proof.
  eval_state.
  replace (100 - 0) with 100 by lra. replace (150 - 0) with 150 by lra.
  replace (0 - 0) with 0 by lra. rewrite !hypot_axis by lra.
  unfold Math_max, Math_min, Rmax, Rmin. repeat destruct (Rle_dec _ _); lra.
Qed.

Lemma swipe_state : runEmpty (PlaceModeClick :: swipe) emptyMap = coastingMap true.
Proof.
  eval_state. flick_numbers. destruct (Rlt_dec _ _); [done|lra].
Qed.

Lemma runEmpty_app (events events' : list Event) (s : State) :
  runEmpty (events ++ events') s = runEmpty events' (runEmpty events s).
Proof. unfold runEmpty, Handlers.run. by rewrite fold_left_app. Qed.

Lemma runEmpty_frames (n : nat) (s : State) :
  runEmpty (replicate n AnimationFrame) s = Nat.iter n Handlers.animationFrame s.
Proof.
  revert s. induction n as [|n IH]; intros s; [done|].
  change (runEmpty (replicate (S n) AnimationFrame) s)
    with (runEmpty (replicate n AnimationFrame) (Handlers.animationFrame s)).
  rewrite IH. symmetry. apply Nat.iter_succ_r.
Qed.

Lemma coastingMap_coasting (placing : bool) : coasting (mkVelocity 1 0) (coastingMap placing).
Proof. by exists 1%positive. Qed.

Lemma flick_stays_fast : 0.01 < Math_hypot (vx (mkVelocity 1 0) * 0.95) (vy (mkVelocity 1 0) * 0.95).
Proof.
  cbn [vx vy]. replace (0 * 0.95) with 0 by lra. rewrite hypot_axis by lra. lra.
Qed.

(** C4, on the code. After a drag of 16 pixels in 16 ms is released, every
    animation frame leaves the stored velocity at 0.95 times the release
    velocity, whatever the number of frames, requests the next frame, and
    moves the pan by the full 16 pixels: the stored velocity after two frames
    is not the release velocity times 0.95 squared, and the animation does
    not stop. *)
Theorem inertia_velocity_does_not_decay :
  (∀ n : nat,
     let s := runEmpty (flick ++ replicate (S n) AnimationFrame) emptyMap in
     velocityRef s = mkVelocity 0.95 0 ∧
     coasting (mkVelocity 1 0) s ∧
     Viewport.pan (view s) = mkPoint (16 + INR (S n) * 16) 0) ∧
  vx (velocityRef (runEmpty (flick ++ [AnimationFrame; AnimationFrame]) emptyMap))
  ≠ 1 * 0.95 ^ 2.
Proof.
  assert (∀ n : nat,
     let s := runEmpty (flick ++ replicate (S n) AnimationFrame) emptyMap in
     velocityRef s = mkVelocity 0.95 0 ∧
     coasting (mkVelocity 1 0) s ∧
     Viewport.pan (view s) = mkPoint (16 + INR (S n) * 16) 0) as Hframes.
  { intros n s. unfold s. rewrite runEmpty_app, flick_state, runEmpty_frames.
    destruct (animationFrames_coasting (mkVelocity 1 0) n (coastingMap false)
                flick_stays_fast (coastingMap_coasting false)) as (H1 & H2 & H3 & H4).
    split_and!; [|done|].
    - rewrite H2. cbn [vx vy]. f_equal; lra.
    - cbn [coastingMap view Viewport.pan x y vx vy] in H3, H4.
      destruct (Viewport.pan _) as [px py]. cbn [x y] in H3, H4. apply point_eq; lra. }
  split; [exact Hframes|].
  destruct (Hframes 1%nat) as [H _].
  change (replicate 2 AnimationFrame) with [AnimationFrame; AnimationFrame] in H.
  rewrite H. cbn [vx]. lra.
Qed.

Lemma coasting_next_frame (s : State) :
  coasting (mkVelocity 1 0) s →
  Viewport.pan (view (runEmpty [AnimationFrame] s))
  = mkPoint (x (Viewport.pan (view s)) + 16) (y (Viewport.pan (view s))).
Proof.
  intros Hs.
  destruct (animationFrame_coasting _ s flick_stays_fast Hs) as (_ & _ & Hpan & _).
  change (runEmpty [AnimationFrame] s) with (Handlers.animationFrame s).
  rewrite Hpan. cbn [vx vy]. apply point_eq; lra.
Qed.

Lemma placeTrain_state :
  runEmpty placeTrain emptyMap
  = mkState Viewport.initial false (mkPoint 0 0) None (mkVelocity 0 0) None
      (mkPinch false 0 0 None) true [manualTrain] None [] ∅ [] 1%positive.
Proof.
  eval_state. replace ((50 - 0 - 0) / 1) with 50 by lra.
  rewrite (hypot_axis 0) by lra. destruct (Rlt_dec _ _); [lra|done].
Qed.

Lemma placed_state : runEmpty (placeTrain ++ swipe) emptyMap = placedMap.
Proof.
  rewrite runEmpty_app, placeTrain_state.
  eval_state. flick_numbers. destruct (Rlt_dec _ _); [done|lra].
Qed.

(** C8, on the code. With an inertia animation running (after a swipe in
    place mode, or after a flick), a mouse down in place mode creates and
    grabs a train, a mouse down on the marker of a manual train in place
    mode grabs it, and a touch start with two fingers starts a pinch, and
    none of them cancels the animation: the next frame still moves the pan
    by 16 pixels. A mouse down that starts a pan does cancel it. *)
Theorem gesture_start_can_leave_inertia_running :
  runEmpty (PlaceModeClick :: swipe) emptyMap = coastingMap true ∧
  runEmpty (placeTrain ++ swipe) emptyMap = placedMap ∧
  runEmpty flick emptyMap = coastingMap false ∧
  (let s := runEmpty [MouseDown (mouseAt 50 50 100)] (coastingMap true) in
   draggingTrainId s = Some "M1700000000000"%string ∧
   inertiaAnimRef s = Some 1%positive ∧
   Viewport.pan (view s) = mkPoint 16 0 ∧
   Viewport.pan (view (runEmpty [AnimationFrame] s)) = mkPoint 32 0) ∧
  (let s := runEmpty [MarkerMouseDown manualTrain (mouseAt 66 50 100)] placedMap in
   draggingTrainId s = Some "M1700000000000"%string ∧
   inertiaAnimRef s = Some 1%positive ∧
   Viewport.pan (view s) = mkPoint 16 0 ∧
   Viewport.pan (view (runEmpty [AnimationFrame] s)) = mkPoint 32 0) ∧
  (let s := runEmpty [TouchStart [mkTouch 0 0; mkTouch 100 0] 100] (coastingMap false) in
   isPinching (pinchStateRef s) = true ∧
   inertiaAnimRef s = Some 1%positive ∧
   Viewport.pan (view s) = mkPoint 16 0 ∧
   Viewport.pan (view (runEmpty [AnimationFrame] s)) = mkPoint 32 0) ∧
  (let s := runEmpty [MouseDown (mouseAt 50 50 100)] (coastingMap false) in
   isDragging s = true ∧
   inertiaAnimRef s = None ∧
   frameCallbacks s = [] ∧
   Viewport.pan (view (runEmpty [AnimationFrame] s)) = Viewport.pan (view s)).
Proof.
  split_and!; try apply swipe_state; try apply placed_state; try apply flick_state; try done.
  all: intros s; split_and!; try done.
  all: rewrite coasting_next_frame by (by exists 1%positive).
  all: unfold s; eval_state; apply point_eq; lra.
Qed.

(** A second release handler (the mouse leaving the map after the button
    was released) starts a second animation on the velocity that is still
    stored; a later mouse down cancels only the one [inertiaAnimRef] holds. *)
Lemma second_release_leaks_an_animation :
  let left := runEmpty [MouseLeave] (coastingMap false) in
  let s := runEmpty [MouseDown (mouseAt 50 50 100)] left in
  frameCallbacks left = [(1%positive, mkVelocity 1 0); (2%positive, mkVelocity 1 0)] ∧
  inertiaAnimRef left = Some 2%positive ∧
  isDragging s = true ∧ inertiaAnimRef s = None ∧
  frameCallbacks s = [(1%positive, mkVelocity 1 0)].
Proof.
  assert (runEmpty [MouseLeave] (coastingMap false)
          = mkState (Viewport.mk 1 (mkPoint 16 0)) false (mkPoint 0 0)
              (Some (mkSample 16 0 16)) (mkVelocity 1 0) (Some 2%positive)
              (mkPinch false 0 0 None) false [] None [] ∅
              [(1%positive, mkVelocity 1 0); (2%positive, mkVelocity 1 0)] 3%positive) as ->.
  { eval_state. rewrite (hypot_axis 1) by lra. destruct (Rlt_dec _ _); [done|lra]. }
  done.
Qed.

(** ** Nothing throws *)

Lemma getPointAlongPath_returns (points : list Point) (progress : R) :
  ∃ r, getPointAlongPath points progress = Returns r.
Proof.
  destruct points as [|a [|b tl]]; [by eexists..|].
  destruct (decide (pathLength (a :: b :: tl) = 0)) as [Hz|Hz].
  - rewrite getPointAlongPath_unfold. rewrite decide_True by done. by eexists.
  - pose proof (sumR_nonneg _ (segment_lengths_nonneg (a :: b :: tl))) as Hn.
    fold (pathLength (a :: b :: tl)) in Hn.
    destruct (getPointAlongPath_positive (a :: b :: tl) progress) as (k & p0 & p1 & H);
      [lra|].
    destruct H as (_ & _ & _ & _ & ->). by eexists.
Qed.

Lemma projectPointOntoPolyline_returns (point : Point) (polyline : list Point) :
  ∃ p, projectPointOntoPolyline point polyline = Returns p.
Proof.
  destruct polyline as [|a [|b tl]]; [by eexists..|].
  destruct (projectPointOntoPolyline_spec point (a :: b :: tl))
    as (k & proj & -> & _); [simpl; lia|]. by eexists.
Qed.

Lemma getLinePoints_length (realLines : list RailwayLine.t) (a b : option string)
    (points : list Point) :
  Registry.getLinePointsBetweenStations realLines a b = Some points → (2 ≤ length points)%nat.
Proof.
  unfold Registry.getLinePointsBetweenStations, Registry.fallbackPath.
  intros H. repeat case_match; simplify_eq; simpl; try lia.
  rewrite length_map. by eapply bool_decide_eq_true_1.
Qed.

Section animator.
Context (stations : list Station.t) (realLines : list RailwayLine.t).
Context (trainRoutes : gmap string (list string)) (rnd : nat → R * R).

Abbreviation animateTrain := (Animator.animateTrain stations realLines trainRoutes rnd).
Abbreviation animateAll := (Animator.animateAll stations realLines trainRoutes rnd).
Abbreviation tick := (Animator.tick stations realLines trainRoutes rnd).
Abbreviation pathPointsOf := (Animator.pathPointsOf realLines trainRoutes).

Lemma animateTrain_manual (progress : gmap string R) (index : nat) (train : Train.t) :
  Train.isManual (Train.id train) = true →
  animateTrain progress index train = Returns (train, None).
Proof. unfold Animator.animateTrain. by intros ->. Qed.

Lemma animateTrain_held (progress : gmap string R) (index : nat) (train : Train.t) :
  Train.isManual (Train.id train) = false → pathPointsOf train = None →
  animateTrain progress index train
  = Returns (Animator.holdPosition stations (Animator.newSpeedOf rnd index train) train, None).
Proof. unfold Animator.animateTrain. by intros -> ->. Qed.

Lemma animateTrain_moved (progress : gmap string R) (index : nat) (train : Train.t)
    (pathPoints : list Point) :
  Train.isManual (Train.id train) = false → pathPointsOf train = Some pathPoints →
  ∃ r,
    Geometry.getPointAlongPath pathPoints
      (Math_min 0.95 (default 0 (progress !! Train.id train) + INR (index mod 3) * 0.1))
    = Returns r ∧
    animateTrain progress index train
    = Returns
        (Train.with_speed_position (Math_round (Animator.newSpeedOf rnd index train))
           (position r) train,
         Some (Animator.mkUpdater (Train.id train)
                 (Animator.progressIncrementOf rnd index train)
                 (Animator.at_ (Animator.trainRouteOf trainRoutes train)
                    (Animator.nextStationIndexOf trainRoutes train))
                 (Animator.at_ (Animator.trainRouteOf trainRoutes train)
                    (match Animator.nextStationIndexOf trainRoutes train with
                     | Some n =>
                         Animator.modLength (Z.of_nat n + 1)
                           (Animator.trainRouteOf trainRoutes train)
                     | None => None
                     end)))).
Proof.
  intros Hmanual Hpath. unfold Animator.animateTrain. rewrite Hmanual, Hpath.
  rewrite bool_decide_eq_true_2 by (by eapply getLinePoints_length).
  destruct (getPointAlongPath_returns pathPoints
              (Math_min 0.95 (default 0 (progress !! Train.id train) + INR (index mod 3) * 0.1)))
    as [r Hr].
  exists r. split; [done|]. by rewrite Hr.
Qed.

(** A train keeps its id, and an updater carries the id of the train that
    queued it, which is not a manual one. *)
Lemma animateTrain_returns (progress : gmap string R) (index : nat) (train : Train.t) :
  ∃ train' u,
    animateTrain progress index train = Returns (train', u) ∧
    Train.id train' = Train.id train ∧
    (∀ v, u = Some v →
       Animator.trainId v = Train.id train ∧ Train.isManual (Train.id train) = false).
Proof.
  destruct (Train.isManual (Train.id train)) eqn:Hmanual.
  - rewrite animateTrain_manual by done. by eexists _, _.
  - destruct (pathPointsOf train) as [pathPoints|] eqn:Hpath.
    + destruct (animateTrain_moved progress index train pathPoints Hmanual Hpath)
        as (r & _ & ->).
      eexists _, _. split_and!; try done. by intros v [= <-].
    + rewrite animateTrain_held by done. by eexists _, _.
Qed.

Lemma animateAll_returns (progress : gmap string R) (trains : list Train.t) (index : nat) :
  ∃ trains1 updaters,
    animateAll progress index trains = Returns (trains1, updaters) ∧
    length trains1 = length trains ∧
    (∀ v, v ∈ updaters →
       ∃ t, t ∈ trains ∧ Animator.trainId v = Train.id t ∧
            Train.isManual (Train.id t) = false).
Proof.
  revert index. induction trains as [|train rest IH]; intros index.
  - exists [], []. split_and!; try done. intros v Hv. by apply elem_of_nil in Hv.
  - destruct (animateTrain_returns progress index train) as (train' & u & Htrain & _ & Hu).
    destruct (IH (S index)) as (rest' & us & Hrest & Hlen & Hus).
    exists (train' :: rest'), (option_list u ++ us).
    cbn [Animator.animateAll]. rewrite Htrain. cbn. rewrite Hrest. cbn.
    split_and!; [done|by rewrite Hlen|].
    intros v [Hv|Hv]%elem_of_app.
    + destruct u as [w|]; [|by apply elem_of_nil in Hv].
      apply list_elem_of_singleton in Hv as ->.
      exists train. split; [left|]. by apply Hu.
    + destruct (Hus v Hv) as (t & Ht & Hid). exists t. split; [by right|done].
Qed.

Lemma animateAll_app (progress : gmap string R) (before after : list Train.t) (index : nat) :
  animateAll progress index (before ++ after)
  = '(trains1, us1) ← animateAll progress index before;
    '(trains2, us2) ← animateAll progress (index + length before) after;
    Returns (trains1 ++ trains2, us1 ++ us2).
Proof.
  revert index. induction before as [|train before IH]; intros index.
  - cbn. rewrite Nat.add_0_r.
    destruct (animateAll progress index after) as [[trains2 us2]|]; done.
  - cbn [app Animator.animateAll length].
    destruct (animateTrain progress index train) as [[train' u]|]; [|done]. cbn.
    rewrite IH. replace (S index + length before)%nat with (index + S (length before))%nat by lia.
    destruct (animateAll progress (S index) before) as [[trains1 us1]|]; [|done]. cbn.
    destruct (animateAll progress _ after) as [[trains2 us2]|]; [|done]. cbn.
    by rewrite app_assoc.
Qed.

(** *** The queued updaters *)

Abbreviation settle := (fold_left (λ s u, Animator.applyProgress u s)).

Lemma applyProgress_other (u : Animator.ProgressUpdater) (s : list Train.t * gmap string R)
    (trainId : string) :
  Animator.trainId u ≠ trainId →
  (Animator.applyProgress u s).2 !! trainId = s.2 !! trainId ∧
  ∀ i t, s.1 !! i = Some t → Train.id t = trainId →
         (Animator.applyProgress u s).1 !! i = Some t.
Proof.
  intros Hne. unfold Animator.applyProgress. case_decide; simpl.
  - split; [by rewrite lookup_insert_ne|].
    intros i t Ht Hid. unfold Animator.advanceStations.
    rewrite list_lookup_fmap, Ht. simpl. rewrite decide_False; [done|congruence].
  - split; [by rewrite lookup_insert_ne|done].
Qed.

Lemma settle_other (us : list Animator.ProgressUpdater) (s : list Train.t * gmap string R)
    (trainId : string) :
  (∀ u, u ∈ us → Animator.trainId u ≠ trainId) →
  (settle us s).2 !! trainId = s.2 !! trainId ∧
  ∀ i t, s.1 !! i = Some t → Train.id t = trainId → (settle us s).1 !! i = Some t.
Proof.
  revert s. induction us as [|u us IH]; intros s Hus; [done|].
  destruct (applyProgress_other u s trainId) as [Hp Ht]; [apply Hus; by left|].
  destruct (IH (Animator.applyProgress u s)) as [Hp' Ht']; [intros v Hv; apply Hus; by right|].
  simpl. split; [by rewrite Hp'|]. intros i t Hi Hid. apply Ht'; [by apply Ht|done].
Qed.

Lemma applyProgress_own (u : Animator.ProgressUpdater) (s : list Train.t * gmap string R) :
  (Animator.applyProgress u s).2 !! Animator.trainId u
  = settledProgress (Some u) s.2 (Animator.trainId u) ∧
  ∀ i t, s.1 !! i = Some t → Train.id t = Animator.trainId u →
         (Animator.applyProgress u s).1 !! i = Some (settledTrain (Some u) s.2 t).
Proof.
  unfold Animator.applyProgress, settledProgress, settledTrain. case_decide; simpl.
  - split; [by rewrite lookup_insert_eq|].
    intros i t Ht Hid. unfold Animator.advanceStations.
    rewrite list_lookup_fmap, Ht. simpl. by rewrite decide_True.
  - split; [by rewrite lookup_insert_eq|done].
Qed.

Lemma settle_length (us : list Animator.ProgressUpdater) (s : list Train.t * gmap string R) :
  length (settle us s).1 = length s.1.
Proof.
  revert s. induction us as [|u us IH]; intros s; [done|].
  simpl. rewrite IH. unfold Animator.applyProgress, Animator.advanceStations.
  case_decide; simpl; [by rewrite length_map|done].
Qed.

(** One firing of the interval, seen from the train at index [i], when no
    other train that is animated has its id: the tick returns, and the train
    and the stored progress of its id are what its own updater, if it queued
    one, makes of them. *)
Lemma tick_at (trains : list Train.t) (progress : gmap string R) (i : nat) (train : Train.t) :
  trains !! i = Some train →
  (∀ j t, trains !! j = Some t → j ≠ i → Train.isManual (Train.id t) = false →
          Train.id t ≠ Train.id train) →
  ∃ trains' progress' train1 u,
    tick (trains, progress) = Returns (trains', progress') ∧
    animateTrain progress i train = Returns (train1, u) ∧
    length trains' = length trains ∧
    trains' !! i = Some (settledTrain u progress train1) ∧
    progress' !! Train.id train = settledProgress u progress (Train.id train).
Proof.
  intros Hi Hothers.
  pose proof (lookup_lt_Some _ _ _ Hi) as Hlt.
  assert (trains = take i trains ++ train :: drop (S i) trains) as Hsplit.
  { by rewrite <- (drop_S _ _ _ Hi), take_drop. }
  assert (length (take i trains) = i) as Hbefore by (rewrite length_take; lia).
  destruct (animateAll_returns progress (take i trains) 0) as (b1 & ub & Hb & Hblen & Hub).
  destruct (animateTrain_returns progress i train) as (train1 & u & Htrain & Hid & Hu).
  destruct (animateAll_returns progress (drop (S i) trains) (S i))
    as (a1 & ua & Ha & Halen & Hua).
  assert (animateAll progress 0 trains
          = Returns (b1 ++ train1 :: a1, ub ++ option_list u ++ ua)) as Hall.
  { rewrite Hsplit at 1. rewrite animateAll_app, Hb. cbn. rewrite Hbefore.
    cbn [Animator.animateAll]. rewrite Htrain. cbn. rewrite Ha. done. }
  assert (∀ v, v ∈ ub → Animator.trainId v ≠ Train.id train) as Hub'.
  { intros v Hv. destruct (Hub v Hv) as (t & [j Hj]%list_elem_of_lookup & -> & Hman).
    pose proof (lookup_lt_Some _ _ _ Hj) as Hjlt. rewrite Hbefore in Hjlt.
    rewrite lookup_take_lt in Hj by done. apply (Hothers j); [done|lia|done]. }
  assert (∀ v, v ∈ ua → Animator.trainId v ≠ Train.id train) as Hua'.
  { intros v Hv. destruct (Hua v Hv) as (t & [j Hj]%list_elem_of_lookup & -> & Hman).
    rewrite lookup_drop in Hj. apply (Hothers (S i + j)%nat); [done|lia|done]. }
  set (s0 := (b1 ++ train1 :: a1, progress)).
  set (s1 := settle ub s0).
  set (s2 := settle (option_list u) s1).
  exists (settle ua s2).1, (settle ua s2).2, train1, u.
  assert (s0.1 !! i = Some train1) as H0.
  { simpl. rewrite lookup_app_r by lia. rewrite Hblen, Hbefore, Nat.sub_diag. done. }
  destruct (settle_other ub s0 (Train.id train) Hub') as [Hp1 Ht1].
  fold s1 in Hp1, Ht1. specialize (Ht1 i train1 H0 Hid).
  assert (s2.2 !! Train.id train = settledProgress u progress (Train.id train) ∧
          s2.1 !! i = Some (settledTrain u progress train1)) as [Hp2 Ht2].
  { unfold s2. destruct u as [w|]; [|done].
    destruct (Hu w eq_refl) as [Hw _].
    destruct (applyProgress_own w s1) as [Hp Ht].
    specialize (Ht i train1 Ht1 (eq_trans Hid (eq_sym Hw))).
    change (settle (option_list (Some w)) s1) with (Animator.applyProgress w s1).
    rewrite Hw in Hp. rewrite Hp, Ht.
    unfold settledProgress, settledTrain. rewrite !Hw, !Hp1. done. }
  destruct (settle_other ua s2 (Train.id train) Hua') as [Hp3 Ht3].
  split_and!.
  - unfold Animator.tick. cbn [fst snd]. rewrite Hall. cbn.
    unfold s2, s1, s0. rewrite !fold_left_app.
    f_equal. apply surjective_pairing.
  - done.
  - unfold s2, s1. rewrite !settle_length. unfold s0. cbn [fst]. rewrite length_app. cbn [length].
    rewrite Hblen, Halen, Hbefore, length_drop. lia.
  - apply Ht3; [done|]. destruct u as [w|]; simpl; [|done].
    unfold settledTrain. by case_decide.
  - by rewrite Hp3.
Qed.
End animator.

Section handlers_return.
Context (mapContainerRef : option DOMRect.t).
Context (stations : list Station.t) (realLines : list RailwayLine.t).
Context (trainRoutes : gmap string (list string)) (isRunning : bool).

Lemma tick_returns (rnd : nat → R * R) (s : list Train.t * gmap string R) :
  ∃ s', Animator.tick stations realLines trainRoutes rnd s = Returns s'.
Proof.
  destruct (animateAll_returns stations realLines trainRoutes rnd s.2 s.1 0)
    as (trains1 & us & H & _).
  unfold Animator.tick. rewrite H. by eexists.
Qed.

Lemma dragTrain_returns (trainId : string) (coords : Point) (s : State) :
  ∃ s', Handlers.dragTrain realLines trainId coords s = Returns s'.
Proof.
  unfold Handlers.dragTrain. repeat case_match; try by eexists.
  destruct (projectPointOntoPolyline_returns coords l) as [p ->]. by eexists.
Qed.

(** Every handler returns: none throws. *)
Lemma handle_returns (ev : Event) (s : State) :
  ∃ s', Handlers.handle mapContainerRef stations realLines trainRoutes isRunning ev s
        = Returns s'.
Proof.
  destruct ev; simpl; try by eexists.
  - unfold Handlers.handleMouseMove. repeat case_match; try by eexists.
    apply dragTrain_returns.
  - unfold Handlers.handleTouchMove. repeat case_match; try by eexists.
    destruct (dragTrain_returns (default ""%string (draggingTrainId s))
                (Handlers.getMapCoordinates mapContainerRef s (touchX t) (touchY t)) s)
      as [s' ->].
    by eexists.
  - unfold Handlers.intervalTick. destruct isRunning; [|by eexists].
    destruct (tick_returns rnd (animatedTrains s, trainProgress s)) as [s' ->]. by eexists.
Qed.
End handlers_return.

(** ** The animator tick *)

Lemma manual_id_differs (t train : Train.t) :
  Train.isManual (Train.id train) = true → Train.isManual (Train.id t) = false →
  Train.id t ≠ Train.id train.
Proof. intros Hm Hn Heq. rewrite Heq in Hn. congruence. Qed.




Lemma indexOf_lower_bound (arr : list string) (s : option string) : (-1 <= Animator.indexOf arr s)%Z.
Proof. unfold Animator.indexOf. repeat case_match; lia. Qed.


Lemma Math_floor_between (lo hi : Z) (v : R) :
  IZR lo <= v < IZR hi + 1 → ∃ n : Z, Animator.Math_floor v = IZR n ∧ (lo ≤ n ≤ hi)%Z.
Proof.
  intros [Hlo Hhi]. unfold Animator.Math_floor. exists (Int_part v). split; [done|].
  destruct (base_Int_part v) as [Hle Hgt].
  split.
  - assert (lo - 1 < Int_part v)%Z; [|lia]. apply lt_IZR. rewrite minus_IZR. lra.
  - assert (Int_part v < hi + 1)%Z; [|lia]. apply lt_IZR. rewrite plus_IZR. lra.
Qed.
Lemma newSpeedOf_bounds (rnd : nat → R * R) (index : nat) (train : Train.t) :
  30 <= Animator.newSpeedOf rnd index train <= Math_max 30 (Train.maxSpeed train).
Proof.
  unfold Animator.newSpeedOf, Math_max, Math_min, Rmax, Rmin.
  repeat destruct (Rle_dec _ _); lra.
Qed.








(** * Further properties of the code *)

(** ** More on [getPointAlongPath] *)


Lemma clamp01_bounds (progress : R) : 0 <= clamp01 progress <= 1.
Proof. apply max_min_bounds. lra. Qed.

Lemma clamp01_idemp (progress : R) : clamp01 (clamp01 progress) = clamp01 progress.
Proof. apply max_min_inside, clamp01_bounds. Qed.

Lemma pathLength_nonneg (points : list Point) : 0 <= pathLength points.
Proof. apply sumR_nonneg, segment_lengths_nonneg. Qed.

(** The position returned is on a segment of the path, at the arc length
    [clamp(progress) * total] from the start of the path. *)
Lemma getPointAlongPath_on_segment (points : list Point) (progress : R) :
  (2 ≤ length points)%nat →
  ∃ r k p0 p1 t,
    getPointAlongPath points progress = Returns r ∧
    points !! k = Some p0 ∧ points !! (k + 1)%nat = Some p1 ∧
    0 <= t <= 1 ∧ position r = lerp p0 p1 t ∧
    cumulative points k + t * segLen p0 p1 = clamp01 progress * pathLength points.
Proof.
  intros Hlen.
  destruct (decide (pathLength points = 0)) as [Hz|Hz].
  - destruct points as [|a [|b tl]]; [cbn in Hlen; lia..|].
    exists (mkPathPoint a (mkPoint 1 0)), 0%nat, a, b, 0. split_and!; try done; try lra.
    + rewrite getPointAlongPath_unfold. by rewrite decide_True.
    + by rewrite lerp_0.
    + rewrite Hz, cumulative_0. lra.
  - pose proof (pathLength_nonneg points) as Hn.
    destruct (getPointAlongPath_positive points progress)
      as (k & p0 & p1 & Hp0 & Hp1 & Hmin & Hhit & Hget); [lra|].
    pose proof (clamp01_bounds progress) as Hc.
    set (target := clamp01 progress * pathLength points) in *.
    assert (cumulative points k <= target) as Hlo.
    { destruct k as [|k]; [rewrite cumulative_0; unfold target; nra|].
      left. apply Hmin. lia. }
    pose proof (localT_bounds points target k p0 p1 Hp0 Hp1 Hlo Hhit) as Ht.
    eexists _, k, p0, p1, _. split_and!; [exact Hget|done|done|apply Ht|apply Ht|done|].
    rewrite (cumulative_S _ _ _ (segment_lengths_lookup _ _ _ _ Hp0 Hp1)) in Hhit.
    unfold localT in *. case_decide as Hseg; [lra|]. field_simplify_eq; [lra|done].
Qed.

(** X1. On every path of two points or more and for every progress value,
    the position [getPointAlongPath] returns lies on a segment of the path,
    between its two ends, at the arc length [clamp(progress, 0, 1) * total]
    from the start of the path: the lengths of the segments before its
    segment plus the part of its segment up to it. *)
Theorem getPointAlongPath_arc_length (points : list Point) (progress : R) :
  (2 ≤ length points)%nat →
  ∃ r k p0 p1 t,
    getPointAlongPath points progress = Returns r ∧
    points !! k = Some p0 ∧ points !! (k + 1)%nat = Some p1 ∧
    0 <= t <= 1 ∧ position r = lerp p0 p1 t ∧
    cumulative points k + t * segLen p0 p1 = clamp01 progress * pathLength points.
Proof. intros Hlen. by apply getPointAlongPath_on_segment. Qed.

Lemma getPointAlongPath_arc_length_witness :
  ∃ r k p0 p1 t,
    getPointAlongPath scenarioPath 0.75 = Returns r ∧
    scenarioPath !! k = Some p0 ∧ scenarioPath !! (k + 1)%nat = Some p1 ∧
    0 <= t <= 1 ∧ position r = lerp p0 p1 t ∧
    cumulative scenarioPath k + t * segLen p0 p1 = clamp01 0.75 * pathLength scenarioPath.
Proof.
  refine (getPointAlongPath_arc_length scenarioPath 0.75 _). cbn. lia.
Defined.

Lemma getPointAlongPath_clamped (points : list Point) (progress : R) :
  getPointAlongPath points progress = getPointAlongPath points (clamp01 progress).
Proof.
  destruct points as [|a [|b tl]]; [done..|].
  by rewrite !getPointAlongPath_unfold, clamp01_idemp.
Qed.

(** X2. [getPointAlongPath] clamps the progress: below 0 it returns what it
    returns at 0, above 1 what it returns at 1, on every path. *)
Theorem getPointAlongPath_out_of_range :
  (∀ (points : list Point) (progress : R),
     progress <= 0 → getPointAlongPath points progress = getPointAlongPath points 0) ∧
  (∀ (points : list Point) (progress : R),
     1 <= progress → getPointAlongPath points progress = getPointAlongPath points 1).
Proof.
  split; intros points progress H.
  - rewrite (getPointAlongPath_clamped points progress), (getPointAlongPath_clamped points 0).
    f_equal. unfold clamp01, Math_max, Math_min, Rmax, Rmin.
    repeat destruct (Rle_dec _ _); lra.
  - rewrite (getPointAlongPath_clamped points progress), (getPointAlongPath_clamped points 1).
    f_equal. unfold clamp01, Math_max, Math_min, Rmax, Rmin.
    repeat destruct (Rle_dec _ _); lra.
Qed.

Lemma getPointAlongPath_out_of_range_witness :
  getPointAlongPath scenarioPath (-3) = getPointAlongPath scenarioPath 0 ∧
  getPointAlongPath scenarioPath 7 = getPointAlongPath scenarioPath 1.
Proof.
  split.
  - apply (proj1 getPointAlongPath_out_of_range scenarioPath (-3)). lra.
  - apply (proj2 getPointAlongPath_out_of_range scenarioPath 7). lra.
Defined.



Lemma segLen_same (p : Point) : segLen p p = 0.
Proof. unfold segLen. rewrite !Rminus_diag. apply hypot_axis. lra. Qed.

(** X4. A path whose points all coincide has no direction: for every
    progress value the function returns that point with the default tangent
    (1,0), whether the path has one point or many. *)
Theorem getPointAlongPath_degenerate (p : Point) (rest : list Point) (progress : R) :
  Forall (λ q, q = p) rest →
  getPointAlongPath (p :: rest) progress = Returns (mkPathPoint p (mkPoint 1 0)).
Proof.
  intros Hall. destruct rest as [|b tl]; [done|].
  rewrite getPointAlongPath_unfold. rewrite decide_True; [done|].
  unfold pathLength. clear progress.
  assert (∀ l, Forall (λ q, q = p) l → sumR (segment_lengths (p :: l)) = 0) as H.
  { induction l as [|q l IH]; intros Hl; [done|].
    apply Forall_cons in Hl as [-> Hl].
    change (segLen p p + sumR (segment_lengths (p :: l)) = 0).
    rewrite segLen_same, IH by done. lra. }
  by apply H.
Qed.

Lemma getPointAlongPath_degenerate_witness :
  getPointAlongPath [mkPoint 3 4; mkPoint 3 4; mkPoint 3 4] 0.5
  = Returns (mkPathPoint (mkPoint 3 4) (mkPoint 1 0)).
Proof.
  apply (getPointAlongPath_degenerate (mkPoint 3 4) [mkPoint 3 4; mkPoint 3 4] 0.5).
  repeat constructor.
Defined.

(** ** More on [projectPointOntoPolyline] *)

Lemma dist_zero (p q : Point) : dist p q = 0 → q = p.
Proof.
  intros H. apply hypot_zero in H as [Hx Hy].
  destruct p, q. cbn [x y] in *. apply point_eq; lra.
Qed.

Lemma dist_same (p : Point) : dist p p = 0.
Proof. unfold dist. rewrite !Rminus_diag. apply hypot_axis. lra. Qed.

Lemma project_on_polyline (point : Point) (polyline : list Point) (j : nat) (t : R) :
  (j + 1 < length polyline)%nat → 0 <= t <= 1 →
  point = lerp (polyline !!! j) (polyline !!! (j + 1)%nat) t →
  projectPointOntoPolyline point polyline = Returns point.
Proof.
  intros Hj Ht Hpoint.
  destruct (projectPointOntoPolyline_spec point polyline) as (k & proj & -> & Hnear); [lia|].
  destruct Hnear as (_ & _ & _ & Hmin & _).
  specialize (Hmin j t Hj Ht). rewrite <- Hpoint, dist_same in Hmin.
  f_equal. apply dist_zero. pose proof (dist_nonneg point proj). lra.
Qed.

Section projecting_twice.
Import PrimFloat.
#[local] Set Warnings "-inexact-float".

(** X5. In exact arithmetic a point that lies on a segment of the polyline
    is its own projection, and projecting is idempotent: the projection of
    a projected point is that point, on every polyline, the empty one and
    the one of a single point included. In doubles it is idempotent up to
    rounding only: (7,1) is projected on (7,0), (9,4) to (7.4, 0.8), and
    that point to (7.4, 0.8000000000000002). *)
Theorem projectPointOntoPolyline_idempotent_up_to_rounding :
  (∀ (point : Point) (polyline : list Point) (j : nat) (t : R),
     (j + 1 < length polyline)%nat → 0 <= t <= 1 →
     point = lerp (polyline !!! j) (polyline !!! (j + 1)%nat) t →
     projectPointOntoPolyline point polyline = Returns point) ∧
  (∀ (point : Point) (polyline : list Point),
     ∃ proj, projectPointOntoPolyline point polyline = Returns proj ∧
             projectPointOntoPolyline proj polyline = Returns proj) ∧
  (let polyline := [Double.mkPoint 7 0; Double.mkPoint 9 4] in
   Double.projectPointOntoPolyline (Double.mkPoint 7 1) polyline
   = Returns (Double.mkPoint 7.4 0.8) ∧
   Double.projectPointOntoPolyline (Double.mkPoint 7.4 0.8) polyline
   = Returns (Double.mkPoint 7.4 0.8000000000000002)).
Proof.
  split_and!; [exact project_on_polyline| |by vm_compute].
  intros point polyline. destruct polyline as [|a [|b tl]]; [by eexists..|].
  destruct (projectPointOntoPolyline_spec point (a :: b :: tl)) as (k & proj & Hproj & Hnear);
    [simpl; lia|].
  exists proj. split; [done|].
  destruct Hnear as (Hk & _ & (t & Ht & Hlerp) & _).
  by apply (project_on_polyline proj (a :: b :: tl) k t).
Qed.
End projecting_twice.

(** The middle of the second segment of scenario B. *)
Lemma projectPointOntoPolyline_idempotent_up_to_rounding_witness :
  projectPointOntoPolyline (lerp (mkPoint 10 0) (mkPoint 10 10) 0.5) scenarioPath
  = Returns (lerp (mkPoint 10 0) (mkPoint 10 10) 0.5).
Proof.
  refine (proj1 projectPointOntoPolyline_idempotent_up_to_rounding _ scenarioPath 1%nat 0.5
            _ _ eq_refl).
  - simpl. lia.
  - lra.
Defined.

(** ** Resolving the path between two stations *)

Lemma find_ext {A : Type} (f g : A → bool) (l : list A) :
  (∀ a, f a = g a) → find f l = find g l.
Proof.
  intros H. unfold find. induction l as [|a l IH]; [done|].
  simpl. rewrite H, IH. done.
Qed.

Lemma find_skip {A : Type} (f : A → bool) (before : list A) (l : list A) :
  Forall (λ a, f a = false) before → find f (before ++ l) = find f l.
Proof.
  unfold find. induction 1 as [|a before Ha _ IH]; [done|].
  simpl. by rewrite Ha.
Qed.

Lemma connects_comm (stations : list string) (a b : option string) :
  Registry.connects stations a b = Registry.connects stations b a.
Proof. unfold Registry.connects. apply andb_comm. Qed.

Lemma fallbackPath_comm (a b : option string) :
  Registry.fallbackPath a b = Registry.fallbackPath b a.
Proof.
  unfold Registry.fallbackPath.
  rewrite (find_ext _ (λ seg, Registry.connects (TrackSegment.stations seg) b a)); [done|].
  intros seg. apply connects_comm.
Qed.

(** X6. The path between two stations does not depend on their order:
    [getLinePointsBetweenStations] returns the same points, in the same
    order, for (A, B) and for (B, A). *)
Theorem getLinePointsBetweenStations_symmetric
    (realLines : list RailwayLine.t) (stationAId stationBId : option string) :
  Registry.getLinePointsBetweenStations realLines stationAId stationBId
  = Registry.getLinePointsBetweenStations realLines stationBId stationAId.
Proof.
  unfold Registry.getLinePointsBetweenStations.
  rewrite (find_ext _ (λ line, Registry.connects (RailwayLine.stations line) stationBId stationAId))
    by (intros line; apply connects_comm).
  by rewrite (fallbackPath_comm stationAId stationBId).
Qed.

Lemma copy_points (points : list Point) : map (λ p, mkPoint (x p) (y p)) points = points.
Proof. induction points as [|[px py] l IH]; [done|]. simpl. by rewrite IH. Qed.

(** X7. Only the first line that includes both stations counts. When it
    has two coordinates or more, the path is its coordinates; when it has
    fewer, the path is the track segment of the fallback table, if any, and
    no later line is looked at. When no line includes both stations the path
    is the fallback one. *)
Theorem getLinePointsBetweenStations_first_line :
  (∀ (before after : list RailwayLine.t) (line : RailwayLine.t)
     (stationAId stationBId : option string),
     Forall (λ l, Registry.connects (RailwayLine.stations l) stationAId stationBId = false)
       before →
     Registry.connects (RailwayLine.stations line) stationAId stationBId = true →
     Registry.getLinePointsBetweenStations (before ++ line :: after) stationAId stationBId
     = if bool_decide (2 ≤ length (RailwayLine.coordinates line))%nat
       then Some (RailwayLine.coordinates line)
       else Registry.fallbackPath stationAId stationBId) ∧
  (∀ (realLines : list RailwayLine.t) (stationAId stationBId : option string),
     Forall (λ l, Registry.connects (RailwayLine.stations l) stationAId stationBId = false)
       realLines →
     Registry.getLinePointsBetweenStations realLines stationAId stationBId
     = Registry.fallbackPath stationAId stationBId).
Proof.
  split.
  - intros before after line a b Hbefore Hline.
    unfold Registry.getLinePointsBetweenStations.
    rewrite (find_skip (λ l, Registry.connects (RailwayLine.stations l) a b)) by done.
    unfold find. simpl. rewrite Hline. by rewrite copy_points.
  - intros realLines a b Hnone. unfold Registry.getLinePointsBetweenStations.
    rewrite <- (app_nil_r realLines).
    by rewrite (find_skip (λ l, Registry.connects (RailwayLine.stations l) a b)).
Qed.

(** A line without coordinates hides a later line between the same stations. *)
Lemma getLinePointsBetweenStations_first_line_witness :
  Registry.getLinePointsBetweenStations
    ([] ++ RailwayLine.mk "L1" "no geometry" main ["ST002"; "ST003"]%string [] false
        :: [RailwayLine.mk "L2" "hidden" main ["ST002"; "ST003"]%string
              [mkPoint 0 0; mkPoint 5 5] false])
    (Some "ST002"%string) (Some "ST003"%string)
  = None.
Proof.
  refine (proj1 getLinePointsBetweenStations_first_line []
            [RailwayLine.mk "L2" "hidden" main ["ST002"; "ST003"]%string
               [mkPoint 0 0; mkPoint 5 5] false]
            (RailwayLine.mk "L1" "no geometry" main ["ST002"; "ST003"]%string [] false)
            (Some "ST002"%string) (Some "ST003"%string) _ eq_refl).
  constructor.
Defined.

Lemma find_holds {A : Type} (f : A → bool) (l : list A) (a : A) :
  find f l = Some a → f a = true.
Proof. unfold find. intros H. by apply List.find_some in H as [_ H]. Qed.

(** X8. [findTrackSegment] never throws. When the current and the next
    station of the train are both among the stations, it finds a segment
    exactly when [getLinePointsBetweenStations] resolves a path for the
    pair, and the segment runs from the first to the last point of that
    path; when one of them is not among the stations it finds nothing,
    whatever the lines. *)
Theorem findTrackSegment_agrees :
  (∀ (realLines : list RailwayLine.t) (train : Train.t) (stations : list Station.t)
     (current next : Station.t),
     find (λ s, bool_decide (Some (Station.id s) = Train.currentStation train)) stations
     = Some current →
     find (λ s, bool_decide (Some (Station.id s) = Train.nextStation train)) stations
     = Some next →
     ∃ found,
       findTrackSegment realLines train stations = Returns found ∧
       match found,
             Registry.getLinePointsBetweenStations realLines
               (Train.currentStation train) (Train.nextStation train) with
       | Some segment, Some pathPoints =>
           head pathPoints = Some (TrackSegment.start segment) ∧
           last pathPoints = Some (TrackSegment.end_ segment)
       | None, None => True
       | _, _ => False
       end) ∧
  (∀ (realLines : list RailwayLine.t) (train : Train.t) (stations : list Station.t),
     find (λ s, bool_decide (Some (Station.id s) = Train.currentStation train)) stations = None
     ∨ find (λ s, bool_decide (Some (Station.id s) = Train.nextStation train)) stations = None →
     findTrackSegment realLines train stations = Returns None).
Proof.
  split.
  - intros realLines train stations current next Hcurrent Hnext.
    pose proof (find_holds _ _ _ Hcurrent) as Hc. apply bool_decide_eq_true_1 in Hc.
    pose proof (find_holds _ _ _ Hnext) as Hn. apply bool_decide_eq_true_1 in Hn.
    unfold findTrackSegment, Registry.getLinePointsBetweenStations, Registry.fallbackPath.
    rewrite Hcurrent, Hnext. cbv zeta. rewrite Hc, Hn.
    destruct (find (λ line, Registry.connects (RailwayLine.stations line) _ _) realLines)
      as [line|].
    + case_bool_decide as Hlen.
      * set (coords := RailwayLine.coordinates line) in *.
        destruct (lookup_lt_is_Some_2 coords 0) as [a Ha]; [lia|].
        destruct (lookup_lt_is_Some_2 coords (length coords - 1)) as [b Hb]; [lia|].
        rewrite (item_lookup _ _ _ Ha), (item_lookup _ _ _ Hb).
        unfold mbind, outcome_bind. eexists. split; [done|].
        rewrite copy_points, head_lookup, last_lookup, Ha.
        replace (pred (length coords)) with (length coords - 1)%nat by lia.
        rewrite Hb. by destruct a, b.
      * eexists. split; [reflexivity|]. destruct (find _ trackSegments); [by split|done].
    + eexists. split; [reflexivity|]. destruct (find _ trackSegments); [by split|done].
  - intros realLines train stations [H|H]; unfold findTrackSegment; rewrite H; [done|].
    destruct (find (λ s, bool_decide (Some (Station.id s) = Train.currentStation train))
                stations); reflexivity.
Qed.

(** The express from Ahmedabad to Vadodara among the stations of the mock
    data, with no line loaded. *)
Lemma findTrackSegment_agrees_witness :
  ∃ found,
    findTrackSegment [] vadodaraFast mockStations = Returns found ∧
    match found,
          Registry.getLinePointsBetweenStations []
            (Train.currentStation vadodaraFast) (Train.nextStation vadodaraFast) with
    | Some segment, Some pathPoints =>
        head pathPoints = Some (TrackSegment.start segment) ∧
        last pathPoints = Some (TrackSegment.end_ segment)
    | None, None => True
    | _, _ => False
    end.
Proof.
  exact (proj1 findTrackSegment_agrees [] vadodaraFast mockStations _ _ eq_refl eq_refl).
Defined.

(** ** The viewport and the gestures *)




Lemma clamp_zoom_inside (z : R) : 0.3 <= z <= 3 → Math_max 0.3 (Math_min 3 z) = z.
Proof. apply max_min_inside. Qed.

Section zoom_buttons.
Import PrimFloat.
#[local] Set Warnings "-inexact-float".

(** X10. In exact arithmetic the zoom-in button followed by the zoom-out
    button restores the zoom and the pan when the zoom is within [0.3, 2.5],
    and zoom-out followed by zoom-in when it is within [0.36, 3], with or
    without a container. In doubles they restore them up to rounding only:
    from a zoom of 0.9 and a pan of (0,0), zoom-in then zoom-out gives a
    zoom of 0.9000000000000001, and in a container of 800 by 600 a pan of
    (-5.684341886080802e-14, 0). *)
Theorem zoom_buttons_round_trip_up_to_rounding :
  (∀ (mapContainerRef : option DOMRect.t) (s : State),
     0.3 <= Viewport.zoom (view s) <= 2.5 →
     let s' := Handlers.handleZoomOut mapContainerRef (Handlers.handleZoomIn mapContainerRef s) in
     Viewport.zoom (view s') = Viewport.zoom (view s) ∧
     Viewport.pan (view s') = Viewport.pan (view s)) ∧
  (∀ (mapContainerRef : option DOMRect.t) (s : State),
     0.36 <= Viewport.zoom (view s) <= 3 →
     let s' := Handlers.handleZoomIn mapContainerRef (Handlers.handleZoomOut mapContainerRef s) in
     Viewport.zoom (view s') = Viewport.zoom (view s) ∧
     Viewport.pan (view s') = Viewport.pan (view s)) ∧
  (let v := Double.mkViewport 0.9 (Double.mkPoint 0 0) in
   Double.handleZoomOut None (Double.handleZoomIn None v)
   = Double.mkViewport 0.9000000000000001 (Double.mkPoint 0 0) ∧
   Double.handleZoomOut (Some (800, 600)) (Double.handleZoomIn (Some (800, 600)) v)
   = Double.mkViewport 0.9000000000000001 (Double.mkPoint (-5.684341886080802e-14) 0))%float.
Proof.
  split_and!; [| |by vm_compute];
    intros [rect|] s Hz; unfold Handlers.handleZoomIn, Handlers.handleZoomOut,
    Handlers.zoomAt, Viewport.zoomAt, set_zoom; cbn;
    destruct (view s) as [z [px py]]; cbn in *.
  - rewrite (clamp_zoom_inside (z * 1.2)) by lra.
    rewrite (clamp_zoom_inside (z * 1.2 * (1 / 1.2))) by lra.
    split; [lra|]. apply point_eq; field; lra.
  - unfold Math_max, Math_min, Rmax, Rmin. split; [|done].
    repeat destruct (Rle_dec _ _); lra.
  - rewrite (clamp_zoom_inside (z * (1 / 1.2))) by lra.
    rewrite (clamp_zoom_inside (z * (1 / 1.2) * 1.2)) by lra.
    split; [lra|]. apply point_eq; field; lra.
  - unfold Math_max, Math_min, Rmax, Rmin. split; [|done].
    repeat destruct (Rle_dec _ _); lra.
Qed.
End zoom_buttons.

Lemma zoom_buttons_round_trip_up_to_rounding_witness :
  let s' := Handlers.handleZoomOut container (Handlers.handleZoomIn container (coastingMap false)) in
  Viewport.zoom (view s') = Viewport.zoom (view (coastingMap false)) ∧
  Viewport.pan (view s') = Viewport.pan (view (coastingMap false)).
Proof.
  refine (proj1 zoom_buttons_round_trip_up_to_rounding container (coastingMap false) _).
  cbn. lra.
Defined.

Lemma cancelInertia_keeps (mapContainerRef : option DOMRect.t) (s : State) :
  let s' := Handlers.cancelInertia s in
  view s' = view s ∧ isDragging s' = isDragging s ∧ dragStart s' = dragStart s ∧
  lastMoveRef s' = lastMoveRef s ∧ velocityRef s' = velocityRef s ∧
  placeMode s' = placeMode s ∧ manualTrains s' = manualTrains s ∧
  draggingTrainId s' = draggingTrainId s ∧ animatedTrains s' = animatedTrains s ∧
  trainProgress s' = trainProgress s ∧ inertiaAnimRef s' = None.
Proof.
  unfold Handlers.cancelInertia. destruct (inertiaAnimRef s) eqn:H; cbn; by split_and!.
Qed.

Section panning.
Context (mapContainerRef : option DOMRect.t).
Context (stations : list Station.t) (realLines : list RailwayLine.t).
Context (trainRoutes : gmap string (list string)) (isRunning : bool).

Abbreviation runHere := (Handlers.run mapContainerRef stations realLines trainRoutes isRunning).
Abbreviation afterHere := (Handlers.after mapContainerRef stations realLines trainRoutes isRunning).




End panning.


Lemma quotient_floor (a dt : R) : 16 <= dt → Rabs (a / dt) <= Rabs a / 16.
Proof.
  intros Hdt. unfold Rdiv. rewrite Rabs_mult, (Rabs_right (/ dt)).
  - apply Rmult_le_compat_l; [apply Rabs_pos|]. apply Rinv_le_contravar; lra.
  - apply Rle_ge. left. apply Rinv_0_lt_compat. lra.
Qed.

(** X12. The velocity estimate of a pan never divides by less than 16 ms:
    each of its components is at most the distance moved since the last
    sample divided by 16, and it is the distance over the time when at least
    16 ms have passed; the sample is replaced by the place and time of the
    move. *)
Theorem velocity_estimate_floor (mapContainerRef : option DOMRect.t)
    (realLines : list RailwayLine.t) (e : MouseEvent) (last : Sample) (s : State) :
  isDragging s = true → draggingTrainId s = None → lastMoveRef s = Some last →
  ∃ s', Handlers.handleMouseMove mapContainerRef realLines e s = Returns s' ∧
        Rabs (vx (velocityRef s')) <= Rabs (clientX e - sampleX last) / 16 ∧
        Rabs (vy (velocityRef s')) <= Rabs (clientY e - sampleY last) / 16 ∧
        (16 <= now e - sampleT last →
         vx (velocityRef s') = (clientX e - sampleX last) / (now e - sampleT last) ∧
         vy (velocityRef s') = (clientY e - sampleY last) / (now e - sampleT last)) ∧
        lastMoveRef s' = Some (mkSample (clientX e) (clientY e) (now e)).
Proof.
  intros Hdrag Hnone Hlast. eexists. split.
  { unfold Handlers.handleMouseMove. rewrite Hnone, Hdrag. cbn [truthy]. reflexivity. }
  unfold Handlers.trackVelocity, Handlers.panTo, set_pan.
  cbn [lastMoveRef set_view]. rewrite Hlast. cbn [velocityRef set_lastMoveRef set_velocityRef vx vy lastMoveRef].
  assert (16 <= Math_max 16 (now e - sampleT last)) by apply Rmax_l.
  split_and!; [by apply quotient_floor|by apply quotient_floor| |done].
  intros Hdt. unfold Math_max. by rewrite Rmax_right.
Qed.

Lemma velocity_estimate_floor_witness :
  ∃ s', Handlers.handleMouseMove container [] (mouseAt 48 0 17)
          (Handlers.handleMouseDown container (mouseAt 16 0 16) (coastingMap false)) = Returns s' ∧
        Rabs (vx (velocityRef s')) <= Rabs (48 - 16) / 16.
Proof.
  destruct (velocity_estimate_floor container [] (mouseAt 48 0 17) (mkSample 16 0 16)
              (Handlers.handleMouseDown container (mouseAt 16 0 16) (coastingMap false))
              eq_refl eq_refl eq_refl) as (s' & H & Hx & _).
  exists s'. split; [exact H|exact Hx].
Defined.



Lemma isManual_M (rest : string) : Train.isManual ("M" +:+ rest) = true.
Proof. unfold Train.isManual. by destruct rest. Qed.



Section grabbing.
Context (mapContainerRef : option DOMRect.t).
Context (stations : list Station.t) (realLines : list RailwayLine.t).
Context (trainRoutes : gmap string (list string)) (isRunning : bool).

Lemma truthy_default (v : option string) : truthy v = true → v = Some (default ""%string v).
Proof. by destruct v. Qed.

(** Dragging a manual train changes the manual trains only. *)
Lemma dragTrain_manual (trainId : string) (coords : Point) (s : State) :
  Train.isManual trainId = true →
  Handlers.dragTrain realLines trainId coords s
  = Returns (set_manualTrains (Handlers.moveTrain trainId coords (manualTrains s)) s).
Proof. intros H. unfold Handlers.dragTrain. by rewrite H. Qed.

Lemma startInertia_keeps (s : State) :
  let s' := Handlers.startInertia s in
  draggingTrainId s' = draggingTrainId s ∧ animatedTrains s' = animatedTrains s ∧
  trainProgress s' = trainProgress s ∧ manualTrains s' = manualTrains s ∧ view s' = view s.
Proof. unfold Handlers.startInertia. by case_decide. Qed.

Lemma step_keeps (captured : Velocity) (s : State) :
  let s' := Handlers.step captured s in
  draggingTrainId s' = draggingTrainId s ∧ animatedTrains s' = animatedTrains s ∧
  trainProgress s' = trainProgress s ∧ manualTrains s' = manualTrains s.
Proof. unfold Handlers.step. by case_decide. Qed.

Lemma frames_keep (callbacks : list (positive * Velocity)) (s : State) :
  let s' := fold_left (λ s c, Handlers.step c.2 s) callbacks s in
  draggingTrainId s' = draggingTrainId s ∧ animatedTrains s' = animatedTrains s ∧
  trainProgress s' = trainProgress s ∧ manualTrains s' = manualTrains s.
Proof.
  revert s. induction callbacks as [|c callbacks IH]; intros s; [done|].
  cbn [fold_left]. destruct (IH (Handlers.step c.2 s)) as (-> & -> & -> & ->).
  apply step_keeps.
Qed.

Lemma trackVelocity_keeps (cx cy t : R) (s : State) :
  let s' := Handlers.trackVelocity cx cy t s in
  draggingTrainId s' = draggingTrainId s ∧ animatedTrains s' = animatedTrains s ∧
  trainProgress s' = trainProgress s ∧ manualTrains s' = manualTrains s ∧ view s' = view s.
Proof. unfold Handlers.trackVelocity. by destruct (lastMoveRef s). Qed.

Lemma startPan_keeps (cx cy t : R) (s : State) :
  let s' := Handlers.startPan cx cy t s in
  draggingTrainId s' = draggingTrainId s ∧ animatedTrains s' = animatedTrains s ∧
  trainProgress s' = trainProgress s ∧ manualTrains s' = manualTrains s.
Proof.
  unfold Handlers.startPan.
  match goal with |- context [Handlers.cancelInertia ?s1] =>
    destruct (cancelInertia_keeps mapContainerRef s1)
      as (_ & _ & _ & _ & _ & _ & -> & -> & -> & -> & _) end.
  done.
Qed.

(** What an event other than the interval tick does to the grabbed train
    and to the animated trains, when the grabbed train is a manual one. *)
Lemma grabsManual_after (ev : Event) (s : State) :
  grabsManual s →
  let s' := Handlers.after mapContainerRef stations realLines trainRoutes isRunning ev s in
  grabsManual s' ∧
  match ev with
  | IntervalTick _ => True
  | _ => animatedTrains s' = animatedTrains s ∧ trainProgress s' = trainProgress s
  end.
Proof.
  intros Hs. unfold Handlers.after. destruct ev; cbn [Handlers.handle].
  - unfold Handlers.handleZoomIn. by destruct mapContainerRef.
  - unfold Handlers.handleZoomOut. by destruct mapContainerRef.
  - done.
  - done.
  - unfold Handlers.handleMouseDown. case_match.
    + split; [|done]. intros trainId [= <-]. apply isManual_M.
    + destruct (startPan_keeps (clientX e) (clientY e) (now e) s) as (Hd & -> & -> & _).
      split; [|done]. unfold grabsManual. by rewrite Hd.
  - unfold Handlers.markerMouseDown. case_match eqn:Hgrab.
    + split; [|done]. intros trainId [= <-]. by apply andb_prop in Hgrab as [_ ?].
    + unfold Handlers.handleMouseDown. case_match.
      * split; [|done]. intros trainId [= <-]. apply isManual_M.
      * destruct (startPan_keeps (clientX e) (clientY e) (now e) s) as (Hd & -> & -> & _).
        split; [|done]. unfold grabsManual. by rewrite Hd.
  - unfold Handlers.handleMouseMove. destruct (truthy (draggingTrainId s)) eqn:Htruthy.
    + rewrite dragTrain_manual by (apply Hs; by apply truthy_default). done.
    + destruct (isDragging s); [|done].
      match goal with |- context [Handlers.trackVelocity ?a ?b ?c ?s1] =>
        destruct (trackVelocity_keeps a b c s1) as (Hd & -> & -> & _) end.
      split; [|done]. unfold grabsManual. by rewrite Hd.
  - unfold Handlers.handleMouseUp.
    match goal with |- context [Handlers.startInertia ?s1] =>
      destruct (startInertia_keeps s1) as (Hd & -> & -> & _) end.
    split; [|done]. unfold grabsManual. by rewrite Hd.
  - unfold Handlers.handleMouseUp.
    match goal with |- context [Handlers.startInertia ?s1] =>
      destruct (startInertia_keeps s1) as (Hd & -> & -> & _) end.
    split; [|done]. unfold grabsManual. by rewrite Hd.
  - done.
  - done.
  - unfold Handlers.handleTouchStart. repeat case_match; try done.
    match goal with |- context [Handlers.startPan ?a ?b ?c ?s1] =>
      destruct (startPan_keeps a b c s1) as (Hd & -> & -> & _) end.
    split; [|done]. unfold grabsManual. by rewrite Hd.
  - unfold Handlers.handleTouchMove. destruct touches as [|t [|b [|]]]; try done.
    + destruct (isDragging s); [|done].
      destruct (truthy (draggingTrainId s)) eqn:Htruthy.
      * rewrite dragTrain_manual by (apply Hs; by apply truthy_default).
        unfold mbind, outcome_bind; cbn [outcome_bind].
        match goal with |- context [Handlers.trackVelocity ?a ?b ?c ?s1] =>
          destruct (trackVelocity_keeps a b c s1) as (Hd & -> & -> & _) end.
        split; [|done]. unfold grabsManual. by rewrite Hd.
      * unfold mbind, outcome_bind; cbn [outcome_bind].
        match goal with |- context [Handlers.trackVelocity ?a ?b ?c ?s1] =>
          destruct (trackVelocity_keeps a b c s1) as (Hd & -> & -> & _) end.
        split; [|done]. unfold grabsManual. by rewrite Hd.
    + by destruct (isPinching (pinchStateRef s)).
  - unfold Handlers.handleTouchEnd. repeat case_match; try done.
    match goal with |- context [Handlers.startInertia ?s1] =>
      destruct (startInertia_keeps s1) as (Hd & -> & -> & _) end.
    split; [|done]. unfold grabsManual. by rewrite Hd.
  - unfold Handlers.animationFrame.
    match goal with |- context [fold_left ?f ?l ?s1] =>
      destruct (frames_keep l s1) as (Hd & -> & -> & _) end.
    split; [|done]. unfold grabsManual. by rewrite Hd.
  - split; [|done]. unfold Handlers.intervalTick. destruct isRunning; [|done].
    destruct (Animator.tick _ _ _ _ _); done.
Qed.

Lemma grabsManual_run (events : list Event) (s : State) :
  grabsManual s →
  grabsManual (Handlers.run mapContainerRef stations realLines trainRoutes isRunning events s).
Proof.
  revert s. induction events as [|ev events IH]; intros s Hs; [done|].
  cbn. apply IH. by apply grabsManual_after.
Qed.

(** X15. Only manual trains are ever grabbed, so the pointer never moves an
    animated train: after every sequence of events from the initial state
    the grabbed train, if any, has an id that starts with M, and every
    event other than the interval tick leaves the animated trains and the
    stored progress as they are; the branch of [handleMouseMove] that snaps
    a dragged animated train to its path is never taken. *)
Theorem pointer_never_moves_animated_trains (trains : list Train.t) (progress : gmap string R)
    (events : list Event) (ev : Event) :
  let s := Handlers.run mapContainerRef stations realLines trainRoutes isRunning events
             (initialState trains progress) in
  let s' := Handlers.after mapContainerRef stations realLines trainRoutes isRunning ev s in
  grabsManual s ∧
  match ev with
  | IntervalTick _ => True
  | _ => animatedTrains s' = animatedTrains s ∧ trainProgress s' = trainProgress s
  end.
Proof.
  intros s s'.
  assert (grabsManual s) as Hs by (by apply grabsManual_run).
  split; [done|]. by destruct (grabsManual_after ev s Hs).
Qed.
End grabbing.






Lemma Math_round_between (lo hi : Z) (v : R) :
  IZR lo <= v <= IZR hi → ∃ n : Z, Math_round v = IZR n ∧ (lo ≤ n ≤ hi)%Z.
Proof.
  intros [Hlo Hhi]. unfold Math_round. exists (Int_part (v + / 2)). split; [done|].
  destruct (base_Int_part (v + / 2)) as [Hle Hgt].
  split.
  - assert (lo - 1 < Int_part (v + / 2))%Z; [|lia].
    apply lt_IZR. rewrite minus_IZR. lra.
  - assert (Int_part (v + / 2) < hi + 1)%Z; [|lia].
    apply lt_IZR. rewrite plus_IZR. lra.
Qed.

(** X18. The zoom indicator always shows a whole number of percent between
    30 and 300, after every sequence of events from the initial state. *)
Theorem zoom_indicator_range (mapContainerRef : option DOMRect.t) (stations : list Station.t)
    (realLines : list RailwayLine.t) (trainRoutes : gmap string (list string))
    (isRunning : bool) (trains : list Train.t) (progress : gmap string R)
    (events : list Event) :
  ∃ percent : Z,
    zoomPercent (Handlers.run mapContainerRef stations realLines trainRoutes isRunning events
                   (initialState trains progress)) = IZR percent ∧
    (30 ≤ percent ≤ 300)%Z.
Proof.
  apply Math_round_between.
  pose proof (zoom_bound_run mapContainerRef stations realLines trainRoutes isRunning events
                (initialState trains progress)) as H.
  cbn [initialState view Viewport.zoom Viewport.initial] in H.
  specialize (H ltac:(lra)). lra.
Qed.

(** ** The speeds, the places and the progress the tick gives *)

(** X19. For a draw of [Math.random()], which is in [0, 1), [getRandomSpeed]
    is a whole number: 100 to 139 for an express, 70 to 99 for a passenger
    train and 50 to 74 for a freight train; the upper ends 140, 100 and 75
    are never returned. *)
Theorem getRandomSpeed_range (trainType : Train.kind) (random : R) :
  0 <= random < 1 →
  ∃ n : Z, Animator.getRandomSpeed trainType random = IZR n ∧
    match trainType with
    | Train.express => (100 ≤ n ≤ 139)%Z
    | Train.passenger => (70 ≤ n ≤ 99)%Z
    | Train.freight => (50 ≤ n ≤ 74)%Z
    end.
Proof.
  intros Hr. unfold Animator.getRandomSpeed. destruct trainType.
  - destruct (Math_floor_between 0 29 (random * 30)) as (n & -> & Hn); [simpl; lra|].
    exists (n + 70)%Z. rewrite plus_IZR. split; [done|lia].
  - destruct (Math_floor_between 0 39 (random * 40)) as (n & -> & Hn); [simpl; lra|].
    exists (n + 100)%Z. rewrite plus_IZR. split; [done|lia].
  - destruct (Math_floor_between 0 24 (random * 25)) as (n & -> & Hn); [simpl; lra|].
    exists (n + 50)%Z. rewrite plus_IZR. split; [done|lia].
Qed.

Lemma getRandomSpeed_range_witness :
  ∃ n : Z, Animator.getRandomSpeed Train.express 0.999 = IZR n ∧ (100 ≤ n ≤ 139)%Z.
Proof. apply (getRandomSpeed_range Train.express 0.999). lra. Defined.

Lemma Math_round_lower (lo : Z) (v : R) : IZR lo <= v → (lo ≤ Int_part (v + / 2))%Z.
Proof.
  intros Hlo. destruct (base_Int_part (v + / 2)) as [Hle Hgt].
  assert (lo - 1 < Int_part (v + / 2))%Z; [|lia]. apply lt_IZR. rewrite minus_IZR. lra.
Qed.

Lemma Math_round_upper (hi : Z) (v : R) : v <= IZR hi → (Int_part (v + / 2) ≤ hi)%Z.
Proof.
  intros Hhi. destruct (base_Int_part (v + / 2)) as [Hle Hgt].
  assert (Int_part (v + / 2) < hi + 1)%Z; [|lia]. apply lt_IZR. rewrite plus_IZR. lra.
Qed.

Lemma with_stations_twice (c n c' n' : option string) (t : Train.t) :
  Train.with_stations c' n' (Train.with_stations c n t) = Train.with_stations c' n' t.
Proof. done. Qed.

Lemma with_stations_same (t : Train.t) :
  Train.with_stations (Train.currentStation t) (Train.nextStation t) t = t.
Proof. by destruct t. Qed.

Section tick_frame.
Context (stations : list Station.t) (realLines : list RailwayLine.t).
Context (trainRoutes : gmap string (list string)) (rnd : nat → R * R).

Abbreviation animateTrain' := (Animator.animateTrain stations realLines trainRoutes rnd).
Abbreviation animateAll' := (Animator.animateAll stations realLines trainRoutes rnd).
Abbreviation tick' := (Animator.tick stations realLines trainRoutes rnd).
Abbreviation settle' := (fold_left (λ s u, Animator.applyProgress u s)).

Lemma animateAll_lookup (progress : gmap string R) (trains : list Train.t) (index : nat)
    (trains1 : list Train.t) (updaters : list Animator.ProgressUpdater) (i : nat)
    (train : Train.t) :
  animateAll' progress index trains = Returns (trains1, updaters) →
  trains !! i = Some train →
  ∃ train1 u, animateTrain' progress (index + i) train = Returns (train1, u) ∧
              trains1 !! i = Some train1.
Proof.
  revert index trains1 updaters i.
  induction trains as [|t rest IH]; intros index trains1 updaters i Hall Hi; [done|].
  cbn [Animator.animateAll] in Hall.
  destruct (animateTrain' progress index t) as [[t1 u]|] eqn:Ht; [|done].
  destruct (animateAll' progress (S index) rest) as [[rest1 us]|] eqn:Hrest; [|done].
  cbn in Hall. simplify_eq.
  destruct i as [|i].
  - cbn in Hi. simplify_eq. exists t1, u. by rewrite Nat.add_0_r.
  - cbn in Hi. destruct (IH (S index) rest1 us i Hrest Hi) as (train1 & v & H1 & H2).
    exists train1, v. split; [|done]. by replace (index + S i)%nat with (S index + i)%nat by lia.
Qed.

Lemma applyProgress_keeps (u : Animator.ProgressUpdater) (s : list Train.t * gmap string R)
    (i : nat) (t : Train.t) :
  s.1 !! i = Some t →
  ∃ c n, (Animator.applyProgress u s).1 !! i = Some (Train.with_stations c n t).
Proof.
  intros Hi. unfold Animator.applyProgress. case_decide; cbn [fst].
  - unfold Animator.advanceStations. rewrite list_lookup_fmap, Hi. cbn.
    case_decide; [by eexists _, _|].
    exists (Train.currentStation t), (Train.nextStation t). by rewrite with_stations_same.
  - exists (Train.currentStation t), (Train.nextStation t). by rewrite with_stations_same.
Qed.

Lemma settle_keeps (us : list Animator.ProgressUpdater) (s : list Train.t * gmap string R)
    (i : nat) (t : Train.t) :
  s.1 !! i = Some t →
  ∃ c n, (settle' us s).1 !! i = Some (Train.with_stations c n t).
Proof.
  revert s t. induction us as [|u us IH]; intros s t Hi.
  - exists (Train.currentStation t), (Train.nextStation t). by rewrite with_stations_same.
  - destruct (applyProgress_keeps u s i t Hi) as (c & n & H).
    destruct (IH _ _ H) as (c' & n' & H'). exists c', n'. cbn [fold_left].
    by rewrite H', with_stations_twice.
Qed.

(** The tick returns, and the train it leaves at an index is the one the
    body of the map made of the train at that index, its two stations
    possibly replaced by a rollover. *)
Lemma tick_lookup (trains : list Train.t) (progress : gmap string R) :
  ∃ trains' progress',
    tick' (trains, progress) = Returns (trains', progress') ∧
    length trains' = length trains ∧
    ∀ i train, trains !! i = Some train →
      ∃ train1 u c n,
        animateTrain' progress i train = Returns (train1, u) ∧
        trains' !! i = Some (Train.with_stations c n train1).
Proof.
  destruct (animateAll_returns stations realLines trainRoutes rnd progress trains 0)
    as (trains1 & us & Hall & Hlen & _).
  exists (settle' us (trains1, progress)).1, (settle' us (trains1, progress)).2.
  split_and!.
  - unfold Animator.tick. cbn [fst snd]. rewrite Hall. cbn. f_equal. apply surjective_pairing.
  - by rewrite settle_length.
  - intros i train Hi.
    destruct (animateAll_lookup progress trains 0 trains1 us i train Hall Hi)
      as (train1 & u & H1 & H2).
    destruct (settle_keeps us (trains1, progress) i train1 H2) as (c & n & H3).
    by exists train1, u, c, n.
Qed.

Lemma animateTrain_cases (progress : gmap string R) (index : nat) (train train1 : Train.t)
    (u : option Animator.ProgressUpdater) :
  animateTrain' progress index train = Returns (train1, u) →
  (Train.isManual (Train.id train) = true ∧ train1 = train) ∨
  (Train.isManual (Train.id train) = false ∧
   ∃ p, train1 = Train.with_speed_position
                   (Math_round (Animator.newSpeedOf rnd index train)) p train).
Proof.
  destruct (Train.isManual (Train.id train)) eqn:Hmanual.
  - rewrite animateTrain_manual by done. intros [= <- <-]. by left.
  - right. split; [done|].
    destruct (Animator.pathPointsOf realLines trainRoutes train) as [pathPoints|] eqn:Hpath.
    + destruct (animateTrain_moved stations realLines trainRoutes rnd progress index train
                  pathPoints Hmanual Hpath) as (r & _ & Heq).
      rewrite Heq in H. simplify_eq. by eexists.
    + rewrite animateTrain_held in H by done. simplify_eq. by eexists.
Qed.

(** X20. A firing of the interval returns, never adds, removes or reorders
    trains, and changes of a train nothing but its speed, its position, its
    current station and its next station. *)
Theorem tick_changes_speed_position_stations (trains : list Train.t) (progress : gmap string R) :
  ∃ trains' progress',
    tick' (trains, progress) = Returns (trains', progress') ∧
    length trains' = length trains ∧
    ∀ i train, trains !! i = Some train →
      ∃ speed position c n,
        trains' !! i
        = Some (Train.with_stations c n (Train.with_speed_position speed position train)).
Proof.
  destruct (tick_lookup trains progress) as (trains' & progress' & Htick & Hlen & Hat).
  exists trains', progress'. split_and!; [done..|].
  intros i train Hi. destruct (Hat i train Hi) as (train1 & u & c & n & Hanimate & Hi').
  destruct (animateTrain_cases _ _ _ _ _ Hanimate) as [[_ ->]|[_ [p ->]]].
  - exists (Train.speed train), (Train.position train), c, n. rewrite Hi'. by destruct train.
  - by eexists _, _, _, _.
Qed.

(** X21. After a firing of the interval the speed of a train that is not
    manual is a whole number of at least 30; it is at most the maximal
    speed of the train when that is a whole number of at least 30, and it
    is 30, above the maximal speed, when the maximal speed is below 30. *)
Theorem tick_speed_range (trains : list Train.t) (progress : gmap string R) (i : nat)
    (train : Train.t) :
  trains !! i = Some train → Train.isManual (Train.id train) = false →
  ∃ trains' progress' train' (n : Z),
    tick' (trains, progress) = Returns (trains', progress') ∧
    trains' !! i = Some train' ∧
    Train.speed train' = IZR n ∧ (30 ≤ n)%Z ∧
    (∀ m : Z, Train.maxSpeed train = IZR m → (30 ≤ m)%Z → (n ≤ m)%Z) ∧
    (Train.maxSpeed train <= 30 → n = 30%Z).
Proof.
  intros Hi Hmanual.
  destruct (tick_lookup trains progress) as (trains' & progress' & Htick & Hlen & Hat).
  destruct (Hat i train Hi) as (train1 & u & c & n & Hanimate & Hi').
  destruct (animateTrain_cases _ _ _ _ _ Hanimate) as [[? _]|[_ [p ->]]]; [congruence|].
  pose proof (newSpeedOf_bounds rnd i train) as [Hlo Hhi].
  eexists trains', progress', _, (Int_part (Animator.newSpeedOf rnd i train + / 2)).
  split_and!; [done|done|done| | |].
  - by apply Math_round_lower.
  - intros m Hm Hm30. apply Math_round_upper.
    rewrite Hm in Hhi. unfold Math_max in Hhi. rewrite Rmax_right in Hhi; [done|].
    by apply IZR_le.
  - intros Hmax. unfold Math_max in Hhi. rewrite Rmax_left in Hhi by done.
    pose proof (Math_round_lower 30 _ Hlo). pose proof (Math_round_upper 30 _ Hhi). lia.
Qed.
End tick_frame.

Lemma tick_speed_range_witness :
  ∃ trains' progress' train' (n : Z),
    Animator.tick mockStations [] ∅ steady ([vadodaraFast], ∅) = Returns (trains', progress') ∧
    trains' !! 0%nat = Some train' ∧ Train.speed train' = IZR n ∧ (30 ≤ n)%Z.
Proof.
  destruct (tick_speed_range mockStations [] ∅ steady [vadodaraFast] ∅ 0 vadodaraFast
              eq_refl eq_refl) as (trains' & progress' & train' & n & H1 & H2 & H3 & H4 & _).
  by exists trains', progress', train', n.
Defined.

Lemma tick_changes_speed_position_stations_witness :
  ∃ trains' progress',
    Animator.tick mockStations [] ∅ steady ([vadodaraFast], ∅) = Returns (trains', progress') ∧
    ∃ speed position c n,
      trains' !! 0%nat
      = Some (Train.with_stations c n (Train.with_speed_position speed position vadodaraFast)).
Proof.
  destruct (tick_changes_speed_position_stations mockStations [] ∅ steady [vadodaraFast] ∅)
    as (trains' & progress' & H1 & _ & H2).
  exists trains', progress'. split; [exact H1|]. exact (H2 0%nat vadodaraFast eq_refl).
Defined.

Section tick_places.
Context (stations : list Station.t) (realLines : list RailwayLine.t).
Context (trainRoutes : gmap string (list string)) (rnd : nat → R * R).

(** X22. After a firing of the interval a train that is not manual and
    whose path is resolved is on a segment of that path, between its two
    ends, at the arc length from the start of the path that is the stored
    progress plus the spacing offset of its index, capped at 0.95, times the
    length of the path: a train is never drawn on the last twentieth of its
    path. *)
Theorem tick_position_on_path (trains : list Train.t) (progress : gmap string R) (i : nat)
    (train : Train.t) (pathPoints : list Point) :
  trains !! i = Some train → Train.isManual (Train.id train) = false →
  Animator.pathPointsOf realLines trainRoutes train = Some pathPoints →
  0 <= default 0 (progress !! Train.id train) →
  ∃ trains' progress' train' k p0 p1 t,
    Animator.tick stations realLines trainRoutes rnd (trains, progress)
    = Returns (trains', progress') ∧
    trains' !! i = Some train' ∧
    pathPoints !! k = Some p0 ∧ pathPoints !! (k + 1)%nat = Some p1 ∧
    0 <= t <= 1 ∧ Train.position train' = lerp p0 p1 t ∧
    cumulative pathPoints k + t * segLen p0 p1
    = Math_min 0.95 (default 0 (progress !! Train.id train) + INR (i mod 3) * 0.1)
      * pathLength pathPoints ∧
    cumulative pathPoints k + t * segLen p0 p1 <= 0.95 * pathLength pathPoints.
Proof.
  intros Hi Hmanual Hpath Hstored.
  destruct (tick_lookup stations realLines trainRoutes rnd trains progress)
    as (trains' & progress' & Htick & Hlen & Hat).
  destruct (Hat i train Hi) as (train1 & u & c & n & Hanimate & Hi').
  destruct (animateTrain_moved stations realLines trainRoutes rnd progress i train pathPoints
              Hmanual Hpath) as (r & Hr & Heq).
  rewrite Heq in Hanimate. simplify_eq.
  set (finalProgress := Math_min 0.95 _) in *.
  pose proof (getLinePoints_length _ _ _ _ Hpath) as Hlen2.
  destruct (getPointAlongPath_on_segment pathPoints finalProgress Hlen2)
    as (r' & k & p0 & p1 & t & Hr' & Hk & Hk1 & Ht & Hon & Harc).
  rewrite Hr in Hr'. simplify_eq.
  assert (0 <= finalProgress <= 0.95) as Hfinal.
  { unfold finalProgress, Math_min, Rmin. pose proof (pos_INR (i mod 3)).
    destruct (Rle_dec _ _); lra. }
  assert (clamp01 finalProgress = finalProgress) as Hclamp.
  { apply max_min_inside. lra. }
  rewrite Hclamp in Harc.
  eexists trains', progress', _, k, p0, p1, t.
  split_and!; [done|done|done|done|apply Ht|apply Ht|exact Hon|exact Harc|].
  rewrite Harc. pose proof (pathLength_nonneg pathPoints). nra.
Qed.
End tick_places.

Lemma tick_position_on_path_witness :
  ∃ trains' progress' train' k p0 p1 t,
    Animator.tick mockStations [] ∅ steady ([vadodaraFast], ∅) = Returns (trains', progress') ∧
    trains' !! 0%nat = Some train' ∧
    [mkPoint 400 300; mkPoint 450 350] !! k = Some p0 ∧
    [mkPoint 400 300; mkPoint 450 350] !! (k + 1)%nat = Some p1 ∧
    0 <= t <= 1 ∧ Train.position train' = lerp p0 p1 t.
Proof.
  assert (Animator.pathPointsOf [] ∅ vadodaraFast = Some [mkPoint 400 300; mkPoint 450 350])
    as Hpath by reflexivity.
  assert (0 <= default 0 ((∅ : gmap string R) !! Train.id vadodaraFast)) as Hstored.
  { rewrite lookup_empty. cbn. lra. }
  destruct (tick_position_on_path mockStations [] ∅ steady [vadodaraFast] ∅ 0 vadodaraFast
              [mkPoint 400 300; mkPoint 450 350] eq_refl eq_refl Hpath Hstored)
    as (trains' & progress' & train' & k & p0 & p1 & t & H1 & H2 & H3 & H4 & H5 & H6 & _).
  by exists trains', progress', train', k, p0, p1, t.
Defined.

(** ** The stored progress *)

Section progress_range.
Context (mapContainerRef : option DOMRect.t).
Context (stations : list Station.t) (realLines : list RailwayLine.t).
Context (trainRoutes : gmap string (list string)) (isRunning : bool).

Abbreviation inRange := (map_Forall (λ (_ : string) (p : R), 0 <= p < 1)).

Lemma animateTrain_increment (rnd : nat → R * R) (progress : gmap string R) (index : nat)
    (train train1 : Train.t) (u : Animator.ProgressUpdater) :
  Animator.animateTrain stations realLines trainRoutes rnd progress index train
  = Returns (train1, Some u) →
  0 < Animator.progressIncrement u.
Proof.
  unfold Animator.animateTrain. intros H.
  pose proof (newSpeedOf_bounds rnd index train) as [Hlo _].
  repeat case_match; simplify_eq;
    (destruct (Geometry.getPointAlongPath _ _); cbn in H; simplify_eq;
     cbn [Animator.progressIncrement]; unfold Animator.progressIncrementOf;
     destruct (decide (0 < Train.delay train)); lra).
Qed.

Lemma animateAll_increments (rnd : nat → R * R) (progress : gmap string R)
    (trains : list Train.t) (index : nat) (trains1 : list Train.t)
    (updaters : list Animator.ProgressUpdater) :
  Animator.animateAll stations realLines trainRoutes rnd progress index trains
  = Returns (trains1, updaters) →
  ∀ u, u ∈ updaters → 0 < Animator.progressIncrement u.
Proof.
  revert index trains1 updaters.
  induction trains as [|t rest IH]; intros index trains1 updaters Hall u Hu.
  - cbn in Hall. simplify_eq. by apply elem_of_nil in Hu.
  - cbn [Animator.animateAll] in Hall.
    destruct (Animator.animateTrain _ _ _ _ progress index t) as [[t1 v]|] eqn:Ht; [|done].
    destruct (Animator.animateAll _ _ _ _ progress (S index) rest) as [[rest1 us]|] eqn:Hrest;
      [|done].
    cbn in Hall. simplify_eq.
    apply elem_of_app in Hu as [Hu|Hu].
    + destruct v as [v|]; [|by apply elem_of_nil in Hu].
      apply list_elem_of_singleton in Hu as ->. by eapply animateTrain_increment.
    + by eapply IH.
Qed.

Lemma applyProgress_range (u : Animator.ProgressUpdater) (s : list Train.t * gmap string R) :
  0 < Animator.progressIncrement u → inRange s.2 → inRange (Animator.applyProgress u s).2.
Proof.
  intros Hinc Hs. unfold Animator.applyProgress.
  assert (0 <= default 0 (s.2 !! Animator.trainId u)) as Hcurrent.
  { destruct (s.2 !! Animator.trainId u) as [p|] eqn:Hp; cbn; [|lra].
    by destruct (Hs _ _ Hp). }
  case_decide; cbn [snd]; apply map_Forall_insert_2; try done; lra.
Qed.

Lemma settle_range (us : list Animator.ProgressUpdater) (s : list Train.t * gmap string R) :
  (∀ u, u ∈ us → 0 < Animator.progressIncrement u) → inRange s.2 →
  inRange (fold_left (λ s u, Animator.applyProgress u s) us s).2.
Proof.
  revert s. induction us as [|u us IH]; intros s Hus Hs; [done|].
  cbn [fold_left]. apply IH; [intros v Hv; apply Hus; by right|].
  apply applyProgress_range; [apply Hus; by left|done].
Qed.

Lemma tick_range (rnd : nat → R * R) (s s' : list Train.t * gmap string R) :
  Animator.tick stations realLines trainRoutes rnd s = Returns s' → inRange s.2 → inRange s'.2.
Proof.
  unfold Animator.tick. intros H Hs.
  destruct (Animator.animateAll _ _ _ _ _ _ _) as [[trains1 us]|] eqn:Hall; [|done].
  cbn in H. simplify_eq. apply settle_range; [|done].
  by eapply animateAll_increments.
Qed.

Lemma progress_range_after (ev : Event) (s : State) :
  grabsManual s → inRange (trainProgress s) →
  inRange (trainProgress
             (Handlers.after mapContainerRef stations realLines trainRoutes isRunning ev s)).
Proof.
  intros Hgrab Hs.
  destruct (grabsManual_after mapContainerRef stations realLines trainRoutes isRunning ev s Hgrab)
    as [_ Hkeep].
  destruct ev; [(destruct Hkeep as [_ ->]; exact Hs)..|].
  unfold Handlers.after. cbn [Handlers.handle]. unfold Handlers.intervalTick.
  destruct isRunning; [|done].
  destruct (Animator.tick _ _ _ _ _) as [r|] eqn:Htick; [|done].
  cbn. exact (tick_range _ _ _ Htick Hs).
Qed.

(** X23. The stored progress of every train is always at least 0 and below
    1: when the progress the component starts with is (the draws
    [Math.random() * 0.8] its first effect stores are), it is after every
    sequence of events, whatever the pointer and the interval did. *)
Theorem stored_progress_stays_in_range (trains : list Train.t) (progress : gmap string R)
    (events : list Event) :
  map_Forall (λ (_ : string) (p : R), 0 <= p < 1) progress →
  map_Forall (λ (_ : string) (p : R), 0 <= p < 1)
    (trainProgress (Handlers.run mapContainerRef stations realLines trainRoutes isRunning events
                      (initialState trains progress))).
Proof.
  intros Hstart.
  assert (∀ s, grabsManual s → inRange (trainProgress s) →
               inRange (trainProgress (Handlers.run mapContainerRef stations realLines
                                         trainRoutes isRunning events s))) as Hrun.
  { induction events as [|ev events IH]; intros s Hgrab Hs; [done|].
    cbn. apply IH.
    - by apply grabsManual_after.
    - by apply progress_range_after. }
  by apply Hrun.
Qed.
End progress_range.

Lemma stored_progress_stays_in_range_witness :
  map_Forall (λ (_ : string) (p : R), 0 <= p < 1)
    (trainProgress (Handlers.run container mockStations [] ∅ true
                      [IntervalTick steady; IntervalTick steady]
                      (initialState [vadodaraFast] {[ "T002"%string := 0.79 ]}))).
Proof.
  apply (stored_progress_stays_in_range container mockStations [] ∅ true [vadodaraFast]
           {[ "T002"%string := 0.79 ]} [IntervalTick steady; IntervalTick steady]).
  apply map_Forall_singleton. lra.
Defined.

(** ** The map service and the markers *)

Lemma fraction_of_span (v lo hi size : R) :
  lo < hi → 0 <= size → lo <= v <= hi → 0 <= (v - lo) / (hi - lo) * size <= size.
Proof.
  intros Hspan Hsize Hv.
  assert (0 <= (v - lo) / (hi - lo) <= 1) as Ht.
  { split.
    - apply Rle_mult_inv_pos; lra.
    - apply (Rmult_le_reg_r (hi - lo)); [lra|]. unfold Rdiv.
      rewrite Rmult_assoc, Rinv_l by lra. lra. }
  nra.
Qed.

Lemma convertLatLngToPixel_corners (bounds : RailwayMapService.Bounds)
    (mapSize : RailwayMapService.MapSize) :
  let convert lat lng := RailwayMapService.convertLatLngToPixel lat lng bounds mapSize in
  RailwayMapService.west bounds < RailwayMapService.east bounds →
  RailwayMapService.south bounds < RailwayMapService.north bounds →
  0 < RailwayMapService.width mapSize → 0 < RailwayMapService.height mapSize →
  convert (RailwayMapService.north bounds) (RailwayMapService.west bounds) = mkPoint 0 0 ∧
  convert (RailwayMapService.south bounds) (RailwayMapService.east bounds)
  = mkPoint (RailwayMapService.width mapSize) (RailwayMapService.height mapSize) ∧
  (∀ lat lng,
     RailwayMapService.south bounds <= lat <= RailwayMapService.north bounds →
     RailwayMapService.west bounds <= lng <= RailwayMapService.east bounds →
     0 <= x (convert lat lng) <= RailwayMapService.width mapSize ∧
     0 <= y (convert lat lng) <= RailwayMapService.height mapSize).
Proof.
  intros convert Hwe Hsn HW HH. subst convert.
  destruct bounds as [n s e w], mapSize as [W H].
  unfold RailwayMapService.convertLatLngToPixel. cbn [RailwayMapService.north
    RailwayMapService.south RailwayMapService.east RailwayMapService.west
    RailwayMapService.width RailwayMapService.height x y] in *.
  split_and!.
  - apply point_eq; field; lra.
  - apply point_eq; field; lra.
  - intros lat lng Hlat Hlng. split.
    + apply fraction_of_span; lra.
    + replace ((n - lat) / (n - s) * H) with (H - (lat - s) / (n - s) * H) by (field; lra).
      pose proof (fraction_of_span lat s n H Hsn ltac:(lra) Hlat). lra.
Qed.




(** X25. [getLinesWithPixelCoordinates] keeps the lines in their order and,
    of each line, the id, the name, the stations and the number of
    coordinates; with bounds that are not empty, a line whose coordinates
    are within the bounds has all its points within the rectangle of the
    map. *)
Theorem getLinesWithPixelCoordinates_within_map (lines : list RailwayMapService.Line)
    (bounds : RailwayMapService.Bounds) (mapSize : RailwayMapService.MapSize) :
  RailwayMapService.west bounds < RailwayMapService.east bounds →
  RailwayMapService.south bounds < RailwayMapService.north bounds →
  0 < RailwayMapService.width mapSize → 0 < RailwayMapService.height mapSize →
  let realLines := RailwayMapService.getLinesWithPixelCoordinates lines bounds mapSize in
  length realLines = length lines ∧
  ∀ i line, lines !! i = Some line →
    ∃ realLine, realLines !! i = Some realLine ∧
      RailwayLine.id realLine = RailwayMapService.id line ∧
      RailwayLine.name realLine = RailwayMapService.name line ∧
      RailwayLine.stations realLine = RailwayMapService.stations line ∧
      length (RailwayLine.coordinates realLine) = length (RailwayMapService.coordinates line) ∧
      (Forall (λ c, RailwayMapService.south bounds <= RailwayMapService.lat c
                    <= RailwayMapService.north bounds ∧
                    RailwayMapService.west bounds <= RailwayMapService.lng c
                    <= RailwayMapService.east bounds)
         (RailwayMapService.coordinates line) →
       Forall (λ p, 0 <= x p <= RailwayMapService.width mapSize ∧
                    0 <= y p <= RailwayMapService.height mapSize)
         (RailwayLine.coordinates realLine)).
Proof.
  intros Hwe Hsn HW HH realLines. subst realLines.
  unfold RailwayMapService.getLinesWithPixelCoordinates. split; [by rewrite length_map|].
  intros i line Hi. rewrite list_lookup_fmap, Hi. cbn [fmap option_fmap option_map].
  eexists. split; [reflexivity|].
  cbn [RailwayLine.id RailwayLine.name RailwayLine.stations RailwayLine.coordinates].
  split_and!; [done|done|done|by rewrite length_map|].
  intros Hinside. apply Forall_fmap. eapply Forall_impl; [exact Hinside|].
  intros c [Hlat Hlng]. cbn beta.
  destruct (convertLatLngToPixel_corners bounds mapSize Hwe Hsn HW HH) as (_ & _ & Hin).
  by apply Hin.
Qed.

Lemma getLinesWithPixelCoordinates_within_map_witness :
  length (RailwayMapService.getLinesWithPixelCoordinates
            [RailwayMapService.mkLine "L1" "Mehsana-Ahmedabad" main ["ST002"; "ST001"]
               [RailwayMapService.mkLatLng 23.6 72.4; RailwayMapService.mkLatLng 23 72.6] true]
            (RailwayMapService.mkBounds 24.5 19 77.5 68.5)
            (RailwayMapService.mkMapSize 800 600)) = 1%nat.
Proof.
  refine (proj1 (getLinesWithPixelCoordinates_within_map
            [RailwayMapService.mkLine "L1" "Mehsana-Ahmedabad" main ["ST002"; "ST001"]
               [RailwayMapService.mkLatLng 23.6 72.4; RailwayMapService.mkLatLng 23 72.6] true]
            (RailwayMapService.mkBounds 24.5 19 77.5 68.5)
            (RailwayMapService.mkMapSize 800 600) _ _ _ _));
    cbn [RailwayMapService.north RailwayMapService.south RailwayMapService.east
         RailwayMapService.west RailwayMapService.width RailwayMapService.height]; lra.
Defined.



(** ** The routes the component builds *)

Lemma indexOf_found (arr : list string) (s : string) :
  s ∈ arr → ∃ k, Animator.indexOf arr (Some s) = Z.of_nat k ∧ arr !! k = Some s.
Proof.
  intros Hin. unfold Animator.indexOf.
  destruct (list_find_elem_of (λ a, a = s) arr s Hin eq_refl) as [[k a] Hfind].
  rewrite Hfind. apply list_find_Some in Hfind as (Hk & -> & _). by exists k.
Qed.

(** X27. The route built for a train whose current station is one of the
    stations is circular: it starts and ends at that station, is one longer
    than the list of the stations and passes every station. For a train
    whose current station is not one of the stations it is as long, but it
    starts at the last station and ends with [undefined]. *)
Theorem initialRoute_circular (stationIds : list string) (currentStation : option string) :
  let route := initialRoute stationIds currentStation in
  length route = S (length stationIds) ∧
  (∀ c, currentStation = Some c → c ∈ stationIds →
     head route = Some (Some c) ∧ last route = Some (Some c) ∧
     ∀ s, s ∈ stationIds → Some s ∈ route) ∧
  (Animator.indexOf stationIds currentStation = (-1)%Z →
     last route = Some None ∧
     (stationIds ≠ [] → head route = Some (last stationIds))).
Proof.
  intros route. subst route. unfold initialRoute. split_and!.
  - pose proof (indexOf_lower_bound stationIds currentStation) as Hlow.
    case_decide as Hneg.
    + rewrite !length_app, !length_fmap, length_drop, length_take. cbn [length]. lia.
    + destruct currentStation as [c|]; [|cbn in Hneg; lia].
      unfold Animator.indexOf in *.
      destruct (list_find _ stationIds) as [[k a]|] eqn:Hfind; [|lia].
      apply list_find_Some in Hfind as (Hk & _ & _).
      pose proof (lookup_lt_Some _ _ _ Hk).
      rewrite Nat2Z.id, !length_app, !length_fmap, length_drop, length_take. cbn [length]. lia.
  - intros c -> Hin. destruct (indexOf_found stationIds c Hin) as (k & Hindex & Hk).
    rewrite Hindex, decide_False by lia. rewrite Nat2Z.id, Hk.
    split_and!.
    + by rewrite (drop_S _ _ _ Hk).
    + by rewrite app_assoc, last_snoc.
    + intros s Hs. rewrite app_assoc, <- fmap_app. apply elem_of_app. left.
      apply list_elem_of_fmap. exists s. split; [done|].
      rewrite <- (take_drop k stationIds) in Hs.
      apply elem_of_app in Hs as [?|?]; apply elem_of_app; [by right|by left].
  - intros Hindex. rewrite Hindex, decide_True by lia. split.
    + by rewrite app_assoc, last_snoc.
    + intros Hne.
      destruct (last stationIds) as [l|] eqn:Hlast; [|by apply last_None in Hlast].
      apply last_Some in Hlast as [front ->].
      rewrite length_app. cbn [length].
      replace (length front + 1 - 1)%nat with (length front) by lia.
      by rewrite drop_app_length.
Qed.

Lemma initialRoute_circular_witness :
  head (initialRoute ["ST001"; "ST002"; "ST003"]%string (Some "ST002"%string))
  = Some (Some "ST002"%string).
Proof.
  refine (proj1 (proj1 (proj2 (initialRoute_circular ["ST001"; "ST002"; "ST003"]%string
                                 (Some "ST002"%string))) "ST002"%string eq_refl _)).
  set_solver.
Defined.

(** ** The handlers as a whole *)

(** X28. No handler of a pointer, wheel, touch, button or animation frame
    event throws: on every event other than the interval tick, in every
    state and with every container, stations and lines, the handler returns
    a state, that state is the state after the event, and it does not
    depend on the routes, which these handlers do not read. *)
Theorem no_pointer_handler_throws (mapContainerRef : option DOMRect.t)
    (stations : list Station.t) (realLines : list RailwayLine.t)
    (trainRoutes trainRoutes' : gmap string (list string)) (isRunning : bool)
    (ev : Event) (s : State) :
  match ev with
  | IntervalTick _ => True
  | _ =>
      ∃ s', Handlers.handle mapContainerRef stations realLines trainRoutes isRunning ev s
            = Returns s' ∧
            Handlers.after mapContainerRef stations realLines trainRoutes isRunning ev s = s' ∧
            Handlers.handle mapContainerRef stations realLines trainRoutes' isRunning ev s
            = Returns s'
  end.
Proof.
  destruct (handle_returns mapContainerRef stations realLines trainRoutes isRunning ev s)
    as [s' Hs'].
  destruct ev; [(exists s'; split_and!; [done|unfold Handlers.after; by rewrite Hs'|done])..|done].
Qed.

(** X29. The wheel zooms out by a tenth when it is turned down and in by a
    tenth when it is turned up or sideways (a [deltaY] of 0 zooms in), and a
    double click zooms in by a quarter, each within the bounds of the zoom:
    turning down never increases the zoom and turning up never decreases
    it. *)
Theorem wheel_zoom_direction (mapContainerRef : option DOMRect.t) (e : MouseEvent)
    (deltaY : R) (s : State) :
  0.3 <= Viewport.zoom (view s) <= 3 →
  let zoom' := Viewport.zoom (view (Handlers.handleWheel mapContainerRef e deltaY s)) in
  (0 < deltaY →
   zoom' = Math_max 0.3 (Viewport.zoom (view s) * 0.9) ∧ zoom' <= Viewport.zoom (view s)) ∧
  (deltaY <= 0 →
   zoom' = Math_min 3 (Viewport.zoom (view s) * 1.1) ∧ Viewport.zoom (view s) <= zoom') ∧
  Viewport.zoom (view (Handlers.handleDoubleClick mapContainerRef e s))
  = Math_min 3 (Viewport.zoom (view s) * 1.25).
Proof.
  intros Hz zoom'. subst zoom'.
  unfold Handlers.handleWheel, Handlers.handleDoubleClick, Handlers.zoomAt, Viewport.zoomAt.
  cbn [view set_view Viewport.zoom].
  split_and!.
  - intros Hdown. rewrite decide_True by done.
    unfold Math_max, Math_min, Rmax, Rmin. repeat destruct (Rle_dec _ _); lra.
  - intros Hup. rewrite decide_False by lra.
    unfold Math_max, Math_min, Rmax, Rmin. repeat destruct (Rle_dec _ _); lra.
  - unfold Math_max, Math_min, Rmax, Rmin. repeat destruct (Rle_dec _ _); lra.
Qed.

Lemma wheel_zoom_direction_witness :
  Viewport.zoom (view (Handlers.handleDoubleClick container (mouseAt 10 10 0) emptyMap))
  = Math_min 3 (Viewport.zoom (view emptyMap) * 1.25).
Proof.
  refine (proj2 (proj2 (wheel_zoom_direction container (mouseAt 10 10 0) 1 emptyMap _))).
  cbn [emptyMap initialState view Viewport.zoom Viewport.initial]. lra.
Defined.

(** ** The markers across the ticks *)

Lemma filter_same_ids (l l' : list Train.t) :
  Train.id <$> l = Train.id <$> l' →
  Train.id <$> filter (λ t, Train.isManual (Train.id t) = false) l
  = Train.id <$> filter (λ t, Train.isManual (Train.id t) = false) l'.
Proof.
  revert l'. induction l as [|t l IH]; intros [|t' l'] Heq; try done.
  cbn in Heq. injection Heq as Hid Hrest.
  rewrite !filter_cons, <- Hid.
  case_decide; cbn; [f_equal; [done|]|]; by apply IH.
Qed.

Lemma tick_ids (stations : list Station.t) (realLines : list RailwayLine.t)
    (trainRoutes : gmap string (list string)) (rnd : nat → R * R)
    (s s' : list Train.t * gmap string R) :
  Animator.tick stations realLines trainRoutes rnd s = Returns s' →
  Train.id <$> s'.1 = Train.id <$> s.1.
Proof.
  destruct s as [trains progress]. intros Htick.
  destruct (tick_lookup stations realLines trainRoutes rnd trains progress)
    as (trains' & progress' & Htick' & Hlen & Hat).
  rewrite Htick' in Htick. simplify_eq. cbn [fst].
  apply list_eq. intros i. rewrite !list_lookup_fmap.
  destruct (trains !! i) as [train|] eqn:Hi.
  - destruct (Hat i train Hi) as (train1 & u & c & n & Hanimate & ->).
    destruct (animateTrain_cases _ _ _ _ _ _ _ _ _ Hanimate) as [[_ ->]|[_ [p ->]]]; done.
  - apply lookup_ge_None in Hi. rewrite <- Hlen in Hi. apply lookup_ge_None in Hi.
    by rewrite Hi.
Qed.

(** X30. The markers keep their places in the drawn list across the ticks:
    after a firing of the interval the drawn trains are the trains of the
    same ids in the same order, so every marker keeps the index its offset
    is computed from. *)
Theorem tick_keeps_drawn_order (mapContainerRef : option DOMRect.t) (stations : list Station.t)
    (realLines : list RailwayLine.t) (trainRoutes : gmap string (list string))
    (isRunning : bool) (rnd : nat → R * R) (s : State) :
  Train.id <$> drawnTrains (Handlers.after mapContainerRef stations realLines trainRoutes
                              isRunning (IntervalTick rnd) s)
  = Train.id <$> drawnTrains s.
Proof.
  unfold Handlers.after. cbn [Handlers.handle]. unfold Handlers.intervalTick.
  destruct isRunning; [|done].
  destruct (Animator.tick _ _ _ _ _) as [r|] eqn:Htick; [|done].
  cbn [mbind outcome_bind]. unfold mbind, outcome_bind. unfold drawnTrains.
  cbn [manualTrains animatedTrains set_animatedTrains set_trainProgress].
  rewrite !fmap_app. f_equal. apply filter_same_ids.
  exact (tick_ids _ _ _ _ _ _ Htick).
Qed.

(** ** Manual trains and the tick *)

(** No updater carries the id of a manual train: a tick leaves the stored
    progress of every id that begins with M as it is. *)
Lemma tick_progress_manual (stations : list Station.t) (realLines : list RailwayLine.t)
    (trainRoutes : gmap string (list string)) (rnd : nat → R * R)
    (s s' : list Train.t * gmap string R) (trainId : string) :
  Train.isManual trainId = true →
  Animator.tick stations realLines trainRoutes rnd s = Returns s' →
  s'.2 !! trainId = s.2 !! trainId.
Proof.
  intros Hmanual Htick. unfold Animator.tick in Htick.
  destruct (animateAll_returns stations realLines trainRoutes rnd s.2 s.1 0)
    as (trains1 & us & Hall & _ & Hus).
  rewrite Hall in Htick. cbn in Htick. simplify_eq.
  refine (proj1 (settle_other us (trains1, s.2) trainId _)).
  intros u Hu Heq. destruct (Hus u Hu) as (t & _ & Hid & Hnot). congruence.
Qed.

(** C10. On every tick of the interval while the simulation is running,
    every manually placed train is as it was: the list of the trains placed
    by hand is not touched, a train of the animated list whose id begins
    with 'M' is returned unchanged, every field of it, and the stored
    progress of every id that begins with 'M' is what it was. The trains a
    tick changes are trains whose id does not begin with 'M'. *)
Theorem manual_trains_are_not_animated
    (mapContainerRef : option DOMRect.t) (stations : list Station.t)
    (realLines : list RailwayLine.t) (trainRoutes : gmap string (list string))
    (rnd : nat → R * R) (s : State) :
  ∃ s',
    Handlers.handle mapContainerRef stations realLines trainRoutes true (IntervalTick rnd) s
    = Returns s' ∧
    manualTrains s' = manualTrains s ∧
    length (animatedTrains s') = length (animatedTrains s) ∧
    (∀ i train,
       animatedTrains s !! i = Some train → Train.isManual (Train.id train) = true →
       animatedTrains s' !! i = Some train) ∧
    (∀ trainId,
       Train.isManual trainId = true →
       trainProgress s' !! trainId = trainProgress s !! trainId) ∧
    (∀ i train train',
       animatedTrains s !! i = Some train → animatedTrains s' !! i = Some train' →
       train' ≠ train → Train.isManual (Train.id train) = false).
Proof.
  destruct (tick_lookup stations realLines trainRoutes rnd (animatedTrains s) (trainProgress s))
    as (trains' & progress' & Htick & Hlen & _).
  assert (∀ i train,
            animatedTrains s !! i = Some train → Train.isManual (Train.id train) = true →
            trains' !! i = Some train) as Hkept.
  { intros i train Hi Hmanual.
    destruct (tick_at stations realLines trainRoutes rnd (animatedTrains s) (trainProgress s)
                i train Hi) as (trains2 & progress2 & train1 & u & Htick2 & Htrain & _ & Ht & _).
    { intros j t _ _ Ht. by apply manual_id_differs. }
    rewrite animateTrain_manual in Htrain by done.
    rewrite Htick in Htick2. by simplify_eq. }
  cbn [Handlers.handle]. unfold Handlers.intervalTick. rewrite Htick.
  eexists. split; [reflexivity|].
  cbn [manualTrains animatedTrains trainProgress set_animatedTrains set_trainProgress fst snd].
  split_and!; [done|done|exact Hkept| |].
  - intros trainId Hmanual.
    exact (tick_progress_manual _ _ _ _ _ _ trainId Hmanual Htick).
  - intros i train train' Hi Hi' Hchanged.
    destruct (Train.isManual (Train.id train)) eqn:Hmanual; [|done].
    rewrite (Hkept i train Hi Hmanual) in Hi'. by simplify_eq.
Qed.

(** The map with a train placed by hand and the express from Ahmedabad
    running: across a tick the placed train is where it was put, and no
    progress is stored for it. *)
Lemma manual_trains_are_not_animated_witness :
  ∃ s',
    Handlers.handle container mockStations [] ∅ true (IntervalTick steady)
      (set_animatedTrains [vadodaraFast] placedMap)
    = Returns s' ∧
    manualTrains s' = [manualTrain] ∧
    length (animatedTrains s') = 1%nat ∧
    trainProgress s' !! "M1700000000000"%string = None.
Proof.
  destruct (manual_trains_are_not_animated container mockStations [] ∅ steady
              (set_animatedTrains [vadodaraFast] placedMap))
    as (s' & Hhandle & Hplaced & Hlength & _ & Hprogress & _).
  exists s'. split_and!; [exact Hhandle|exact Hplaced|exact Hlength|].
  exact (Hprogress "M1700000000000"%string eq_refl).
Defined.
